(** * tailscale-mesh-forward-android: local proxy service and multiTUN

    A shallow embedding of [libtailscale/proxy.go] (both build variants:
    the SOCKS5-capable service on port 8339 and the HTTP-only service on
    port 8939), of the [multiTUN] device multiplexer of
    [libtailscale/store.go] (multitun.go) and of the state store of the
    same file, with the properties the specification states about them
    and further properties of the code. *)

From Stdlib Require Import ZArith String Ascii List Lia.
From Stdlib.Strings Require Import Byte.
From Stdlib Require Import DecimalString DecimalZ DecimalPos.
From stdpp Require Import base option list strings gmap.

Import ListNotations.
Local Open Scope string_scope.
Local Open Scope list_scope.

(** ** Go values shared by both parts *)

(** [fmt.Sprintf("%d", z)] for a Go [int]. *)
Definition itoa (z : Z) : string := NilZero.string_of_int (Z.to_int z).

(** [strconv.Atoi]: only used on the specification side, to read a decimal
    field back. *)
Definition atoi (s : string) : option Z :=
  match NilZero.int_of_string s with
  | Some d => Some (Z.of_int d)
  | None => None
  end.

(** Go [string(b)] and [[]byte(s)]. *)
Definition bytes_of (s : string) : list byte := list_byte_of_string s.
Definition string_of (b : list byte) : string := string_of_list_byte b.

Definition CR : ascii := "013"%char.
Definition LF : ascii := "010"%char.
Definition CRLF : string := String CR (String LF EmptyString).
(** The double quote character. *)
Definition DQ : string := String "034"%char EmptyString.

(** ** Connections (net.Conn behind a bufio.Reader) *)

Module Net.

Inductive error :=
| EOF                      (* io.EOF *)
| ErrUnexpectedEOF         (* io.ErrUnexpectedEOF *)
| ErrOther (msg : string). (* a timeout, a reset, ... *)

Definition is_EOF (e : error) : bool :=
  match e with EOF => true | _ => false end.

(** What a handler does to the outside world, in program order. *)
Inductive event :=
| Write (b : list byte)      (* conn.Write(b) *)
| Dial (target : string)     (* net.DialTimeout("tcp", target, 10*time.Second) *)
| Relay (target : string).   (* ps.relay(conn, targetConn) *)

(** A connection as the handlers see it: the bytes the peer delivers
    before the stream ends, the error reads get afterwards, whether
    conn.Write fails, and the effects performed so far. *)
Record Conn := mkConn {
  pending : list byte;
  ending : error;
  wfail : bool;
  trace : list event
}.

Definition set_pending (p : list byte) (c : Conn) : Conn :=
  mkConn p (ending c) (wfail c) (trace c).

Definition emit (e : event) (c : Conn) : Conn :=
  mkConn (pending c) (ending c) (wfail c) (trace c ++ [e]).

(** Handlers thread the connection through their calls. *)
Definition M (A : Type) : Type := Conn -> A * Conn.

Definition ret {A} (a : A) : M A := fun c => (a, c).

Definition bind {A B} (m : M A) (k : A -> M B) : M B :=
  fun c => let (a, c') := m c in k a c'.

(** bufio.Reader.Peek(n): the next n bytes without consuming them; fewer
    bytes come with the error that cut the read short.  n is far below
    the 4096-byte buffer, so ErrBufferFull cannot occur. *)
Definition Peek (n : nat) : M (list byte * option error) :=
  fun c =>
    if (n <=? length (pending c))%nat
    then ((take n (pending c), None), c)
    else ((pending c, Some (ending c)), c).

(** io.ReadFull(reader, buf) with len(buf) = n.  For n = 0 it returns at
    once without reading. *)
Definition ReadFull (n : nat) : M (list byte * option error) :=
  fun c =>
    if (n <=? length (pending c))%nat
    then ((take n (pending c), None), set_pending (drop n (pending c)) c)
    else
      let e := match pending c, ending c with
               | [], e => e
               | _ :: _, EOF => ErrUnexpectedEOF
               | _ :: _, e => e
               end in
      ((pending c, Some e), set_pending [] c).

(** conn.Write(b); the result says whether it succeeded. *)
Definition conn_Write (b : list byte) : M bool :=
  fun c => (negb (wfail c), emit (Write b) c).

(** The fields of *http.Request the handlers use; URL is req.URL.String(). *)
Record Request := mkRequest {
  Method : string;
  URL : string;
  Host : string
}.

(** http.ReadRequest(reader) is the Go standard library's parser: [parse]
    stands for it.  From the unread bytes and the error that ends the
    stream it yields the request or nothing, and the bytes left unread. *)
Definition http_ReadRequest
    (parse : list byte -> error -> option Request * list byte)
    : M (option Request) :=
  fun c => let (r, rest) := parse (pending c) (ending c) in
           (r, set_pending rest c).

(** net.DialTimeout("tcp", target, 10*time.Second); [dial] says which
    targets cannot be reached. *)
Definition net_DialTimeout (dial : string -> option error) (target : string)
    : M (option error) :=
  fun c => (dial target, emit (Dial target) c).

(** ps.relay(client, target): the full-duplex copy, as one effect. *)
Definition relay (target : string) : M unit :=
  fun c => (tt, emit (Relay target) c).

Definition byte_int (b : byte) : Z := Z.of_N (Byte.to_N b).

End Net.

Notation "'let*' x := m 'in' k" := (Net.bind m (fun x => k))
  (at level 10, x pattern, m at level 100, k at level 200).


(** ** proxy.go: the SOCKS5-capable service (port 8339) *)

Module ProxyService.
Import Net.

Section Handlers.

Variable parse : list byte -> error -> option Request * list byte.
Variable dial : string -> option error.

Definition httpMethods : list string :=
  ["GET "; "POST "; "PUT "; "DELETE "; "HEAD "; "OPTIONS "; "CONNECT "].

(** The loop [for _, method := range httpMethods] of detectProtocol; None
    when it falls through. *)
Fixpoint range_httpMethods (firstBytes : list byte) (methods : list string)
    : option string :=
  match methods with
  | [] => None
  | method :: rest =>
      if (String.length method <=? length firstBytes)%nat
         && String.eqb (string_of (take (String.length method) firstBytes)) method
      then if String.eqb method "CONNECT " then Some "CONNECT" else Some "HTTP"
      else range_httpMethods firstBytes rest
  end.

(** detectProtocol: the protocol name and the error; the returned
    *bufio.Reader is the connection itself, nothing having been consumed. *)
Definition detectProtocol : M (string * option error) :=
  let* (firstBytes, err) := Peek 10 in
  match err with
  | Some e => ret ("", Some e)
  | None =>
      if (length firstBytes <? 1)%nat then ret ("SOCKS5", None)
      else
        match (if (3 <=? length firstBytes)%nat
               then range_httpMethods firstBytes httpMethods
               else None) with
        | Some protocol => ret (protocol, None)
        | None =>
            if Byte.eqb (nth 0 firstBytes x00) x05
            then ret ("SOCKS5", None)
            else ret ("SOCKS5", None)
        end
  end.

(** The response slice of socks5Reply. *)
Definition socks5_response (rep : byte) : list byte :=
  [x05; rep; x00; x01;
   x00; x00; x00; x00;
   x00; x00].

Definition socks5Reply (rep : byte) : M unit :=
  let* _ := conn_Write (socks5_response rep) in ret tt.

Definition socks5Auth : M bool :=
  let* (buf, err) := ReadFull 2 in
  match err with
  | Some _ => ret false
  | None =>
      let version := nth 0 buf x00 in
      let nmethods := nth 1 buf x00 in
      if negb (Byte.eqb version x05) then ret false
      else
        let* (_, err) := ReadFull (Byte.to_nat nmethods) in
        match err with
        | Some _ => ret false
        | None =>
            let* ok := conn_Write [x05; x00] in
            if ok then ret true else ret false
        end
  end.

(** net.IP(addr).String() for a 4-byte address. *)
Definition IP_String (addr : list byte) : string :=
  itoa (byte_int (nth 0 addr x00)) +:+ "." +:+
  itoa (byte_int (nth 1 addr x00)) +:+ "." +:+
  itoa (byte_int (nth 2 addr x00)) +:+ "." +:+
  itoa (byte_int (nth 3 addr x00)).

(** The [switch atyp] of socks5Connect: the target address, or nothing
    when the function has already returned false. *)
Definition read_targetAddr (atyp : byte) : M (option string) :=
  match atyp with
  | x01 =>
      let* (addr, err) := ReadFull 4 in
      match err with
      | Some _ => ret None
      | None => ret (Some (IP_String addr))
      end
  | x03 =>
      let* (len, err) := ReadFull 1 in
      match err with
      | Some _ => ret None
      | None =>
          let* (domain, err) := ReadFull (Byte.to_nat (nth 0 len x00)) in
          match err with
          | Some _ => ret None
          | None => ret (Some (string_of domain))
          end
      end
  | x04 => let* _ := socks5Reply x08 in ret None
  | _ => let* _ := socks5Reply x08 in ret None
  end.

Definition socks5Connect : M bool :=
  let* (buf, err) := ReadFull 4 in
  match err with
  | Some _ => ret false
  | None =>
      let version := nth 0 buf x00 in
      let cmd := nth 1 buf x00 in
      let atyp := nth 3 buf x00 in
      if negb (Byte.eqb version x05) then ret false
      else if negb (Byte.eqb cmd x01)
      then let* _ := socks5Reply x07 in ret false
      else
        let* a := read_targetAddr atyp in
        match a with
        | None => ret false
        | Some targetAddr =>
            let* (portBytes, err) := ReadFull 2 in
            match err with
            | Some _ => ret false
            | None =>
                let port :=
                  (Z.shiftl (byte_int (nth 0 portBytes x00)) 8
                   + byte_int (nth 1 portBytes x00))%Z in
                let target := targetAddr +:+ ":" +:+ itoa port in
                let* err := net_DialTimeout dial target in
                match err with
                | Some _ => let* _ := socks5Reply x05 in ret false
                | None =>
                    let* _ := socks5Reply x00 in
                    let* _ := relay target in
                    ret true
                end
            end
        end
  end.

Definition handleSOCKS5 : M unit :=
  let* ok := socks5Auth in
  if negb ok then ret tt
  else
    let* ok := socks5Connect in
    if negb ok then ret tt else ret tt.

(** The body and the response that handleHTTP formats. *)
Definition http_body (method url : string) : string :=
  "{" +:+ DQ +:+ "status" +:+ DQ +:+ ":" +:+ DQ +:+ "ok" +:+ DQ +:+ ","
  +:+ DQ +:+ "method" +:+ DQ +:+ ":" +:+ DQ +:+ method +:+ DQ +:+ ","
  +:+ DQ +:+ "url" +:+ DQ +:+ ":" +:+ DQ +:+ url +:+ DQ +:+ ","
  +:+ DQ +:+ "protocol" +:+ DQ +:+ ":" +:+ DQ +:+ "http" +:+ DQ +:+ "}".

Definition http_response (body : string) : string :=
  "HTTP/1.1 200 OK" +:+ CRLF +:+
  "Content-Type: application/json" +:+ CRLF +:+
  "Content-Length: " +:+ itoa (Z.of_nat (String.length body)) +:+ CRLF +:+
  CRLF +:+
  body.

Definition handleHTTP : M unit :=
  let* req := http_ReadRequest parse in
  match req with
  | None => ret tt
  | Some req =>
      let body := http_body (Method req) (URL req) in
      let response := http_response body in
      let* _ := conn_Write (bytes_of response) in
      ret tt
  end.

Definition handleHTTPConnect : M unit :=
  let* req := http_ReadRequest parse in
  match req with
  | None => ret tt
  | Some req =>
      let target := Host req in
      let* err := net_DialTimeout dial target in
      match err with
      | Some _ =>
          let* _ := conn_Write
            (bytes_of ("HTTP/1.1 502 Bad Gateway" +:+ CRLF +:+ CRLF)) in
          ret tt
      | None =>
          let* _ := conn_Write
            (bytes_of ("HTTP/1.1 200 Connection established" +:+ CRLF +:+ CRLF)) in
          relay target
      end
  end.

Definition handleConnection : M unit :=
  let* (protocol, err) := detectProtocol in
  match err with
  | Some _ => ret tt
  | None =>
      if String.eqb protocol "HTTP" then handleHTTP
      else if String.eqb protocol "CONNECT" then handleHTTPConnect
      else if String.eqb protocol "SOCKS5" then handleSOCKS5
      else handleSOCKS5
  end.

End Handlers.

End ProxyService.

(** ** The HTTP-only service (port 8939) *)

Module ProxyServiceHTTPOnly.
Import Net.

Section Handlers.

Variable parse : list byte -> error -> option Request * list byte.
Variable dial : string -> option error.

Definition httpMethods : list string :=
  ["GET"; "POS"; "PUT"; "DEL"; "HEA"; "OPT"; "CON"].

(** The loop [for _, m := range httpMethods] of detectProtocol, with
    s = string(first7[:3]). *)
Fixpoint range_httpMethods (first7 : list byte) (s : string)
    (methods : list string) : option string :=
  match methods with
  | [] => None
  | m :: rest =>
      if String.eqb s m
      then if String.eqb m "CON" && (7 <=? length first7)%nat
              && String.eqb (string_of (take 7 first7)) "CONNECT"
           then Some "CONNECT"
           else Some "HTTP"
      else range_httpMethods first7 s rest
  end.

Definition detectProtocol : M (string * option error) :=
  let* (first7, err) := Peek 7 in
  if match err with Some e => negb (is_EOF e) | None => false end
  then ret ("", err)
  else
    match (if (3 <=? length first7)%nat
           then range_httpMethods first7 (string_of (take 3 first7)) httpMethods
           else None) with
    | Some protocol => ret (protocol, None)
    | None => ret ("UNSUPPORTED", None)
    end.

Definition handleHTTP : M unit :=
  let* req := http_ReadRequest parse in
  match req with
  | None => ret tt
  | Some req =>
      let body := ProxyService.http_body (Method req) (URL req) in
      let response := ProxyService.http_response body in
      let* _ := conn_Write (bytes_of response) in
      ret tt
  end.

Definition handleHTTPConnect : M unit :=
  let* req := http_ReadRequest parse in
  match req with
  | None => ret tt
  | Some req =>
      let target := Host req in
      let* err := net_DialTimeout dial target in
      match err with
      | Some _ =>
          let* _ := conn_Write
            (bytes_of ("HTTP/1.1 502 Bad Gateway" +:+ CRLF +:+ CRLF)) in
          ret tt
      | None =>
          let* _ := conn_Write
            (bytes_of ("HTTP/1.1 200 Connection established" +:+ CRLF +:+ CRLF)) in
          relay target
      end
  end.

Definition bad_request : string :=
  "HTTP/1.1 400 Bad Request" +:+ CRLF +:+ "Content-Length: 0" +:+ CRLF +:+ CRLF.

Definition handleConnection : M unit :=
  let* (protocol, err) := detectProtocol in
  match err with
  | Some _ => ret tt
  | None =>
      if String.eqb protocol "HTTP" then handleHTTP
      else if String.eqb protocol "CONNECT" then handleHTTPConnect
      else let* _ := conn_Write (bytes_of bad_request) in ret tt
  end.

End Handlers.

End ProxyServiceHTTPOnly.

(** ** multitun.go: the device multiplexer *)

Module MultiTUN.

(** A Go error value of a device; nil is [None]. *)
Definition error := string.

Definition defaultMTU : Z := 1280.

(** A tun.Device as the multiplexer sees it.  MTU() and Name() are
    queries; what Read, Write and Close return is decided by the device
    when it is called and comes with the step that calls it. *)
Record Device := mkDevice {
  dev_id : nat;
  dev_MTU : Z * option error;
  dev_Name : string * option error
}.

(** tunDevice, on the heap.  The channel [close] is only ever closed, the
    channel readDone has capacity 1, and closeDone has none: a value is
    in it only while a runDevice goroutine is parked in the send.
    [dev_closed] records that dev.Close() has been called. *)
Record tunDevice := mkTunDevice {
  dev : Device;
  close : bool;
  readDone : bool;
  dev_closed : bool
}.

(** Where a readFrom goroutine is: in its select, or parked in the
    deferred send on readDone. *)
Inductive readFrom_pc := AtReads | SendReadDone.

(** Where a runDevice goroutine is: in its select, or parked in the
    deferred send of dev.Close()'s result on closeDone. *)
Inductive runDevice_pc := AtWrites | SendCloseDone (err : option error).

(** The three statements of the body of the shutdown loop. *)
Inductive shutdown_pc := DoClose | RecvCloseDone | RecvReadDone.

(** Where run is: in its select, inside the loop of the shutdown case
    or of the close case (with the devices still to visit), or returned. *)
Inductive run_pc :=
| Select
| InShutdown (rest : list nat) (pc : shutdown_pc)
| InClose (rest : list nat) (derr : option error)
| Returned.

(** The multiplexer: the heap of wrappers (a *tunDevice is its index),
    the locals of run, the goroutines, the channel d.close, and whether
    the process has died of a panic. *)
Record multiTUN := mkMultiTUN {
  heap : list tunDevice;
  devices : list nat;
  readDone_var : option nat;
  runDone_var : option nat;
  run : run_pc;
  readFroms : list (nat * readFrom_pc);
  runDevices : list (nat * runDevice_pc);
  closed : bool;
  panicked : bool
}.

(** newTUNDevices *)
Definition newTUNDevices : multiTUN :=
  mkMultiTUN [] [] None None Select [] [] false false.

Definition set_heap h (s : multiTUN) :=
  mkMultiTUN h (devices s) (readDone_var s) (runDone_var s) (run s)
             (readFroms s) (runDevices s) (closed s) (panicked s).
Definition set_devices ds (s : multiTUN) :=
  mkMultiTUN (heap s) ds (readDone_var s) (runDone_var s) (run s)
             (readFroms s) (runDevices s) (closed s) (panicked s).
Definition set_readDone_var v (s : multiTUN) :=
  mkMultiTUN (heap s) (devices s) v (runDone_var s) (run s)
             (readFroms s) (runDevices s) (closed s) (panicked s).
Definition set_runDone_var v (s : multiTUN) :=
  mkMultiTUN (heap s) (devices s) (readDone_var s) v (run s)
             (readFroms s) (runDevices s) (closed s) (panicked s).
Definition set_run pc (s : multiTUN) :=
  mkMultiTUN (heap s) (devices s) (readDone_var s) (runDone_var s) pc
             (readFroms s) (runDevices s) (closed s) (panicked s).
Definition set_readFroms gs (s : multiTUN) :=
  mkMultiTUN (heap s) (devices s) (readDone_var s) (runDone_var s) (run s)
             gs (runDevices s) (closed s) (panicked s).
Definition set_runDevices gs (s : multiTUN) :=
  mkMultiTUN (heap s) (devices s) (readDone_var s) (runDone_var s) (run s)
             (readFroms s) gs (closed s) (panicked s).
Definition set_closed (s : multiTUN) :=
  mkMultiTUN (heap s) (devices s) (readDone_var s) (runDone_var s) (run s)
             (readFroms s) (runDevices s) true (panicked s).
Definition panic (s : multiTUN) :=
  mkMultiTUN (heap s) (devices s) (readDone_var s) (runDone_var s) (run s)
             (readFroms s) (runDevices s) (closed s) true.

Definition set_close (td : tunDevice) :=
  mkTunDevice (dev td) true (readDone td) (dev_closed td).
Definition set_readDone (b : bool) (td : tunDevice) :=
  mkTunDevice (dev td) (close td) b (dev_closed td).
Definition set_dev_closed (td : tunDevice) :=
  mkTunDevice (dev td) (close td) (readDone td) true.

(** What a caller gets back. *)
Inductive reply :=
| ReadReply (by_dev : nat) (count : Z) (err : option error)
| WriteReply (by_dev : nat) (count : Z) (err : option error)
| MTUReply (mtu : Z) (err : option error)
| NameReply (name : string) (err : option error)
| ShutdownDone
| CloseReply (err : option error).

(** One step of one goroutine.  A caller's request is one step with the
    goroutine that receives it, all request channels being unbuffered;
    a select takes any case that is ready. *)
Inductive label :=
| Add (dv : Device)                  (* run: case dev := <-d.devices *)
| MTU                                (* run: case m := <-d.mtus *)
| Name                               (* run: case n := <-d.names *)
| Shutdown                           (* run: case <-d.shutdowns *)
| ShutdownStep                       (* run: next statement of that case *)
| Close                              (* caller: close(d.close) *)
| RunClose                           (* run: case <-d.close *)
| RunCloseStep                       (* run: next statement of that case *)
| RunReadDone                        (* run: case <-readDone *)
| RunRunDone                         (* run: case <-runDone *)
| Read (w : nat) (count : Z) (err : option error)
                                     (* readFrom(w): case r := <-d.reads,
                                        dev.Read returning (count, err) *)
| ReadFromClose (w : nat)            (* readFrom(w): case <-d.close *)
| ReadFromSend (w : nat)             (* readFrom(w): deferred send done *)
| Write (w : nat) (count : Z) (err : option error)
                                     (* runDevice(w): case w := <-d.writes,
                                        dev.Write returning (count, err) *)
| RunDeviceReturn (w : nat) (cerr : option error).
                                     (* runDevice(w): case <-dev.close or
                                        <-d.close, dev.Close() returning cerr *)

#[global] Instance readFrom_pc_eq_dec : EqDecision readFrom_pc.
Proof. solve_decision. Defined.
#[global] Instance runDevice_pc_eq_dec : EqDecision runDevice_pc.
Proof. solve_decision. Defined.

(** Take the first goroutine equal to g out of a pool. *)
Fixpoint take_out {A} `{EqDecision A} (g : A) (gs : list A) : option (list A) :=
  match gs with
  | [] => None
  | g' :: gs' =>
      if decide (g' = g) then Some gs'
      else match take_out g gs' with
           | Some r => Some (g' :: r)
           | None => None
           end
  end.

(** <-w.closeDone: the first runDevice goroutine parked in the send on
    the closeDone channel of w hands over its value and ends. *)
Fixpoint recv_closeDone (w : nat) (gs : list (nat * runDevice_pc))
    : option (option error * list (nat * runDevice_pc)) :=
  match gs with
  | [] => None
  | (w', SendCloseDone e) :: gs' =>
      if decide (w' = w) then Some (e, gs')
      else match recv_closeDone w gs' with
           | Some (e', r) => Some (e', (w', SendCloseDone e) :: r)
           | None => None
           end
  | g :: gs' =>
      match recv_closeDone w gs' with
      | Some (e', r) => Some (e', g :: r)
      | None => None
      end
  end.

(** close(w.close); closing a closed channel panics. *)
Definition chan_close (w : nat) (s : multiTUN) : option multiTUN :=
  td ← heap s !! w;
  Some (if close td then panic s
        else set_heap (<[w := set_close td]> (heap s)) s).

(** go d.readFrom(w) and go d.runDevice(w) *)
Definition go_readFrom (w : nat) (s : multiTUN) : multiTUN :=
  set_readFroms (readFroms s ++ [(w, AtReads)]) s.
Definition go_runDevice (w : nat) (s : multiTUN) : multiTUN :=
  set_runDevices (runDevices s ++ [(w, AtWrites)]) s.

(** *** The cases of run's select *)

(** case <-readDone *)
Definition run_readDone (s : multiTUN) : option multiTUN :=
  w ← readDone_var s;
  td ← heap s !! w;
  if negb (readDone td) then None
  else
    let s := set_heap (<[w := set_readDone false td]> (heap s)) s in
    match devices s with
    | [] => Some (panic s) (* devices[1:] on an empty slice *)
    | _ :: ds =>
        let s := set_devices ds s in
        match ds with
        | [] => Some s
        | dev :: _ => Some (go_readFrom dev (set_readDone_var (Some dev) s))
        end
    end.

(** case <-runDone *)
Definition run_runDone (s : multiTUN) : option multiTUN :=
  w ← runDone_var s;
  '(_, gs) ← recv_closeDone w (runDevices s);
  let s := set_runDevices gs s in
  match last (devices s) with
  | None => Some s
  | Some dev => Some (go_runDevice dev (set_runDone_var (Some dev) s))
  end.

(** case <-d.shutdowns, one statement at a time: the loop body for the
    next device, or, after the loop, devices = nil and the send on
    shutdownDone. *)
Definition run_shutdowns (rest : list nat) (pc : shutdown_pc) (s : multiTUN)
    : option (multiTUN * list reply) :=
  match rest with
  | [] => Some (set_run Select (set_devices [] s), [ShutdownDone])
  | w :: rest' =>
      match pc with
      | DoClose =>
          s' ← chan_close w s;
          Some (set_run (InShutdown rest RecvCloseDone) s', [])
      | RecvCloseDone =>
          '(_, gs) ← recv_closeDone w (runDevices s);
          Some (set_run (InShutdown rest RecvReadDone) (set_runDevices gs s), [])
      | RecvReadDone =>
          td ← heap s !! w;
          if readDone td
          then Some (set_run (InShutdown rest' DoClose)
                       (set_heap (<[w := set_readDone false td]> (heap s)) s), [])
          else None
      end
  end.

(** case <-d.close, one receive at a time, then the send on closeErr and
    the return. *)
Definition run_close (rest : list nat) (derr : option error) (s : multiTUN)
    : option (multiTUN * list reply) :=
  match rest with
  | [] => Some (set_run Returned s, [CloseReply derr])
  | w :: rest' =>
      '(err, gs) ← recv_closeDone w (runDevices s);
      let derr' := match err with Some e => Some e | None => derr end in
      Some (set_run (InClose rest' derr') (set_runDevices gs s), [])
  end.

(** case dev := <-d.devices *)
Definition run_devices (dv : Device) (s : multiTUN) : option multiTUN :=
  s1 ← match last (devices s) with
       | Some prev => chan_close prev s
       | None => Some s
       end;
  if panicked s1 then Some s1
  else
    let wrap := length (heap s1) in
    let s2 := set_heap (heap s1 ++ [mkTunDevice dv false false false]) s1 in
    let s3 :=
      match devices s2 with
      | [] => go_runDevice wrap (set_runDone_var (Some wrap)
                (go_readFrom wrap (set_readDone_var (Some wrap) s2)))
      | _ :: _ => s2
      end in
    Some (set_devices (devices s3 ++ [wrap]) s3).

(** case m := <-d.mtus *)
Definition run_mtus (s : multiTUN) : option reply :=
  match last (devices s) with
  | None => Some (MTUReply defaultMTU None)
  | Some w =>
      td ← heap s !! w;
      Some (MTUReply (fst (dev_MTU (dev td))) (snd (dev_MTU (dev td))))
  end.

(** case n := <-d.names *)
Definition run_names (s : multiTUN) : option reply :=
  match last (devices s) with
  | None => Some (NameReply "" None)
  | Some w =>
      td ← heap s !! w;
      Some (NameReply (fst (dev_Name (dev td))) (snd (dev_Name (dev td))))
  end.

(** *** readFrom *)

(** readFrom(w) returns: its deferred send on readDone goes through when
    the buffer is free and parks the goroutine otherwise. *)
Definition readFrom_return (w : nat) (s : multiTUN) : option multiTUN :=
  gs ← take_out (w, AtReads) (readFroms s);
  td ← heap s !! w;
  if readDone td
  then Some (set_readFroms (gs ++ [(w, SendReadDone)]) s)
  else Some (set_readFroms gs
               (set_heap (<[w := set_readDone true td]> (heap s)) s)).

(** case r := <-d.reads *)
Definition readFrom_reads (w : nat) (count : Z) (err : option error)
    (s : multiTUN) : option (multiTUN * list reply) :=
  if decide ((w, AtReads) ∈ readFroms s) then
    td ← heap s !! w;
    let stop := match err with Some _ => close td | None => false end in
    if stop
    then s' ← readFrom_return w s;
         Some (s', [ReadReply (dev_id (dev td)) count None])
    else Some (s, [ReadReply (dev_id (dev td)) count err])
  else None.

(** case <-d.close *)
Definition readFrom_close (w : nat) (s : multiTUN) : option multiTUN :=
  if closed s then readFrom_return w s else None.

(** the parked send on readDone completes *)
Definition readFrom_send (w : nat) (s : multiTUN) : option multiTUN :=
  gs ← take_out (w, SendReadDone) (readFroms s);
  td ← heap s !! w;
  if readDone td then None
  else Some (set_readFroms gs
               (set_heap (<[w := set_readDone true td]> (heap s)) s)).

(** *** runDevice.  Its goroutine forwarding dev.Events() touches neither
    the device list nor any of the channels above and is left out. *)

(** case w := <-d.writes *)
Definition runDevice_writes (w : nat) (count : Z) (err : option error)
    (s : multiTUN) : option (multiTUN * list reply) :=
  if decide ((w, AtWrites) ∈ runDevices s) then
    td ← heap s !! w;
    Some (s, [WriteReply (dev_id (dev td)) count err])
  else None.

(** case <-dev.close and case <-d.close: return, and in the deferred
    function call dev.Close() and park in the send of its result. *)
Definition runDevice_return (w : nat) (cerr : option error) (s : multiTUN)
    : option multiTUN :=
  gs ← take_out (w, AtWrites) (runDevices s);
  td ← heap s !! w;
  if close td || closed s
  then Some (set_runDevices (gs ++ [(w, SendCloseDone cerr)])
               (set_heap (<[w := set_dev_closed td]> (heap s)) s))
  else None.

(** multiTUN.Close: close(d.close), before the caller waits on closeErr. *)
Definition Close_call (s : multiTUN) : multiTUN :=
  if closed s then panic s else set_closed s.

(** *** The transition function: None when the step cannot be taken *)
Definition step (l : label) (s : multiTUN) : option (multiTUN * list reply) :=
  if panicked s then None
  else
    match l, run s with
    | Add dv, Select => s' ← run_devices dv s; Some (s', [])
    | MTU, Select => r ← run_mtus s; Some (s, [r])
    | Name, Select => r ← run_names s; Some (s, [r])
    | Shutdown, Select => Some (set_run (InShutdown (devices s) DoClose) s, [])
    | ShutdownStep, InShutdown rest pc => run_shutdowns rest pc s
    | Close, _ => Some (Close_call s, [])
    | RunClose, Select =>
        if closed s then Some (set_run (InClose (devices s) None) s, [])
        else None
    | RunCloseStep, InClose rest derr => run_close rest derr s
    | RunReadDone, Select => s' ← run_readDone s; Some (s', [])
    | RunRunDone, Select => s' ← run_runDone s; Some (s', [])
    | Read w count err, _ => readFrom_reads w count err s
    | ReadFromClose w, _ => s' ← readFrom_close w s; Some (s', [])
    | ReadFromSend w, _ => s' ← readFrom_send w s; Some (s', [])
    | Write w count err, _ => runDevice_writes w count err s
    | RunDeviceReturn w cerr, _ => s' ← runDevice_return w cerr s; Some (s', [])
    | _, _ => None
    end.

(** A run of the multiplexer, with the replies it produces in order. *)
Fixpoint exec (ls : list label) (s : multiTUN)
    : option (multiTUN * list reply) :=
  match ls with
  | [] => Some (s, [])
  | l :: ls' =>
      '(s1, o1) ← step l s;
      '(s2, o2) ← exec ls' s1;
      Some (s2, o1 ++ o2)
  end.

Inductive reachable : multiTUN -> Prop :=
| reachable_new : reachable newTUNDevices
| reachable_step s l s' o :
    reachable s -> step l s = Some (s', o) -> reachable s'.

End MultiTUN.

(** ** encoding/base64 as store.go uses it *)

Module Base64.
Local Open Scope Z_scope.

(** The alphabet of base64.StdEncoding. *)
Definition encodeStd : string :=
  "ABCDEFGHIJKLMNOPQRSTUVWXYZabcdefghijklmnopqrstuvwxyz0123456789+/".

(** uint(b) and byte(z), the latter keeping the low 8 bits. *)
Definition uint (b : byte) : Z := Z.of_N (Byte.to_N b).

Definition byte_of (z : Z) : byte :=
  match Byte.of_N (Z.to_N (Z.land z 255)) with
  | Some b => b
  | None => x00
  end.

(** enc.encode[i] *)
Definition encode_at (i : Z) : byte :=
  nth (Z.to_nat i) (bytes_of encodeStd) x00.

Fixpoint index_from (c : byte) (l : list byte) (i : Z) : option Z :=
  match l with
  | [] => None
  | c' :: l' => if Byte.eqb c' c then Some i else index_from c l' (i + 1)
  end.

(** enc.decodeMap[c]; None stands for 0xff, a byte outside the alphabet. *)
Definition decodeMap (c : byte) : option Z :=
  index_from c (bytes_of encodeStd) 0.

(** base64.CorruptInputError, the offset of the offending input byte. *)
Inductive error := CorruptInputError (offset : Z).

(** RawStdEncoding.Encode: three bytes give four characters, a rest of
    two bytes three, a rest of one byte two; no padding. *)
Fixpoint Encode (src : list byte) : list byte :=
  match src with
  | a :: b :: c :: rest =>
      let val := Z.lor (Z.lor (Z.shiftl (uint a) 16) (Z.shiftl (uint b) 8))
                       (uint c) in
      [encode_at (Z.land (Z.shiftr val 18) 63);
       encode_at (Z.land (Z.shiftr val 12) 63);
       encode_at (Z.land (Z.shiftr val 6) 63);
       encode_at (Z.land val 63)] ++ Encode rest
  | [a; b] =>
      let val := Z.lor (Z.shiftl (uint a) 16) (Z.shiftl (uint b) 8) in
      [encode_at (Z.land (Z.shiftr val 18) 63);
       encode_at (Z.land (Z.shiftr val 12) 63);
       encode_at (Z.land (Z.shiftr val 6) 63)]
  | [a] =>
      let val := Z.shiftl (uint a) 16 in
      [encode_at (Z.land (Z.shiftr val 18) 63);
       encode_at (Z.land (Z.shiftr val 12) 63)]
  | [] => []
  end.

Definition EncodeToString (src : list byte) : string := string_of (Encode src).

(** The end of decodeQuantum: the dlen sextets of dbuf give dlen - 1
    bytes (the encoding is not strict, trailing bits are not checked). *)
Definition quantum (dbuf : list Z) : list byte :=
  let val := Z.lor (Z.lor (Z.lor (Z.shiftl (nth 0 dbuf 0) 18)
                                 (Z.shiftl (nth 1 dbuf 0) 12))
                          (Z.shiftl (nth 2 dbuf 0) 6))
                   (nth 3 dbuf 0) in
  take (length dbuf - 1)%nat
    [byte_of (Z.shiftr val 16); byte_of (Z.shiftr val 8);
     byte_of (Z.shiftr val 0)].

(** RawStdEncoding.Decode, one input byte at a time: si is the offset of
    the next byte and dbuf the sextets of the quantum being read.  CR and
    LF are skipped; any other byte outside the alphabet, the padding
    character included, and a quantum of a single character are corrupt
    input.  The bytes of the quanta decoded before an error are
    returned with it. *)
Fixpoint Decode (src : list byte) (si : Z) (dbuf : list Z)
    : list byte * option error :=
  match src with
  | [] =>
      match dbuf with
      | [] => ([], None)
      | [_] => ([], Some (CorruptInputError (si - 1)))
      | _ => (quantum dbuf, None)
      end
  | c :: rest =>
      match decodeMap c with
      | Some out =>
          if (length dbuf =? 3)%nat
          then let (dst, err) := Decode rest (si + 1) [] in
               (quantum (dbuf ++ [out]) ++ dst, err)
          else Decode rest (si + 1) (dbuf ++ [out])
      | None =>
          if Byte.eqb c x0a || Byte.eqb c x0d
          then Decode rest (si + 1) dbuf
          else ([], Some (CorruptInputError si))
      end
  end.

Definition DecodeString (s : string) : list byte * option error :=
  Decode (bytes_of s) 0 [].

End Base64.

(** ** store.go: the state store over the Android preferences *)

Module StateStore.

(** The Go error values that reach the store's callers. *)
Inductive error :=
| PlatformError (msg : string)    (* returned by the Android side *)
| Base64Error (e : Base64.error)  (* base64.CorruptInputError *)
| ErrStateNotExist.               (* ipn.ErrStateNotExist *)

(** The two methods of AppContext the store calls.  They are implemented
    on the Android side; P is the state of the encrypted preferences.
    Reading does not change it. *)
Class AppContext (P : Type) := {
  EncryptToPref : string -> string -> P -> option error * P;
  DecryptFromPref : string -> P -> string * option error
}.

(** What the store needs of the preferences for a value to be read
    back: a successful EncryptToPref is seen by DecryptFromPref under
    the same key, and under no other key. *)
Class LawfulPrefs (P : Type) `{AppContext P} := {
  decrypt_encrypt : forall key value (p p' : P),
    EncryptToPref key value p = (None, p') ->
    DecryptFromPref key p' = (value, None);
  decrypt_encrypt_other : forall key key' value (p p' : P),
    key <> key' ->
    EncryptToPref key value p = (None, p') ->
    DecryptFromPref key' p' = DecryptFromPref key' p
}.

(** Preferences as a finite map; a missing key reads as the empty
    string. *)
#[global] Instance map_prefs : AppContext (gmap string string) := {
  EncryptToPref key value p := (None, <[key := value]> p);
  DecryptFromPref key p := (default "" (p !! key), None)
}.

Section Store.
Context {P : Type} `{AppContext P}.

Definition prefKeyFor (id : string) : string := "statestore-" +:+ id.

(** stateStore.read; a nil slice is None. *)
Definition read (key : string) (p : P) : option (list byte) * option error :=
  let (b64, err) := DecryptFromPref key p in
  match err with
  | Some e => (None, Some e)
  | None =>
      if String.eqb b64 "" then (None, None)
      else let (data, err) := Base64.DecodeString b64 in
           (Some data, Base64Error <$> err)
  end.

Definition write (key : string) (value : list byte) (p : P)
    : option error * P :=
  let bs64 := Base64.EncodeToString value in
  EncryptToPref key bs64 p.

Definition ReadString (key def : string) (p : P) : string * option error :=
  let (data, err) := read key p in
  match err with
  | Some e => (def, Some e)
  | None =>
      match data with
      | None => (def, None)
      | Some data => (string_of data, None)
      end
  end.

Definition WriteString (key val : string) (p : P) : option error * P :=
  write key (bytes_of val) p.

Definition ReadBool (key : string) (def : bool) (p : P)
    : bool * option error :=
  let (data, err) := read key p in
  match err with
  | Some e => (def, Some e)
  | None =>
      match data with
      | None => (def, None)
      | Some data => (String.eqb (string_of data) "true", None)
      end
  end.

Definition WriteBool (key : string) (val : bool) (p : P) : option error * P :=
  let data := bytes_of "false" in
  let data := if val then bytes_of "true" else data in
  write key data p.

Definition ReadState (id : string) (p : P)
    : option (list byte) * option error :=
  let (state, err) := read (prefKeyFor id) p in
  match err with
  | Some e => (None, Some e)
  | None =>
      match state with
      | None => (None, Some ErrStateNotExist)
      | Some state => (Some state, None)
      end
  end.

Definition WriteState (id : string) (bs : list byte) (p : P)
    : option error * P :=
  let prefKey := prefKeyFor id in
  write prefKey bs p.

End Store.

End StateStore.

(** ** proxy.go: starting and stopping the service *)

Module ProxyControl.

(** A ProxyService on the heap, as startProxyService, stopProxyService
    and serve use it: whether its listener is still open, whether its
    context has been cancelled, and the fields running and addr. *)
Record ProxyService := mkProxyService {
  listener_open : bool;
  ctx_done : bool;
  running : bool;
  addr : string
}.

(** The process: the services allocated so far (a *ProxyService is its
    index), the variable globalProxyService, the goroutines in serve and
    those in handleConnection (service and connection).  proxyMu makes
    startProxyService and stopProxyService atomic. *)
Record process := mkProcess {
  services : list ProxyService;
  globalProxyService : option nat;
  serving : list nat;
  handling : list (nat * nat)
}.

Definition init : process := mkProcess [] None [] [].

(** fmt.Errorf("failed to listen on %s: %w", addr, err) *)
Inductive error := ListenError (addr : string).

(** net.Listen("tcp4", addr) succeeds unless the port is in use: by
    another process ([taken], decided by the system) or by a listener of
    this process that is still open. *)
Definition net_Listen (addr0 : string) (taken : bool) (s : process) : bool :=
  negb taken
  && negb (existsb (fun ps => listener_open ps && String.eqb (addr ps) addr0)
             (services s)).

(** globalProxyService != nil && globalProxyService.running *)
Definition global_running (s : process) : bool :=
  match globalProxyService s with
  | Some g =>
      match services s !! g with
      | Some ps => running ps
      | None => false
      end
  | None => false
  end.

(** startProxyService; addr0 is "0.0.0.0:8339", or "0.0.0.0:8939" in the
    HTTP-only service. *)
Definition startProxyService (addr0 : string) (taken : bool) (s : process)
    : option error * process :=
  if global_running s then (None, s)
  else if negb (net_Listen addr0 taken s) then (Some (ListenError addr0), s)
  else
    let ps := mkProxyService true false true addr0 in
    let g := length (services s) in
    (None, mkProcess (services s ++ [ps]) (Some g) (serving s ++ [g])
             (handling s)).

(** stopProxyService *)
Definition stopProxyService (s : process) : process :=
  match globalProxyService s with
  | None => s
  | Some g =>
      match services s !! g with
      | None => s
      | Some ps =>
          let ps := mkProxyService (listener_open ps) (ctx_done ps) false (addr ps) in
          let ps := mkProxyService (listener_open ps) true (running ps) (addr ps) in
          let ps := mkProxyService false (ctx_done ps) (running ps) (addr ps) in
          mkProcess (<[g := ps]> (services s)) None (serving s) (handling s)
      end
  end.

(** What the loop of serve meets in one iteration: the context is done
    at the select; or Accept returns a connection, or an error. *)
Inductive serve_event := Accepted (conn : nat) | AcceptFailed.

(** One iteration of ps.serve() for service i; None when the event
    cannot happen or no such goroutine runs.  Some (s, true) when serve
    returns. *)
Definition serve (i : nat) (ev : serve_event) (s : process)
    : option (process * bool) :=
  if negb (bool_decide (i ∈ serving s)) then None
  else
    ps ← services s !! i;
    let exit := mkProcess (services s) (globalProxyService s)
                  (filter (fun j => j <> i) (serving s)) (handling s) in
    if ctx_done ps then Some (exit, true)
    else
      match ev with
      | Accepted conn =>
          if listener_open ps
          then Some (mkProcess (services s) (globalProxyService s) (serving s)
                       (handling s ++ [(i, conn)]), false)
          else None
      | AcceptFailed => Some (s, false)
      end.

(** What can happen to the process. *)
Inductive action :=
| Start (addr0 : string) (taken : bool)
| Stop
| Serve (i : nat) (ev : serve_event).

Definition act (a : action) (s : process) : option process :=
  match a with
  | Start addr0 taken => Some (snd (startProxyService addr0 taken s))
  | Stop => Some (stopProxyService s)
  | Serve i ev => fst <$> serve i ev s
  end.

Inductive reachable : process -> Prop :=
| reachable_init : reachable init
| reachable_act s a s' : reachable s -> act a s = Some s' -> reachable s'.

(** The service globalProxyService points to is listening, running and
    not cancelled; every other service is closed, stopped and
    cancelled. *)
Definition stopped (ps : ProxyService) : Prop :=
  listener_open ps = false /\ running ps = false /\ ctx_done ps = true.

Definition live (ps : ProxyService) : Prop :=
  listener_open ps = true /\ running ps = true /\ ctx_done ps = false.

Definition control_inv (s : process) : Prop :=
  (forall g, globalProxyService s = Some g ->
             exists ps, services s !! g = Some ps /\ live ps)
  /\ (forall i ps, services s !! i = Some ps ->
                   globalProxyService s <> Some i -> stopped ps).

End ProxyControl.

(** ** proxy.go: relay *)

Module Relay.

(** One of the two goroutines of relay: in io.Copy; past it, its
    destination closed, at the deferred send on done; or finished. *)
Inductive copier := Copying | Sending | Finished.

(** relay(client, target): the goroutine copying client to target and
    the one copying target to client, the number of values in the
    channel done (of capacity 2), whether relay has received from done
    and returned, and which connections have been closed. *)
Record state := mkState {
  to_target : copier;
  to_client : copier;
  done : nat;
  returned : bool;
  client_closed : bool;
  target_closed : bool
}.

Definition start : state := mkState Copying Copying 0 false false false.

Inductive direction := ToTarget | ToClient.

Definition goroutine (d : direction) (s : state) : copier :=
  match d with ToTarget => to_target s | ToClient => to_client s end.

Definition set_goroutine (d : direction) (g : copier) (s : state) : state :=
  match d with
  | ToTarget => mkState g (to_client s) (done s) (returned s)
                  (client_closed s) (target_closed s)
  | ToClient => mkState (to_target s) g (done s) (returned s)
                  (client_closed s) (target_closed s)
  end.

(** target.Close() after io.Copy(target, client), client.Close() after
    io.Copy(client, target). *)
Definition close_destination (d : direction) (s : state) : state :=
  match d with
  | ToTarget => mkState (to_target s) (to_client s) (done s) (returned s)
                  (client_closed s) true
  | ToClient => mkState (to_target s) (to_client s) (done s) (returned s)
                  true (target_closed s)
  end.

Inductive event :=
| CopyEnds (d : direction)   (* io.Copy returns, the destination is closed *)
| Send (d : direction)       (* the deferred done <- struct{}{} *)
| Receive.                   (* <-done in relay *)

(** One step; None when it cannot be taken: a send blocks while the
    channel is full, the receive while it is empty. *)
Definition step (ev : event) (s : state) : option state :=
  match ev with
  | CopyEnds d =>
      match goroutine d s with
      | Copying => Some (close_destination d (set_goroutine d Sending s))
      | _ => None
      end
  | Send d =>
      match goroutine d s with
      | Sending =>
          if (done s <? 2)%nat
          then let s := set_goroutine d Finished s in
               Some (mkState (to_target s) (to_client s) (S (done s))
                       (returned s) (client_closed s) (target_closed s))
          else None
      | _ => None
      end
  | Receive =>
      if returned s then None
      else match done s with
           | O => None
           | S n => Some (mkState (to_target s) (to_client s) n true
                            (client_closed s) (target_closed s))
           end
  end.

Inductive reachable : state -> Prop :=
| reachable_start : reachable start
| reachable_step s ev s' : reachable s -> step ev s = Some s' -> reachable s'.

(** The values sent and not yet received. *)
Definition sent (g : copier) : nat :=
  match g with Finished => 1 | _ => 0 end.

Definition past_copy (g : copier) : bool :=
  match g with Copying => false | _ => true end.

Definition relay_inv (s : state) : Prop :=
  done s + (if returned s then 1 else 0) = sent (to_target s) + sent (to_client s)
  /\ (past_copy (to_target s) = true -> target_closed s = true)
  /\ (past_copy (to_client s) = true -> client_closed s = true).

End Relay.

(** ** net.go: how the backend drives the multiplexer *)

Module Backend.
Import MultiTUN.

Definition is_Add (l : label) : bool :=
  match l with Add _ => true | _ => false end.

Definition is_ShutdownDone (r : reply) : bool :=
  match r with ShutdownDone => true | _ => false end.

(** The runs of the multiplexer under backend.updateTUN and
    backend.CloseTUNs, its only callers of add and Shutdown, both on the
    goroutine of runBackendOnce: updateTUN calls b.CloseTUNs(), that is
    b.devices.Shutdown(), and only after it has returned
    b.devices.add(tunDev).  [idle] holds when a Shutdown has returned and
    no device has been added since; the steps of the other goroutines
    are free. *)
Inductive backend_run : bool -> multiTUN -> Prop :=
| backend_new : backend_run false newTUNDevices
| backend_step idle s l s' o :
    backend_run idle s ->
    step l s = Some (s', o) ->
    (is_Add l = true -> idle = true) ->
    backend_run (if existsb is_ShutdownDone o then true
                 else if is_Add l then false else idle) s'.

End Backend.

(** * The specification's wording, to compare the code with *)

Module Spec.
Import Net.

#[global] Instance byte_eq_dec : EqDecision byte := Byte.byte_eq_dec.

(** The byte sequence p begins with the token. *)
Definition starts_with (tok : string) (p : list byte) : bool :=
  bool_decide (take (String.length tok) p = bytes_of tok).

(** The unknown-protocol policy. *)
Inductive policy := Socks5Default | Reject400.

(** The detector as the specification words it. *)
Definition detect (pol : policy) (p : list byte) : string :=
  if starts_with "CONNECT " p then "CONNECT"
  else if existsb (fun m => starts_with (m +:+ " ") p)
            ["GET"; "POST"; "PUT"; "DELETE"; "HEAD"; "OPTIONS"]
  then "HTTP"
  else if bool_decide (head p = Some x05) then "SOCKS5"
  else match pol with
       | Socks5Default => "SOCKS5"
       | Reject400 => "UNSUPPORTED"
       end.

(** What the HTTP-only detector decides on: the first seven bytes
    spelling CONNECT, else the first three bytes. *)
Definition detect_by_stem (p : list byte) : string :=
  if starts_with "CONNECT" p then "CONNECT"
  else if existsb (fun m => starts_with m p)
            ["GET"; "POS"; "PUT"; "DEL"; "HEA"; "OPT"; "CON"]
  then "HTTP"
  else "UNSUPPORTED".

(** The reply frame VER, REP, RSV, ATYP, BND.ADDR, BND.PORT. *)
Definition reply_frame (rep : byte) : list byte :=
  [x05; rep; x00; x01] ++ replicate 4 x00 ++ replicate 2 x00.

Definition is_reply_frame (e : event) : Prop :=
  match e with
  | Write b => exists rep, b = reply_frame rep
  | _ => True
  end.

(** A SOCKS5 connect request after RFC 1928: VER CMD RSV ATYP DST.ADDR
    DST.PORT. *)
Inductive address :=
| IPv4 (a b c d : byte)
| Domain (len : byte) (name : list byte)
| OtherType (atyp : byte) (raw : list byte).

Record connect_request := mkConnectRequest {
  req_cmd : byte;
  req_rsv : byte;
  req_addr : address;
  req_port : byte * byte
}.

Definition well_formed (r : connect_request) : Prop :=
  match req_addr r with
  | IPv4 _ _ _ _ => True
  | Domain len name => length name = Byte.to_nat len
  | OtherType atyp _ => atyp <> x01 /\ atyp <> x03
  end.

Definition supported (r : connect_request) : bool :=
  match req_addr r with
  | OtherType _ _ => false
  | _ => true
  end.

Definition encode (r : connect_request) : list byte :=
  [x05; req_cmd r; req_rsv r]
  ++ match req_addr r with
     | IPv4 a b c d => [x01; a; b; c; d]
     | Domain len name => [x03; len] ++ name
     | OtherType atyp raw => atyp :: raw
     end
  ++ [fst (req_port r); snd (req_port r)].

(** host:port of the request. *)
Definition target (r : connect_request) : string :=
  match req_addr r with
  | IPv4 a b c d =>
      itoa (byte_int a) +:+ "." +:+ itoa (byte_int b) +:+ "." +:+
      itoa (byte_int c) +:+ "." +:+ itoa (byte_int d)
  | Domain _ name => string_of name
  | OtherType _ _ => ""
  end
  +:+ ":" +:+ itoa (256 * byte_int (fst (req_port r)) + byte_int (snd (req_port r))).

(** A JSON object whose values are strings, written without spaces. *)
Definition json_string (s : string) : string := DQ +:+ s +:+ DQ.

Definition json_field (kv : string * string) : string :=
  json_string (fst kv) +:+ ":" +:+ json_string (snd kv).

Definition json_object (fields : list (string * string)) : string :=
  "{" +:+ String.concat "," (map json_field fields) +:+ "}".

Definition acknowledgment (method url : string) : string :=
  json_object [("status", "ok"); ("method", method); ("url", url);
               ("protocol", "http")].

(** The value of the header [name] in the head of an HTTP response: the
    text between "name: " and the end of that line. *)
Fixpoint until_CR (s : string) : string :=
  match s with
  | EmptyString => EmptyString
  | String a s' => if Ascii.eqb a CR then EmptyString else String a (until_CR s')
  end.

Fixpoint skip (n : nat) (s : string) : string :=
  match n, s with
  | S n', String _ s' => skip n' s'
  | _, _ => s
  end.

Fixpoint header_value (name : string) (s : string) : option string :=
  match s with
  | EmptyString => None
  | String a s' =>
      if String.prefix (name +:+ ": ") s
      then Some (until_CR (skip (String.length name + 2) s))
      else header_value name s'
  end.

(** The body of an HTTP response: what follows the first empty line. *)
Fixpoint response_body (s : string) : option string :=
  match s with
  | EmptyString => None
  | String a s' =>
      if String.prefix (CRLF +:+ CRLF) s then Some (skip 4 s)
      else response_body s'
  end.

(** Strings without a carriage return. *)
Fixpoint no_CR (s : string) : Prop :=
  match s with
  | EmptyString => True
  | String a s' => Ascii.eqb a CR = false /\ no_CR s'
  end.

(** A handler that, on every connection, only adds to the trace, and
    whose writes are all reply frames. *)
Definition frames_only {A} (m : M A) : Prop :=
  forall c, exists evs,
    snd (m c) = mkConn (pending (snd (m c))) (ending c) (wfail c) (trace c ++ evs)
    /\ Forall is_reply_frame evs.

(** What socks5Connect does once it has a target: the dial, then the
    failure reply, or the success reply and the relay. *)
Definition connect_outcome (dial : string -> option error)
    (tg : string) (rest : list byte) e w t0 : bool * Conn :=
  match dial tg with
  | Some _ =>
      (false, mkConn rest e w
                (t0 ++ [Dial tg; Write (ProxyService.socks5_response x05)]))
  | None =>
      (true, mkConn rest e w
               (t0 ++ [Dial tg; Write (ProxyService.socks5_response x00);
                       Relay tg]))
  end.

(** What the handler has done on the connection since c. *)
Definition since (c c' : Conn) : list event :=
  drop (length (trace c)) (trace c').

End Spec.

(** * Invariants of the multiplexer *)

Module Invariant.
Import MultiTUN.

(** The channel [close] of wrapper w is closed, or still open. *)
Definition chan_closed (s : multiTUN) (w : nat) : Prop :=
  close <$> heap s !! w = Some true.
Definition chan_open (s : multiTUN) (w : nat) : Prop :=
  close <$> heap s !! w = Some false.
(** dev.Close() has been called on the device of w. *)
Definition device_closed (s : multiTUN) (w : nat) : Prop :=
  dev_closed <$> heap s !! w = Some true.
(** A value waits in the readDone channel of w. *)
Definition signalled (s : multiTUN) (w : nat) : Prop :=
  readDone <$> heap s !! w = Some true.

(** add closes every device it puts another one behind. *)
Definition older_closed (s : multiTUN) : Prop :=
  forall i w, devices s !! i = Some w -> S i < length (devices s) ->
              chan_closed s w.

Definition newest_open (s : multiTUN) : Prop :=
  forall w, last (devices s) = Some w -> chan_open s w.

(** At most one readFrom goroutine runs, for the oldest device, and run
    holds the readDone channel of that device. *)
Definition reader_at_head (s : multiTUN) : Prop :=
  readFroms s = []
  \/ exists w, readFroms s = [(w, AtReads)]
               /\ head (devices s) = Some w /\ readDone_var s = Some w.

(** A value waits in a readDone channel only for the oldest device, once
    its readFrom has returned. *)
Definition signal_at_head (s : multiTUN) : Prop :=
  forall w, signalled s w ->
            head (devices s) = Some w /\ readFroms s = []
            /\ readDone_var s = Some w.

Definition no_signal (s : multiTUN) : Prop :=
  forall w, ~ signalled s w.

(** A runDevice goroutine parked on closeDone has closed its device. *)
Definition parked_closed (s : multiTUN) : Prop :=
  forall w e, (w, SendCloseDone e) ∈ runDevices s -> device_closed s w.

(** Where run can be inside the shutdown case: before the first
    statement; at the only device, after close(dev.close); or past it. *)
Definition shutdown_shape (s : multiTUN) : Prop :=
  match run s with
  | InShutdown rest pc =>
      (rest = devices s /\ pc = DoClose /\ newest_open s)
      \/ (exists w, devices s = [w] /\ rest = [w] /\ chan_closed s w
                    /\ (pc = RecvCloseDone
                        \/ (pc = RecvReadDone /\ device_closed s w)))
      \/ (exists w, devices s = [w] /\ rest = []
                    /\ readFroms s = [] /\ no_signal s /\ device_closed s w)
  | _ => newest_open s
  end.

Record inv (s : multiTUN) : Prop := mkInv {
  inv_ptr : forall w, w ∈ devices s -> w < length (heap s);
  inv_older : older_closed s;
  inv_reader : reader_at_head s;
  inv_signal : signal_at_head s;
  inv_parked : parked_closed s;
  inv_shape : shutdown_shape s
}.

(** While Close has not been called: at most one runDevice goroutine
    exists, run holds its closeDone channel, and it serves the newest
    device unless its [close] has been signalled; none exists while the
    list is empty; a readFrom has returned only after that signal. *)
Definition writer_shape (s : multiTUN) : Prop :=
  runDevices s = []
  \/ exists w pc, runDevices s = [(w, pc)] /\ runDone_var s = Some w
       /\ match pc with
          | AtWrites => last (devices s) = Some w \/ chan_closed s w
          | SendCloseDone _ => chan_closed s w
          end.

Definition signal_closed (s : multiTUN) : Prop :=
  forall w, signalled s w -> chan_closed s w.

Definition shutdown_writers (s : multiTUN) : Prop :=
  match run s with
  | InShutdown rest pc =>
      rest <> devices s \/ pc = RecvReadDone -> runDevices s = []
  | _ => True
  end.

Record inv_open (s : multiTUN) : Prop := mkInvOpen {
  inv_writer : writer_shape s;
  inv_no_writer : devices s = [] -> runDevices s = [];
  inv_signal_closed : signal_closed s;
  inv_shutdown_writers : shutdown_writers s
}.

(** The states the theorems are about: not dead of a panic. *)
Definition good (s : multiTUN) : Prop :=
  panicked s = false -> inv s /\ (closed s = false -> inv_open s).

(** No device and no runDevice goroutine in its select. *)
Definition no_writer (s : multiTUN) : Prop :=
  devices s = [] /\ forall w, (w, AtWrites) ∉ runDevices s.

(** Requests that only run receives. *)
Definition run_request (l : label) : bool :=
  match l with
  | Add _ | MTU | Name | Shutdown => true
  | _ => false
  end.

(** Replies that a readFrom or runDevice goroutine sends. *)
Definition io_reply (r : reply) : bool :=
  match r with
  | ReadReply _ _ _ | WriteReply _ _ _ => true
  | _ => false
  end.

Definition is_Add (l : label) : bool :=
  match l with Add _ => true | _ => false end.

Definition is_WriteReply (r : reply) : bool :=
  match r with WriteReply _ _ _ => true | _ => false end.

(** Devices to run examples on. *)
Definition tun1 : Device := mkDevice 1 (1500%Z, None) ("tun1", None).
Definition tun2 : Device := mkDevice 2 (1400%Z, None) ("tun2", None).
Definition tun3 : Device := mkDevice 3 (1280%Z, None) ("tun3", None).

(** The state a run ends in (the new multiplexer if it cannot be taken). *)
Definition state_after (ls : list label) : multiTUN :=
  match exec ls newTUNDevices with
  | Some (s, _) => s
  | None => newTUNDevices
  end.

(** add(tun1), add(tun2), nothing else yet. *)
Definition two_added : multiTUN :=
  Eval vm_compute in state_after [Add tun1; Add tun2].

(** add(tun1), then Close() has returned while readFrom(tun1) has not yet
    taken its close case. *)
Definition Close_returned : multiTUN :=
  Eval vm_compute in
    state_after [Add tun1; Close; RunClose; RunDeviceReturn 0 None;
                 RunCloseStep; RunCloseStep].

(** The same with readFrom(tun1) gone too. *)
Definition all_returned : multiTUN :=
  Eval vm_compute in
    state_after [Add tun1; Close; ReadFromClose 0; RunClose;
                 RunDeviceReturn 0 None; RunCloseStep; RunCloseStep].

(** add(tun1), then Shutdown() up to the send on shutdownDone. *)
Definition shutdown_ending : multiTUN :=
  Eval vm_compute in
    state_after [Add tun1; Shutdown; ShutdownStep; RunDeviceReturn 0 None;
                 ShutdownStep; Read 0 0%Z (Some "closed"); ShutdownStep].

End Invariant.

(** * Properties of the proxy service *)

Section ProxyFacts.
Import Net.

Variable parse : list byte -> error -> option Request * list byte.
Variable dial : string -> option error.

Lemma to_int_not_nil (z : Z) :
  Z.to_int z <> Decimal.Pos Decimal.Nil /\ Z.to_int z <> Decimal.Neg Decimal.Nil.
Proof.
  destruct z as [|p|p]; cbn; split; try discriminate;
    intros [= H]; revert H; apply Unsigned.to_uint_nonnil.
Qed.

Lemma atoi_itoa (z : Z) : atoi (itoa z) = Some z.
Proof.
  unfold atoi, itoa.
  destruct (to_int_not_nil z) as [Hp Hn].
  rewrite NilZero.isi by assumption.
  now rewrite DecimalZ.of_to.
Qed.

(** Reads that find their bytes. *)
Lemma ReadFull_app (l1 l2 : list byte) e w t :
  ReadFull (length l1) (mkConn (l1 ++ l2) e w t)
  = ((l1, None), mkConn l2 e w t).
Proof.
  unfold ReadFull, set_pending; cbn.
  rewrite length_app.
  replace (length l1 <=? length l1 + length l2)%nat with true
    by (symmetry; apply Nat.leb_le; lia).
  now rewrite take_app_length, drop_app_length.
Qed.

Lemma Peek_ok n (c : Conn) :
  n <= length (pending c) ->
  Peek n c = ((take n (pending c), None), c).
Proof.
  intros H. unfold Peek.
  now replace (n <=? length (pending c))%nat with true
    by (symmetry; apply Nat.leb_le; lia).
Qed.

Lemma since_app (c : Conn) p e w evs :
  Spec.since c (mkConn p e w (trace c ++ evs)) = evs.
Proof. unfold Spec.since; cbn. apply drop_app_length. Qed.

Lemma byte_eqb_neq (a b : byte) : a <> b -> Byte.eqb a b = false.
Proof.
  intros H. destruct (Byte.eqb a b) eqn:E; [|reflexivity].
  now apply Byte.byte_dec_bl in E.
Qed.

(** *** Handlers that write nothing but reply frames *)

Lemma frames_ret {A} (a : A) : Spec.frames_only (ret a).
Proof.
  intros [p e w t]. exists []. cbn. rewrite app_nil_r. now split.
Qed.

Lemma frames_bind {A B} (m : M A) (k : A -> M B) :
  Spec.frames_only m -> (forall a, Spec.frames_only (k a)) -> Spec.frames_only (bind m k).
Proof.
  intros Hm Hk c. unfold bind.
  destruct (Hm c) as (evs1 & E1 & F1).
  destruct (m c) as [a c1] eqn:Emc. cbn in E1.
  destruct (Hk a c1) as (evs2 & E2 & F2).
  exists (evs1 ++ evs2). split.
  - rewrite E2. rewrite E1 at 2 3 4. cbn. now rewrite app_assoc.
  - now apply Forall_app.
Qed.

Lemma frames_ReadFull n : Spec.frames_only (ReadFull n).
Proof.
  intros [p e w t]. exists []. unfold ReadFull. rewrite app_nil_r.
  split; [|constructor]. now destruct (n <=? _)%nat.
Qed.

Lemma frames_socks5Reply rep : Spec.frames_only (ProxyService.socks5Reply rep).
Proof.
  intros [p e w t]. exists [Write (ProxyService.socks5_response rep)].
  split; [reflexivity|]. repeat constructor. now exists rep.
Qed.

Lemma frames_DialTimeout tg : Spec.frames_only (net_DialTimeout dial tg).
Proof.
  intros [p e w t]. exists [Dial tg]. split; [reflexivity|].
  now repeat constructor.
Qed.

Lemma frames_relay tg : Spec.frames_only (relay tg).
Proof.
  intros [p e w t]. exists [Relay tg]. split; [reflexivity|].
  now repeat constructor.
Qed.

Ltac frames :=
  repeat first
    [ apply frames_ret
    | apply frames_ReadFull
    | apply frames_socks5Reply
    | apply frames_DialTimeout
    | apply frames_relay
    | apply frames_bind; [|intros ?]
    | match goal with
      | |- Spec.frames_only (let (_, _) := ?x in _) => destruct x
      | |- Spec.frames_only (match ?x with _ => _ end) => destruct x
      end ].

Lemma frames_read_targetAddr atyp :
  Spec.frames_only (ProxyService.read_targetAddr atyp).
Proof. unfold ProxyService.read_targetAddr. destruct atyp; frames. Qed.

Lemma frames_socks5Connect : Spec.frames_only (ProxyService.socks5Connect dial).
Proof.
  unfold ProxyService.socks5Connect.
  apply frames_bind; [apply frames_ReadFull|intros [buf err]].
  destruct err; [apply frames_ret|].
  cbv zeta.
  destruct (negb _); [apply frames_ret|].
  destruct (negb _); [frames|].
  apply frames_bind; [apply frames_read_targetAddr|intros a].
  frames.
Qed.

End ProxyFacts.

(** C2 (as amended).  Every SOCKS5 reply the service sends is a 10-byte
    frame VER(0x05), REP, RSV(0x00), ATYP(0x01), BND.ADDR(4 zero bytes),
    BND.PORT(2 zero bytes): socks5Reply writes exactly that frame for
    every reply code, and every write of socks5Connect on any connection
    is such a frame. *)
Theorem socks5_reply_frame (dial : string -> option Net.error)
    (rep : byte) (c : Net.Conn) :
  Spec.since c (snd (ProxyService.socks5Reply rep c))
    = [Net.Write (Spec.reply_frame rep)]
  /\ length (Spec.reply_frame rep) = 10
  /\ Spec.reply_frame rep !! 0 = Some x05
  /\ Spec.reply_frame rep !! 1 = Some rep
  /\ Spec.reply_frame rep !! 2 = Some x00
  /\ Spec.reply_frame rep !! 3 = Some x01
  /\ drop 4 (Spec.reply_frame rep) = replicate 6 x00
  /\ Forall Spec.is_reply_frame
       (Spec.since c (snd (ProxyService.socks5Connect dial c))).
Proof.
  split.
  { destruct c as [p e w t]. apply (since_app (Net.mkConn p e w t)). }
  repeat (split; [reflexivity|]).
  destruct (frames_socks5Connect dial c) as (evs & E & F).
  rewrite E. now rewrite since_app.
Qed.

(** C2 as stated fails: the frame written for reply code 0x00 has 10
    bytes, not 11. *)
Lemma socks5_reply_frame_not_11_bytes :
  let c := Net.mkConn [] Net.EOF false [] in
  exists b, Spec.since c (snd (ProxyService.socks5Reply x00 c)) = [Net.Write b]
            /\ length b <> 11.
Proof. eexists. split; [reflexivity|]. cbn. lia. Qed.

(** C5.  For every greeting with version byte 0x05 whose declared method
    bytes are all there, socks5Auth writes exactly the two bytes 0x05
    0x00, whatever the methods and however many, and consumes exactly the
    greeting; it fails only when that write does. *)
Theorem socks5Auth_replies_no_auth (c : Net.Conn)
    (nmethods : byte) (methods rest : list byte) :
  Net.pending c = x05 :: nmethods :: methods ++ rest ->
  length methods = Byte.to_nat nmethods ->
  Spec.since c (snd (ProxyService.socks5Auth c)) = [Net.Write [x05; x00]]
  /\ fst (ProxyService.socks5Auth c) = negb (Net.wfail c)
  /\ Net.pending (snd (ProxyService.socks5Auth c)) = rest.
Proof.
  destruct c as [p e w t]; cbn [Net.pending Net.wfail].
  intros -> Hlen.
  unfold ProxyService.socks5Auth, Net.bind.
  rewrite (ReadFull_app [x05; nmethods] (methods ++ rest)).
  cbn [nth]. change (Byte.eqb x05 x05) with true. cbn [negb].
  rewrite <- Hlen, ReadFull_app.
  unfold Spec.since. destruct w; cbn; rewrite drop_app_length; auto.
Qed.

Lemma socks5Auth_replies_no_auth_witness :
  let c := Net.mkConn [x05; x00; x05; x01] Net.EOF false [] in
  Spec.since c (snd (ProxyService.socks5Auth c)) = [Net.Write [x05; x00]]
  /\ fst (ProxyService.socks5Auth c) = negb (Net.wfail c)
  /\ Net.pending (snd (ProxyService.socks5Auth c)) = [x05; x01].
Proof.
  apply (socks5Auth_replies_no_auth
           (Net.mkConn [x05; x00; x05; x01] Net.EOF false [])
           x00 [] [x05; x01]); reflexivity.
Defined.

Lemma read_targetAddr_unsupported (atyp : byte) (c : Net.Conn) :
  atyp <> x01 -> atyp <> x03 ->
  ProxyService.read_targetAddr atyp c
  = (None, Net.emit (Net.Write (ProxyService.socks5_response x08)) c).
Proof. intros H1 H3. destruct atyp; try congruence; reflexivity. Qed.

Lemma port_value (p0 p1 : byte) :
  (Z.shiftl (Net.byte_int p0) 8 + Net.byte_int p1
   = 256 * Net.byte_int p0 + Net.byte_int p1)%Z.
Proof. rewrite Z.shiftl_mul_pow2 by lia. change (2 ^ 8)%Z with 256%Z. lia. Qed.

Section Socks5Connect.
Import Net.

Variable dial : string -> option error.

(** The trace and the result of socks5Connect on each kind of request. *)

Lemma socks5Connect_after_port (targetAddr : string) p0 p1 rest e w t0 :
  (let* (portBytes, err) := ReadFull 2 in
   match err with
   | Some _ => ret false
   | None =>
       let port :=
         (Z.shiftl (byte_int (nth 0 portBytes x00)) 8
          + byte_int (nth 1 portBytes x00))%Z in
       let target := targetAddr +:+ ":" +:+ itoa port in
       let* err := net_DialTimeout dial target in
       match err with
       | Some _ => let* _ := ProxyService.socks5Reply x05 in ret false
       | None =>
           let* _ := ProxyService.socks5Reply x00 in
           let* _ := relay target in
           ret true
       end
   end) (mkConn ([p0; p1] ++ rest) e w t0)
  = Spec.connect_outcome dial
      (targetAddr +:+ ":" +:+ itoa (256 * byte_int p0 + byte_int p1))
      rest e w t0.
Proof.
  unfold bind at 1. rewrite (ReadFull_app [p0; p1]). cbv beta iota zeta.
  cbn [nth]. rewrite port_value.
  unfold Spec.connect_outcome, bind, net_DialTimeout.
  destruct (dial _);
    unfold ProxyService.socks5Reply, relay, conn_Write, bind, ret, emit;
    cbn [pending ending wfail trace]; rewrite <- ?app_assoc; reflexivity.
Qed.

Lemma socks5Connect_head cmd rsv atyp tail e w t0 :
  ProxyService.socks5Connect dial (mkConn ([x05; cmd; rsv; atyp] ++ tail) e w t0)
  = if negb (Byte.eqb cmd x01)
    then (false, mkConn tail e w (t0 ++ [Write (ProxyService.socks5_response x07)]))
    else
      (let* a := ProxyService.read_targetAddr atyp in
       match a with
       | None => ret false
       | Some targetAddr =>
           let* (portBytes, err) := ReadFull 2 in
           match err with
           | Some _ => ret false
           | None =>
               let port :=
                 (Z.shiftl (byte_int (nth 0 portBytes x00)) 8
                  + byte_int (nth 1 portBytes x00))%Z in
               let target := targetAddr +:+ ":" +:+ itoa port in
               let* err := net_DialTimeout dial target in
               match err with
               | Some _ => let* _ := ProxyService.socks5Reply x05 in ret false
               | None =>
                   let* _ := ProxyService.socks5Reply x00 in
                   let* _ := relay target in
                   ret true
               end
           end
       end) (mkConn tail e w t0).
Proof.
  unfold ProxyService.socks5Connect at 1. unfold bind at 1.
  rewrite (ReadFull_app [x05; cmd; rsv; atyp] tail). cbv beta iota zeta.
  cbn [nth]. change (Byte.eqb x05 x05) with true. cbn [negb].
  now destruct (negb (Byte.eqb cmd x01)).
Qed.

Lemma socks5Connect_ipv4 rsv a b c d p0 p1 rest e w t0 :
  ProxyService.socks5Connect dial
    (mkConn ([x05; x01; rsv; x01] ++ [a; b; c; d] ++ [p0; p1] ++ rest) e w t0)
  = Spec.connect_outcome dial
      (ProxyService.IP_String [a; b; c; d] +:+ ":"
       +:+ itoa (256 * byte_int p0 + byte_int p1)) rest e w t0.
Proof.
  rewrite socks5Connect_head. change (Byte.eqb x01 x01) with true. cbn [negb].
  unfold bind at 1. unfold ProxyService.read_targetAddr. unfold bind at 1.
  rewrite (ReadFull_app [a; b; c; d]). cbv beta iota. unfold ret at 1.
  apply socks5Connect_after_port.
Qed.

Lemma socks5Connect_domain rsv len name p0 p1 rest e w t0 :
  length name = Byte.to_nat len ->
  ProxyService.socks5Connect dial
    (mkConn ([x05; x01; rsv; x03] ++ [len] ++ name ++ [p0; p1] ++ rest) e w t0)
  = Spec.connect_outcome dial
      (string_of name +:+ ":" +:+ itoa (256 * byte_int p0 + byte_int p1))
      rest e w t0.
Proof.
  intros Hlen.
  rewrite socks5Connect_head. change (Byte.eqb x01 x01) with true. cbn [negb].
  unfold bind at 1. unfold ProxyService.read_targetAddr. unfold bind at 1.
  rewrite (ReadFull_app [len]). cbv beta iota. unfold bind at 1.
  cbn [nth]. rewrite <- Hlen, ReadFull_app. cbv beta iota. unfold ret at 1.
  apply socks5Connect_after_port.
Qed.

Lemma socks5Connect_unsupported rsv atyp tail e w t0 :
  atyp <> x01 -> atyp <> x03 ->
  ProxyService.socks5Connect dial (mkConn ([x05; x01; rsv; atyp] ++ tail) e w t0)
  = (false, mkConn tail e w (t0 ++ [Write (ProxyService.socks5_response x08)])).
Proof.
  intros H1 H3.
  rewrite socks5Connect_head. change (Byte.eqb x01 x01) with true. cbn [negb].
  unfold bind at 1. now rewrite read_targetAddr_unsupported.
Qed.

End Socks5Connect.

(** C6.  For every well-formed connect request (version 0x05) the reply
    of socks5Connect is: 0x07 for a command other than CONNECT; 0x08,
    with no dial, for address type IPv6 or any unknown one; 0x05 when
    dialling the target fails; 0x00 when it succeeds, followed by the
    relay. *)
Theorem socks5Connect_reply_code (dial : string -> option Net.error)
    (c : Net.Conn) (r : Spec.connect_request) (rest : list byte) :
  Spec.well_formed r ->
  Net.pending c = Spec.encode r ++ rest ->
  let res := ProxyService.socks5Connect dial c in
  let t := Spec.target r in
  (Spec.req_cmd r <> x01 ->
     Spec.since c (snd res) = [Net.Write (Spec.reply_frame x07)]
     /\ fst res = false)
  /\ (Spec.req_cmd r = x01 -> Spec.supported r = false ->
     Spec.since c (snd res) = [Net.Write (Spec.reply_frame x08)]
     /\ fst res = false)
  /\ (Spec.req_cmd r = x01 -> Spec.supported r = true ->
     forall e, dial t = Some e ->
     Spec.since c (snd res) = [Net.Dial t; Net.Write (Spec.reply_frame x05)]
     /\ fst res = false)
  /\ (Spec.req_cmd r = x01 -> Spec.supported r = true ->
     dial t = None ->
     Spec.since c (snd res)
       = [Net.Dial t; Net.Write (Spec.reply_frame x00); Net.Relay t]
     /\ fst res = true).
Proof.
  destruct c as [p e w t0]; cbn [Net.pending].
  destruct r as [cmd rsv addr [p0 p1]].
  unfold Spec.well_formed, Spec.supported, Spec.target, Spec.encode, Spec.since;
    cbn [Spec.req_cmd Spec.req_rsv Spec.req_addr Spec.req_port fst snd
         Net.trace].
  intros Hwf ->.
  assert (Hshape : exists ty tl,
    ([x05; cmd; rsv]
     ++ match addr with
        | Spec.IPv4 a b c d => [x01; a; b; c; d]
        | Spec.Domain len name => [x03; len] ++ name
        | Spec.OtherType atyp raw => atyp :: raw
        end ++ [p0; p1]) ++ rest = [x05; cmd; rsv; ty] ++ tl
    /\ match addr with
       | Spec.IPv4 a b c d => ty = x01 /\ tl = [a; b; c; d] ++ [p0; p1] ++ rest
       | Spec.Domain len name => ty = x03 /\ tl = [len] ++ name ++ [p0; p1] ++ rest
       | Spec.OtherType atyp raw => ty = atyp /\ tl = raw ++ [p0; p1] ++ rest
       end).
  { destruct addr as [a b c d|len name|a raw]; do 2 eexists;
      (split; [|split; reflexivity]); cbn; now rewrite <- ?app_assoc. }
  destruct Hshape as (ty & tl & -> & Hshape).
  split; [|split; [|split]].
  - intros Hcmd. rewrite socks5Connect_head, (byte_eqb_neq _ _ Hcmd). cbn.
    now rewrite drop_app_length.
  - intros -> Hsup. destruct addr as [a b c d|len name|a raw]; try discriminate.
    destruct Hwf as [H1 H3], Hshape as [-> ->].
    rewrite socks5Connect_unsupported by assumption. cbn.
    now rewrite drop_app_length.
  - intros -> Hsup err Hdial.
    destruct addr as [a b c d|len name|a raw]; try discriminate;
      destruct Hshape as [-> ->].
    + rewrite socks5Connect_ipv4. unfold Spec.connect_outcome, ProxyService.IP_String.
      cbn [nth]. rewrite Hdial. cbn. now rewrite drop_app_length.
    + rewrite socks5Connect_domain by assumption. unfold Spec.connect_outcome.
      rewrite Hdial. cbn. now rewrite drop_app_length.
  - intros -> Hsup Hdial.
    destruct addr as [a b c d|len name|a raw]; try discriminate;
      destruct Hshape as [-> ->].
    + rewrite socks5Connect_ipv4. unfold Spec.connect_outcome, ProxyService.IP_String.
      cbn [nth]. rewrite Hdial. cbn. now rewrite drop_app_length.
    + rewrite socks5Connect_domain by assumption. unfold Spec.connect_outcome.
      rewrite Hdial. cbn. now rewrite drop_app_length.
Qed.

Lemma socks5Connect_reply_code_witness :
  let c := Net.mkConn [x05; x01; x00; x01; x5d; xb8; xd8; x22; x00; x50]
             Net.EOF false [] in
  let res := ProxyService.socks5Connect (fun _ => None) c in
  Spec.since c (snd res)
    = [Net.Dial "93.184.216.34:80"; Net.Write (Spec.reply_frame x00);
       Net.Relay "93.184.216.34:80"]
  /\ fst res = true.
Proof.
  pose proof (socks5Connect_reply_code (fun _ => None)
    (Net.mkConn [x05; x01; x00; x01; x5d; xb8; xd8; x22; x00; x50]
       Net.EOF false [])
    (Spec.mkConnectRequest x01 x00 (Spec.IPv4 x5d xb8 xd8 x22) (x00, x50))
    [] I eq_refl) as (_ & _ & _ & H).
  apply H; reflexivity.
Defined.

(** *** The plain HTTP acknowledgment *)

Lemma string_app_assoc (a b c : string) : (a +:+ b) +:+ c = a +:+ b +:+ c.
Proof.
  induction a as [|x a IH]; [reflexivity|].
  change (String x ((a +:+ b) +:+ c) = String x (a +:+ b +:+ c)).
  now rewrite IH.
Qed.

Lemma string_app_cons x (a b : string) : String x a +:+ b = String x (a +:+ b).
Proof. reflexivity. Qed.

Lemma string_app_nil (b : string) : "" +:+ b = b.
Proof. reflexivity. Qed.

Lemma http_body_acknowledgment (method url : string) :
  ProxyService.http_body method url = Spec.acknowledgment method url.
Proof.
  unfold ProxyService.http_body, Spec.acknowledgment, Spec.json_object,
    Spec.json_field, Spec.json_string, DQ.
  cbn [map String.concat fst snd].
  now rewrite !string_app_assoc, ?string_app_cons, ?string_app_nil.
Qed.

(** Decimal numbers contain no carriage return. *)

Lemma no_CR_uint (d : Decimal.uint) : Spec.no_CR (NilEmpty.string_of_uint d).
Proof. induction d; cbn; auto. Qed.

Lemma no_CR_uint0 (d : Decimal.uint) : Spec.no_CR (NilZero.string_of_uint d).
Proof. destruct d; [cbn; auto|exact (no_CR_uint _)..]. Qed.

Lemma no_CR_itoa (z : Z) : Spec.no_CR (itoa z).
Proof.
  unfold itoa, NilZero.string_of_int.
  destruct (Z.to_int z) as [d|d]; [apply no_CR_uint0|].
  split; [reflexivity|apply no_CR_uint0].
Qed.

Lemma until_CR_app (s rest : string) :
  Spec.no_CR s -> Spec.until_CR (s +:+ String CR rest) = s.
Proof.
  induction s as [|a s IH]; [reflexivity|].
  intros [Ha H]. rewrite string_app_cons. cbn [Spec.until_CR].
  now rewrite Ha, IH.
Qed.

Lemma response_body_skip (s rest : string) :
  Spec.no_CR s -> Spec.response_body (s +:+ rest) = Spec.response_body rest.
Proof.
  induction s as [|a s IH]; [reflexivity|].
  intros [Ha H]. rewrite string_app_cons.
  cbn [Spec.response_body]. unfold CRLF at 1.
  rewrite !string_app_cons. cbn [String.prefix].
  destruct (ascii_dec CR a) as [<-|Hne]; [discriminate|].
  now apply IH.
Qed.

Section HandleHTTP.
Import Net.
#[local] Arguments String.append : simpl nomatch.

Lemma http_response_reads_back (body : string) :
  String.prefix ("HTTP/1.1 200 OK" +:+ CRLF) (ProxyService.http_response body) = true
  /\ Spec.response_body (ProxyService.http_response body) = Some body
  /\ Spec.header_value "Content-Length" (ProxyService.http_response body)
     = Some (itoa (Z.of_nat (String.length body))).
Proof.
  unfold ProxyService.http_response.
  set (n := itoa (Z.of_nat (String.length body))).
  assert (Hn : Spec.no_CR n) by apply no_CR_itoa.
  clearbody n.
  split; [reflexivity|split].
  - cbn. rewrite response_body_skip by assumption. now destruct body.
  - cbn. replace (String.prefix "" _) with true by (now destruct n).
    now rewrite until_CR_app.
Qed.

(** C9.  For every request that http.ReadRequest parses, with method M
    and URL U, handleHTTP (in both services) writes one response and
    does nothing else, in particular it neither dials nor relays.  The
    response starts with the status line 200 OK, its body is exactly the
    JSON object with the members status "ok", method M, url U and
    protocol "http" (M and U copied between the quotes as they are), and
    its Content-Length header is the decimal byte length of that body. *)
Theorem handleHTTP_acknowledges
    (parse : list byte -> error -> option Request * list byte)
    (c : Conn) (req : Request) (rest : list byte) :
  parse (pending c) (ending c) = (Some req, rest) ->
  let body := Spec.acknowledgment (Method req) (URL req) in
  exists response n,
    Spec.since c (snd (ProxyService.handleHTTP parse c))
      = [Write (bytes_of response)]
    /\ Spec.since c (snd (ProxyServiceHTTPOnly.handleHTTP parse c))
      = [Write (bytes_of response)]
    /\ String.prefix ("HTTP/1.1 200 OK" +:+ CRLF) response = true
    /\ Spec.response_body response = Some body
    /\ Spec.header_value "Content-Length" response = Some n
    /\ atoi n = Some (Z.of_nat (String.length body)).
Proof.
  intros Hparse body.
  exists (ProxyService.http_response body), (itoa (Z.of_nat (String.length body))).
  destruct (http_response_reads_back body) as (H1 & H2 & H3).
  repeat split; try assumption; try apply atoi_itoa.
  - unfold ProxyService.handleHTTP, bind, http_ReadRequest.
    rewrite Hparse. rewrite http_body_acknowledgment. fold body.
    destruct c as [p e w t]. unfold Spec.since. cbn [snd conn_Write emit
      set_pending trace pending ending wfail ret].
    apply drop_app_length.
  - unfold ProxyServiceHTTPOnly.handleHTTP, bind, http_ReadRequest.
    rewrite Hparse. rewrite http_body_acknowledgment. fold body.
    destruct c as [p e w t]. unfold Spec.since. cbn [snd conn_Write emit
      set_pending trace pending ending wfail ret].
    apply drop_app_length.
Qed.

End HandleHTTP.

Lemma handleHTTP_acknowledges_witness :
  let parse := fun (_ : list byte) (_ : Net.error) =>
    (Some (Net.mkRequest "GET" "/" "x"), @nil byte) in
  let c := Net.mkConn (bytes_of "GET / HTTP/1.1") Net.EOF false [] in
  let body := Spec.acknowledgment "GET" "/" in
  exists response n,
    Spec.since c (snd (ProxyService.handleHTTP parse c))
      = [Net.Write (bytes_of response)]
    /\ Spec.since c (snd (ProxyServiceHTTPOnly.handleHTTP parse c))
      = [Net.Write (bytes_of response)]
    /\ String.prefix ("HTTP/1.1 200 OK" +:+ CRLF) response = true
    /\ Spec.response_body response = Some body
    /\ Spec.header_value "Content-Length" response = Some n
    /\ atoi n = Some (Z.of_nat (String.length body)).
Proof.
  exact (handleHTTP_acknowledges
           (fun _ _ => (Some (Net.mkRequest "GET" "/" "x"), []))
           (Net.mkConn (bytes_of "GET / HTTP/1.1") Net.EOF false [])
           (Net.mkRequest "GET" "/" "x") [] eq_refl).
Defined.

(** *** The protocol detectors *)

Section Detect.
Import Net.

Lemma length_bytes_of (m : string) : length (bytes_of m) = String.length m.
Proof.
  unfold bytes_of, list_byte_of_string.
  rewrite length_map. induction m; cbn; auto.
Qed.

Lemma eqb_string_of (l : list byte) (m : string) :
  String.eqb (string_of l) m = bool_decide (l = bytes_of m).
Proof.
  unfold string_of, bytes_of.
  destruct (String.eqb_spec (string_of_list_byte l) m) as [E|E];
    symmetry; [apply bool_decide_eq_true|apply bool_decide_eq_false].
  - now rewrite <- E, list_byte_of_string_of_list_byte.
  - intros ->. now rewrite string_of_list_byte_of_string in E.
Qed.

(** The test of the SOCKS5-capable detector on the peeked bytes is the
    prefix test on the stream. *)
Lemma method_test (m : string) (n : nat) (p : list byte) :
  String.length m <= n ->
  (String.length m <=? length (take n p))%nat
  && String.eqb (string_of (take (String.length m) (take n p))) m
  = Spec.starts_with m p.
Proof.
  intros Hn. unfold Spec.starts_with.
  rewrite eqb_string_of, take_take, Nat.min_l by assumption.
  destruct (String.length m <=? length (take n p))%nat eqn:E; [reflexivity|].
  apply Nat.leb_gt in E. rewrite length_take in E.
  symmetry; apply bool_decide_eq_false. intros H.
  apply (f_equal length) in H. rewrite length_take, length_bytes_of in H. lia.
Qed.

Lemma starts_with_split (m : string) (p : list byte) :
  Spec.starts_with m p = true -> exists rest, p = bytes_of m ++ rest.
Proof.
  unfold Spec.starts_with. intros H%bool_decide_eq_true.
  exists (drop (String.length m) p). now rewrite <- H, take_drop.
Qed.

Lemma stem_test (m : string) (p : list byte) :
  String.length m = 3 ->
  String.eqb (string_of (take 3 (take 7 p))) m = Spec.starts_with m p.
Proof.
  intros Hm. unfold Spec.starts_with.
  now rewrite eqb_string_of, take_take, Hm.
Qed.

Lemma starts_with_short (m : string) (p : list byte) :
  length p < String.length m -> Spec.starts_with m p = false.
Proof.
  intros Hlt. apply bool_decide_eq_false. intros H.
  apply (f_equal length) in H. rewrite length_take, length_bytes_of in H. lia.
Qed.

Ltac split_bools :=
  repeat match goal with
         | |- context [Spec.starts_with ?m ?p] =>
             destruct (Spec.starts_with m p)
         end.

(** The SOCKS5-capable detector is the specification's, with unknown
    input defaulting to SOCKS5. *)
Lemma detectProtocol_spec (c : Conn) :
  10 <= length (pending c) ->
  ProxyService.detectProtocol c
  = ((Spec.detect Spec.Socks5Default (pending c), None), c).
Proof.
  intros Hlen. unfold ProxyService.detectProtocol, bind.
  rewrite Peek_ok by assumption. cbv beta iota.
  set (p := pending c) in *.
  assert (Hl : length (take 10 p) = 10) by (rewrite length_take; lia).
  rewrite Hl. cbn [Nat.ltb Nat.leb].
  unfold ProxyService.httpMethods. cbn [ProxyService.range_httpMethods].
  rewrite !method_test by (cbn; lia).
  unfold Spec.detect. cbn [existsb].
  change ("GET" +:+ " ") with "GET ".
  change ("POST" +:+ " ") with "POST ".
  change ("PUT" +:+ " ") with "PUT ".
  change ("DELETE" +:+ " ") with "DELETE ".
  change ("HEAD" +:+ " ") with "HEAD ".
  change ("OPTIONS" +:+ " ") with "OPTIONS ".
  destruct (Spec.starts_with "CONNECT " p) eqn:HC.
  - apply starts_with_split in HC as [rest ->]. reflexivity.
  - split_bools; try reflexivity.
    cbn [orb]. destruct (Byte.eqb _ _), (bool_decide _); reflexivity.
Qed.

(** The HTTP-only detector decides on the first three bytes, and on the
    first seven for CONNECT. *)
Lemma detectProtocol_http_only_spec (c : Conn) :
  7 <= length (pending c) \/ ending c = EOF ->
  ProxyServiceHTTPOnly.detectProtocol c
  = ((Spec.detect_by_stem (pending c), None), c).
Proof.
  intros Hpeek. unfold ProxyServiceHTTPOnly.detectProtocol, bind, Peek.
  set (p := pending c) in *.
  assert (E : (let (a, c') :=
             if (7 <=? length p)%nat
             then ((take 7 p, None), c)
             else ((p, Some (ending c)), c) in
           (let '(first7, err) := a in
            if match err with Some e => negb (is_EOF e) | None => false end
            then ret ("", err)
            else
              match (if (3 <=? length first7)%nat
                     then ProxyServiceHTTPOnly.range_httpMethods first7
                            (string_of (take 3 first7))
                            ProxyServiceHTTPOnly.httpMethods
                     else None) with
              | Some protocol => ret (protocol, None)
              | None => ret ("UNSUPPORTED", None)
              end) c')
          = (match (if (3 <=? length (take 7 p))%nat
                    then ProxyServiceHTTPOnly.range_httpMethods (take 7 p)
                           (string_of (take 3 (take 7 p)))
                           ProxyServiceHTTPOnly.httpMethods
                    else None) with
             | Some protocol => ret (protocol, None)
             | None => ret ("UNSUPPORTED", None)
             end) c).
  { destruct (7 <=? length p)%nat eqn:E7; [reflexivity|].
    apply Nat.leb_gt in E7. destruct Hpeek as [H|H]; [lia|].
    rewrite H. cbn [is_EOF negb]. rewrite (take_ge p 7) by lia. reflexivity. }
  rewrite E. clear E.
  unfold Spec.detect_by_stem.
  destruct (Spec.starts_with "CONNECT" p) eqn:HC.
  - apply starts_with_split in HC as [rest ->]. reflexivity.
  - assert (H7 : (7 <=? length (take 7 p))%nat
                  && String.eqb (string_of (take 7 (take 7 p))) "CONNECT"
                  = false).
    { etransitivity; [|exact HC]. apply (method_test "CONNECT" 7 p). cbn; lia. }
    destruct (3 <=? length (take 7 p))%nat eqn:E3.
    + unfold ProxyServiceHTTPOnly.httpMethods.
      cbn [ProxyServiceHTTPOnly.range_httpMethods].
      rewrite !stem_test by reflexivity.
      change (String.eqb "CON" "CON") with true. cbn [andb]. rewrite H7.
      cbn [existsb]. split_bools; reflexivity.
    + apply Nat.leb_gt in E3. rewrite length_take in E3.
      cbn [existsb]. rewrite !starts_with_short by (cbn; lia). reflexivity.
Qed.

(** C1 (as amended).  On every stream whose first 10 bytes can be
    peeked, the SOCKS5-capable detector classifies as the specification
    says: CONNECT for the prefix "CONNECT ", HTTP for another method
    token followed by a space, SOCKS5 for a first byte 0x05, and SOCKS5
    for anything else.  The HTTP-only detector, on every stream it can
    peek (7 bytes, or fewer before end of stream), decides otherwise:
    CONNECT when the first seven bytes are "CONNECT", HTTP when the
    first three bytes are GET, POS, PUT, DEL, HEA, OPT or CON, and
    UNSUPPORTED for everything else, a first byte 0x05 included, which
    handleConnection answers with the 400 response and nothing more. *)
Theorem detectProtocol_classification
    (parse : list byte -> error -> option Request * list byte)
    (dial : string -> option error) (c : Conn) :
  (10 <= length (pending c) ->
     ProxyService.detectProtocol c
     = ((Spec.detect Spec.Socks5Default (pending c), None), c))
  /\ (7 <= length (pending c) \/ ending c = EOF ->
     ProxyServiceHTTPOnly.detectProtocol c
     = ((Spec.detect_by_stem (pending c), None), c)
     /\ (Spec.detect_by_stem (pending c) = "UNSUPPORTED" ->
        ProxyServiceHTTPOnly.handleConnection parse dial c
        = (tt, emit (Write (bytes_of ProxyServiceHTTPOnly.bad_request)) c))).
Proof.
  split; [apply detectProtocol_spec|].
  intros Hpeek. split; [now apply detectProtocol_http_only_spec|].
  intros Hun. unfold ProxyServiceHTTPOnly.handleConnection, bind at 1.
  rewrite detectProtocol_http_only_spec by assumption. rewrite Hun.
  reflexivity.
Qed.

End Detect.

Lemma detectProtocol_classification_witness :
  let parse := fun (_ : list byte) (_ : Net.error) =>
    (@None Net.Request, @nil byte) in
  let dial := fun _ : string => @None Net.error in
  let c := Net.mkConn
             [x05; x01; x00; x05; x01; x00; x01; x5d; xb8; xd8; x22; x00; x50]
             Net.EOF false [] in
  ProxyService.detectProtocol c = (("SOCKS5", None), c)
  /\ ProxyServiceHTTPOnly.detectProtocol c = (("UNSUPPORTED", None), c)
  /\ ProxyServiceHTTPOnly.handleConnection parse dial c
     = (tt, Net.emit
              (Net.Write (bytes_of ProxyServiceHTTPOnly.bad_request)) c).
Proof.
  intros parse dial c.
  destruct (detectProtocol_classification parse dial c) as [HA HB].
  split; [apply HA; cbn; lia|].
  destruct HB as [HB1 HB2]; [left; cbn; lia|].
  split; [exact HB1|apply HB2; reflexivity].
Defined.

(** C1 as stated fails for the HTTP-only service: a stream that begins
    with 0x05 is SOCKS5 by the specification, under either policy, yet
    this detector returns UNSUPPORTED and the connection gets the 400
    response; and a stream that begins with "GETX", which is neither a
    method token followed by a space nor 0x05 and so unknown input to be
    rejected, is classified HTTP. *)
Lemma detectProtocol_http_only_differs :
  let c := Net.mkConn
             [x05; x01; x00; x05; x01; x00; x01; x5d; xb8; xd8; x22; x00; x50]
             Net.EOF false [] in
  let g := Net.mkConn (bytes_of "GETX / HTTP/1.1") Net.EOF false [] in
  (Spec.detect Spec.Reject400 (Net.pending c) = "SOCKS5"
   /\ fst (ProxyServiceHTTPOnly.detectProtocol c) = ("UNSUPPORTED", None)
   /\ fst (fst (ProxyServiceHTTPOnly.detectProtocol c))
      <> Spec.detect Spec.Reject400 (Net.pending c))
  /\ (Spec.detect Spec.Reject400 (Net.pending g) = "UNSUPPORTED"
     /\ fst (ProxyServiceHTTPOnly.detectProtocol g) = ("HTTP", None)
     /\ fst (fst (ProxyServiceHTTPOnly.detectProtocol g))
        <> Spec.detect Spec.Reject400 (Net.pending g)).
Proof. repeat split; try reflexivity; discriminate. Qed.

(** * Further properties of the proxy service *)

Section ProxyExtra.
Import Net.

Variable parse : list byte -> error -> option Request * list byte.
Variable dial : string -> option error.

(** A token that starts with another byte is no prefix of the stream. *)
Lemma starts_with_other_head (tok : string) (a : ascii) (b : byte)
    (p : list byte) :
  byte_of_ascii a <> b ->
  Spec.starts_with (String a tok) (b :: p) = false.
Proof.
  intros Hne. apply bool_decide_eq_false. cbn. intros [= E _]. congruence.
Qed.

Lemma detect_socks5_greeting (p : list byte) :
  Spec.detect Spec.Socks5Default (x05 :: p) = "SOCKS5".
Proof.
  unfold Spec.detect. cbn [existsb].
  change ("GET" +:+ " ") with "GET ".
  change ("POST" +:+ " ") with "POST ".
  change ("PUT" +:+ " ") with "PUT ".
  change ("DELETE" +:+ " ") with "DELETE ".
  change ("HEAD" +:+ " ") with "HEAD ".
  change ("OPTIONS" +:+ " ") with "OPTIONS ".
  rewrite !starts_with_other_head by discriminate. reflexivity.
Qed.

(** socks5Auth on a greeting: accepted, or refused for its version. *)
Lemma socks5Auth_ok (nmethods : byte) (methods rest : list byte) e w t0 :
  length methods = Byte.to_nat nmethods ->
  ProxyService.socks5Auth (mkConn (x05 :: nmethods :: methods ++ rest) e w t0)
  = (negb w, mkConn rest e w (t0 ++ [Write [x05; x00]])).
Proof.
  intros Hlen. unfold ProxyService.socks5Auth, bind.
  rewrite (ReadFull_app [x05; nmethods] (methods ++ rest)).
  cbn [nth]. change (Byte.eqb x05 x05) with true. cbn [negb].
  rewrite <- Hlen, ReadFull_app. now destruct w.
Qed.

Lemma socks5Auth_bad_version (v n : byte) (rest : list byte) e w t0 :
  v <> x05 ->
  ProxyService.socks5Auth (mkConn (v :: n :: rest) e w t0)
  = (false, mkConn rest e w t0).
Proof.
  intros Hv. unfold ProxyService.socks5Auth, bind.
  rewrite (ReadFull_app [v; n] rest). cbn [nth].
  now rewrite (byte_eqb_neq v x05 Hv).
Qed.

(** A read changes nothing of the connection but the unread bytes. *)
Lemma ReadFull_conn (n : nat) (c : Conn) :
  exists buf err p',
    ReadFull n c = ((buf, err), mkConn p' (ending c) (wfail c) (trace c)).
Proof.
  unfold ReadFull, set_pending.
  destruct (n <=? length (pending c))%nat; eauto.
Qed.

(** Whatever the connection, socks5Auth writes nothing, or only the
    method selection. *)
Lemma socks5Auth_cases (c : Conn) :
  (exists p', ProxyService.socks5Auth c
              = (false, mkConn p' (ending c) (wfail c) (trace c)))
  \/ (exists p', ProxyService.socks5Auth c
                 = (negb (wfail c),
                    mkConn p' (ending c) (wfail c) (trace c ++ [Write [x05; x00]]))).
Proof.
  unfold ProxyService.socks5Auth, bind.
  destruct (ReadFull_conn 2 c) as (buf & err & p1 & ->).
  destruct err; [left; eexists; reflexivity|].
  destruct (negb _); [left; eexists; reflexivity|].
  destruct (ReadFull_conn (Byte.to_nat (nth 1 buf x00))
              (mkConn p1 (ending c) (wfail c) (trace c)))
    as (ms & err & p2 & ->).
  cbn [ending wfail trace].
  destruct err; [left; eexists; reflexivity|].
  right. exists p2. unfold conn_Write, emit, ret. cbn. now destruct (wfail c).
Qed.

(** A connection that delivers fewer than ten bytes before its stream
    ends or its read deadline expires is dropped by the SOCKS5-capable
    service: detectProtocol returns the error of the Peek, and
    handleConnection returns without a write, a dial or a relay and
    without consuming anything.  A SOCKS5 greeting sent alone (three or
    four bytes) is such a stream. *)
Theorem handleConnection_short_stream (c : Conn) :
  length (pending c) < 10 ->
  ProxyService.detectProtocol c = (("", Some (ending c)), c)
  /\ ProxyService.handleConnection parse dial c = (tt, c).
Proof.
  intros Hlen.
  assert (E : ProxyService.detectProtocol c = (("", Some (ending c)), c)).
  { unfold ProxyService.detectProtocol, bind, Peek.
    now replace (10 <=? length (pending c))%nat with false
      by (symmetry; apply Nat.leb_gt; lia). }
  split; [exact E|].
  unfold ProxyService.handleConnection, bind. now rewrite E.
Qed.

(** A stream of ten bytes or more that begins with no HTTP method token
    and whose first byte is not 0x05 is handed to the SOCKS5 handler,
    which reads two bytes, refuses the version and returns: the
    connection gets no reply at all, and nothing is dialled. *)
Theorem handleConnection_unknown_protocol (c : Conn) (v n : byte)
    (rest : list byte) :
  pending c = v :: n :: rest ->
  10 <= length (pending c) ->
  Spec.detect Spec.Socks5Default (pending c) = "SOCKS5" ->
  v <> x05 ->
  ProxyService.handleConnection parse dial c = (tt, set_pending rest c).
Proof.
  intros Hp Hlen Hd Hv.
  unfold ProxyService.handleConnection, bind.
  rewrite detectProtocol_spec, Hd by assumption. cbn [String.eqb Ascii.eqb Bool.eqb].
  destruct c as [p e w t0]; cbn [pending] in Hp; subst p.
  unfold ProxyService.handleSOCKS5, bind.
  now rewrite socks5Auth_bad_version.
Qed.

(** A whole SOCKS5 session sent at once: a greeting with its methods,
    then a CONNECT request for an IPv4 address or a domain name.
    handleConnection writes the method selection 0x05 0x00, dials
    host:port, and writes the reply frame: code 0x05 when the dial
    fails, code 0x00 followed by the relay when it succeeds, all the
    request being consumed.  When the write of the method selection
    fails, nothing else is done and the request is left unread. *)
Theorem handleConnection_socks5_session (c : Conn) (nmethods : byte)
    (methods : list byte) (r : Spec.connect_request) (rest : list byte) :
  pending c = x05 :: nmethods :: methods ++ Spec.encode r ++ rest ->
  length methods = Byte.to_nat nmethods ->
  Spec.well_formed r -> Spec.req_cmd r = x01 -> Spec.supported r = true ->
  10 <= length (pending c) ->
  let res := ProxyService.handleConnection parse dial c in
  let t := Spec.target r in
  Spec.since c (snd res)
  = Write [x05; x00]
    :: (if wfail c then []
        else Dial t
             :: match dial t with
                | Some _ => [Write (Spec.reply_frame x05)]
                | None => [Write (Spec.reply_frame x00); Relay t]
                end)
  /\ pending (snd res) = (if wfail c then Spec.encode r ++ rest else rest).
Proof.
  intros Hp Hm Hwf Hcmd Hsup Hlen res t. subst res.
  unfold ProxyService.handleConnection, bind.
  rewrite detectProtocol_spec by assumption.
  rewrite Hp, detect_socks5_greeting. cbn [String.eqb Ascii.eqb Bool.eqb].
  destruct c as [p e w t0]; cbn [pending wfail] in *; subst p.
  unfold ProxyService.handleSOCKS5, bind.
  rewrite socks5Auth_ok by assumption.
  unfold Spec.since. cbn [trace].
  destruct w; cbn [negb]; [cbn; now rewrite drop_app_length|].
  destruct r as [cmd rsv addr [p0 p1]]; cbn in Hcmd, Hwf, Hsup; subst cmd.
  unfold Spec.target in t; cbn in t.
  destruct addr as [a b c' d|len name|atyp raw]; [| |discriminate].
  - change (Spec.encode (Spec.mkConnectRequest x01 rsv (Spec.IPv4 a b c' d)
                           (p0, p1)) ++ rest)
      with ([x05; x01; rsv; x01] ++ [a; b; c'; d] ++ [p0; p1] ++ rest).
    rewrite socks5Connect_ipv4. unfold Spec.connect_outcome.
    change (ProxyService.IP_String [a; b; c'; d] +:+ ":"
            +:+ itoa (256 * byte_int p0 + byte_int p1)) with t.
    destruct (dial t); cbn; rewrite <- app_assoc, drop_app_length; auto.
  - replace (Spec.encode (Spec.mkConnectRequest x01 rsv (Spec.Domain len name)
                            (p0, p1)) ++ rest)
      with ([x05; x01; rsv; x03] ++ [len] ++ name ++ [p0; p1] ++ rest)
      by (unfold Spec.encode; cbn; now rewrite <- !app_assoc).
    rewrite socks5Connect_domain by assumption. unfold Spec.connect_outcome.
    fold t.
    destruct (dial t); cbn; rewrite <- app_assoc, drop_app_length; auto.
Qed.

(** On every connection, whatever it delivers, the SOCKS5 handler does
    nothing at all, or its first effect is the write of the method
    selection 0x05 0x00: it never dials or relays before.  Every later
    write is a 10-byte reply frame, and when the first write fails there
    is no later effect. *)
Theorem handleSOCKS5_events (c : Conn) :
  let evs := Spec.since c (snd (ProxyService.handleSOCKS5 dial c)) in
  evs = []
  \/ exists rest, evs = Write [x05; x00] :: rest
       /\ Forall Spec.is_reply_frame rest
       /\ (wfail c = true -> rest = []).
Proof.
  intros evs. subst evs. unfold ProxyService.handleSOCKS5, bind.
  destruct (socks5Auth_cases c) as [[p' ->]|[p' ->]].
  - left. cbn. unfold Spec.since. cbn. apply drop_all.
  - right. destruct (wfail c) eqn:Hw; cbn [negb].
    + exists []. unfold Spec.since. cbn. rewrite drop_app_length. auto.
    + destruct (frames_socks5Connect dial
                  (mkConn p' (ending c) false (trace c ++ [Write [x05; x00]])))
        as (evs & E & F).
      destruct (ProxyService.socks5Connect dial _) as [ok c2]. cbn in E.
      exists evs. split; [|split; [assumption|discriminate]].
      unfold Spec.since.
      destruct ok; cbn; rewrite E; cbn;
        now rewrite <- app_assoc, drop_app_length.
Qed.

(** What handleHTTPConnect does, in either service. *)
Lemma handleHTTPConnect_events (c : Conn) :
  ProxyService.handleHTTPConnect parse dial c
  = ProxyServiceHTTPOnly.handleHTTPConnect parse dial c
  /\ Spec.since c (snd (ProxyService.handleHTTPConnect parse dial c))
     = match fst (parse (pending c) (ending c)) with
       | None => []
       | Some req =>
           Dial (Host req)
           :: match dial (Host req) with
              | Some _ =>
                  [Write (bytes_of ("HTTP/1.1 502 Bad Gateway" +:+ CRLF +:+ CRLF))]
              | None =>
                  [Write (bytes_of ("HTTP/1.1 200 Connection established"
                                    +:+ CRLF +:+ CRLF));
                   Relay (Host req)]
              end
       end.
Proof.
  split; [reflexivity|].
  unfold ProxyService.handleHTTPConnect, bind, http_ReadRequest.
  destruct (parse (pending c) (ending c)) as [[req|] rest]; cbn [fst].
  - unfold net_DialTimeout. destruct (dial (Host req));
      unfold Spec.since; cbn; rewrite <- ?app_assoc; apply drop_app_length.
  - unfold Spec.since. cbn. apply drop_all.
Qed.

Lemma starts_with_length (tok : string) (p : list byte) :
  Spec.starts_with tok p = true -> String.length tok <= length p.
Proof.
  intros [rest ->]%starts_with_split.
  rewrite length_app, length_bytes_of. lia.
Qed.

(** The CONNECT tunnel of both services.  On a stream that begins with
    the token (followed by a space, and of ten bytes or more, for the
    SOCKS5-capable service; the seven letters alone for the HTTP-only
    one), handleConnection does nothing when http.ReadRequest fails;
    otherwise it dials req.Host and answers 502 Bad Gateway when the
    dial fails, with no relay, or 200 Connection established followed
    by the relay to req.Host when it succeeds. *)
Theorem handleConnection_CONNECT (c : Conn) :
  let tunnel :=
    match fst (parse (pending c) (ending c)) with
    | None => []
    | Some req =>
        Dial (Host req)
        :: match dial (Host req) with
           | Some _ =>
               [Write (bytes_of ("HTTP/1.1 502 Bad Gateway" +:+ CRLF +:+ CRLF))]
           | None =>
               [Write (bytes_of ("HTTP/1.1 200 Connection established"
                                 +:+ CRLF +:+ CRLF));
                Relay (Host req)]
           end
    end in
  (Spec.starts_with "CONNECT " (pending c) = true ->
   10 <= length (pending c) ->
   Spec.since c (snd (ProxyService.handleConnection parse dial c)) = tunnel)
  /\ (Spec.starts_with "CONNECT" (pending c) = true ->
      Spec.since c (snd (ProxyServiceHTTPOnly.handleConnection parse dial c))
      = tunnel).
Proof.
  intros tunnel. split.
  - intros HC Hlen. unfold ProxyService.handleConnection, bind.
    rewrite detectProtocol_spec by assumption.
    unfold Spec.detect. rewrite HC. cbn [String.eqb Ascii.eqb Bool.eqb].
    apply handleHTTPConnect_events.
  - intros HC. pose proof (starts_with_length _ _ HC) as Hlen. cbn in Hlen.
    unfold ProxyServiceHTTPOnly.handleConnection, bind.
    rewrite detectProtocol_http_only_spec by (left; lia).
    unfold Spec.detect_by_stem. rewrite HC. cbn [String.eqb Ascii.eqb Bool.eqb].
    destruct (handleHTTPConnect_events c) as [<- E]. exact E.
Qed.

(** The HTTP-only service reaches the network only for CONNECT: on
    every connection, if handleConnection dials or relays to t, the
    stream begins with the seven bytes CONNECT, http.ReadRequest has
    parsed a request, and t is its Host.  A plain HTTP request is only
    acknowledged, never forwarded. *)
Theorem http_only_reaches_network_only_for_CONNECT (c : Conn) (t : string) :
  let evs := Spec.since c
               (snd (ProxyServiceHTTPOnly.handleConnection parse dial c)) in
  Dial t ∈ evs \/ Relay t ∈ evs ->
  Spec.starts_with "CONNECT" (pending c) = true
  /\ exists req, fst (parse (pending c) (ending c)) = Some req /\ t = Host req.
Proof.
  intros evs. subst evs.
  unfold ProxyServiceHTTPOnly.handleConnection, bind.
  assert (Hcases : (7 <= length (pending c) \/ ending c = EOF)
                   \/ ~ (7 <= length (pending c) \/ ending c = EOF)).
  { destruct (le_lt_dec 7 (length (pending c))); [left; now left|].
    destruct (ending c); [left; now right|right..]; intros [?|?];
      (lia || discriminate). }
  destruct Hcases as [Hpeek|Hno].
  - rewrite detectProtocol_http_only_spec by assumption.
    unfold Spec.detect_by_stem.
    destruct (Spec.starts_with "CONNECT" (pending c)) eqn:HC.
    + cbn [String.eqb Ascii.eqb Bool.eqb].
      destruct (handleHTTPConnect_events c) as [<- ->].
      destruct (fst (parse (pending c) (ending c))) as [req|].
      * intros Hin. split; [reflexivity|]. exists req. split; [reflexivity|].
        destruct (dial (Host req)); destruct Hin as [Hin|Hin];
          repeat (apply elem_of_cons in Hin as [Hin|Hin]; [congruence|]);
          now apply elem_of_nil in Hin.
      * intros [Hin|Hin]; now apply elem_of_nil in Hin.
    + assert (Hw : forall m : M unit,
                (forall c0, exists b p',
                   m c0 = (tt, mkConn p' (ending c0) (wfail c0) (trace c0 ++ b))
                   /\ forall t', (Dial t' ∉ b) /\ (Relay t' ∉ b)) ->
                Dial t ∈ Spec.since c (snd (m c))
                \/ Relay t ∈ Spec.since c (snd (m c)) -> False).
      { intros m Hm. destruct (Hm c) as (b & p' & -> & Hb).
        unfold Spec.since. cbn. rewrite drop_app_length.
        destruct (Hb t) as [H1 H2]. intros [H|H]; contradiction. }
      intros Hin. exfalso. revert Hin.
      destruct (existsb _ _); cbn [String.eqb Ascii.eqb Bool.eqb];
        [apply (Hw (ProxyServiceHTTPOnly.handleHTTP parse))
        |apply (Hw (fun c0 => bind (conn_Write (bytes_of ProxyServiceHTTPOnly.bad_request))
                                (fun _ => ret tt) c0))].
      * intros c0. unfold ProxyServiceHTTPOnly.handleHTTP, bind, http_ReadRequest.
        destruct (parse (pending c0) (ending c0)) as [[req|] rest].
        -- eexists [_], _. split; [reflexivity|]. intros t'.
           split; intros [H|H]%elem_of_cons; try discriminate;
             now apply elem_of_nil in H.
        -- exists [], rest. cbn. rewrite app_nil_r. split; [reflexivity|].
           intros t'. split; apply not_elem_of_nil.
      * intros c0. eexists [_], _. split; [reflexivity|]. intros t'.
        split; intros [H|H]%elem_of_cons; try discriminate;
          now apply elem_of_nil in H.
  - assert (E : ProxyServiceHTTPOnly.detectProtocol c
                = (("", Some (ending c)), c)).
    { unfold ProxyServiceHTTPOnly.detectProtocol, bind, Peek.
      destruct (7 <=? length (pending c))%nat eqn:E7.
      - apply Nat.leb_le in E7. destruct Hno. now left.
      - destruct (ending c) eqn:Ee; [destruct Hno; now right| |]; reflexivity. }
    rewrite E. unfold Spec.since. cbn. rewrite drop_all.
    intros [Hin|Hin]; now apply elem_of_nil in Hin.
Qed.

(** A read that does not find its bytes fails and leaves nothing
    unread. *)
Lemma ReadFull_short (n : nat) (p : list byte) e w t0 :
  length p < n ->
  exists err, ReadFull n (mkConn p e w t0) = ((p, Some err), mkConn [] e w t0).
Proof.
  intros Hlt. unfold ReadFull, set_pending. cbn.
  replace (n <=? length p)%nat with false by (symmetry; apply Nat.leb_gt; lia).
  eauto.
Qed.

(** A malformed CONNECT request gets no reply from socks5Connect, not
    even a failure frame: when the stream ends inside the four-byte
    header, when the version byte is not 0x05, and when it ends inside
    the address or the port of an IPv4 or domain-name request.  Nothing
    is dialled. *)
Theorem socks5Connect_malformed_request (c : Conn) :
  let res := ProxyService.socks5Connect dial c in
  let silent := fst res = false /\ trace (snd res) = trace c in
  (length (pending c) < 4 -> silent)
  /\ (forall v cmd rsv atyp tail,
        pending c = [v; cmd; rsv; atyp] ++ tail -> v <> x05 ->
        silent /\ pending (snd res) = tail)
  /\ (forall rsv tail,
        pending c = [x05; x01; rsv; x01] ++ tail -> length tail < 6 -> silent)
  /\ (forall rsv len tail,
        pending c = [x05; x01; rsv; x03; len] ++ tail ->
        length tail < Byte.to_nat len + 2 -> silent).
Proof.
  intros res silent. subst res silent. destruct c as [p e w t0].
  cbn [pending trace]. split; [|split; [|split]].
  - intros Hlen. unfold ProxyService.socks5Connect, bind.
    destruct (ReadFull_short 4 p e w t0 Hlen) as [err ->]. now split.
  - intros v cmd rsv atyp tail -> Hv.
    unfold ProxyService.socks5Connect, bind.
    rewrite (ReadFull_app [v; cmd; rsv; atyp] tail). cbn [nth].
    rewrite (byte_eqb_neq v x05 Hv). now repeat split.
  - intros rsv tail -> Hlen.
    assert (E : ProxyService.socks5Connect dial
                  (mkConn ([x05; x01; rsv; x01] ++ tail) e w t0)
                = (false, mkConn [] e w t0)).
    { rewrite socks5Connect_head.
      change (Byte.eqb x01 x01) with true. cbn [negb].
      unfold bind at 1. unfold ProxyService.read_targetAddr, bind at 1.
      destruct (le_lt_dec 4 (length tail)) as [H4|H4].
      - rewrite <- (take_drop 4 tail) at 1.
        assert (Hl : length (take 4 tail) = 4) by (rewrite length_take; lia).
        rewrite <- Hl at 1. rewrite ReadFull_app. cbv beta iota.
        unfold ret at 1. unfold bind.
        destruct (ReadFull_short 2 (drop 4 tail) e w t0) as [err ->];
          [rewrite length_drop; lia|]. reflexivity.
      - destruct (ReadFull_short 4 tail e w t0 H4) as [err ->]. reflexivity. }
    rewrite E. now split.
  - intros rsv len tail -> Hlen.
    assert (E : ProxyService.socks5Connect dial
                  (mkConn ([x05; x01; rsv; x03; len] ++ tail) e w t0)
                = (false, mkConn [] e w t0)).
    { change ([x05; x01; rsv; x03; len] ++ tail)
        with ([x05; x01; rsv; x03] ++ [len] ++ tail).
      rewrite socks5Connect_head.
      change (Byte.eqb x01 x01) with true. cbn [negb].
      unfold bind at 1. unfold ProxyService.read_targetAddr, bind at 1.
      rewrite (ReadFull_app [len] tail). cbv beta iota. cbn [nth].
      unfold bind at 1.
      destruct (le_lt_dec (Byte.to_nat len) (length tail)) as [Hn|Hn].
      - rewrite <- (take_drop (Byte.to_nat len) tail) at 1.
        assert (Hl : length (take (Byte.to_nat len) tail) = Byte.to_nat len)
          by (rewrite length_take; lia).
        rewrite <- Hl at 1. rewrite ReadFull_app. cbv beta iota.
        unfold ret at 1. unfold bind.
        destruct (ReadFull_short 2 (drop (Byte.to_nat len) tail) e w t0)
          as [err ->]; [rewrite length_drop; lia|]. reflexivity.
      - destruct (ReadFull_short _ tail e w t0 Hn) as [err ->]. reflexivity. }
    rewrite E. now split.
Qed.

(** The HTTP-only service drops a connection whose Peek fails with
    another error than io.EOF (a read deadline, a reset) before seven
    bytes have arrived: no reply, not even the 400 one, and nothing
    consumed; whereas a stream that ends with io.EOF before seven bytes
    is still classified on the bytes it has. *)
Theorem http_only_peek_error (c : Conn) :
  length (pending c) < 7 ->
  (ending c <> EOF ->
     ProxyServiceHTTPOnly.detectProtocol c = (("", Some (ending c)), c)
     /\ ProxyServiceHTTPOnly.handleConnection parse dial c = (tt, c))
  /\ (ending c = EOF ->
     ProxyServiceHTTPOnly.detectProtocol c
     = ((Spec.detect_by_stem (pending c), None), c)
     /\ (length (pending c) < 3 ->
         ProxyServiceHTTPOnly.handleConnection parse dial c
         = (tt, emit (Write (bytes_of ProxyServiceHTTPOnly.bad_request)) c))).
Proof.
  intros Hlen. split.
  - intros Hne.
    assert (E : ProxyServiceHTTPOnly.detectProtocol c
                = (("", Some (ending c)), c)).
    { unfold ProxyServiceHTTPOnly.detectProtocol, bind, Peek.
      replace (7 <=? length (pending c))%nat with false
        by (symmetry; apply Nat.leb_gt; lia).
      destruct (ending c); [now destruct Hne|reflexivity..]. }
    split; [exact E|].
    unfold ProxyServiceHTTPOnly.handleConnection, bind. now rewrite E.
  - intros He.
    assert (E : ProxyServiceHTTPOnly.detectProtocol c
                = ((Spec.detect_by_stem (pending c), None), c))
      by (apply detectProtocol_http_only_spec; now right).
    split; [exact E|]. intros H3.
    unfold ProxyServiceHTTPOnly.handleConnection, bind. rewrite E.
    unfold Spec.detect_by_stem. cbn [existsb].
    rewrite !starts_with_short by (cbn; lia). reflexivity.
Qed.

End ProxyExtra.

Lemma handleConnection_short_stream_witness :
  let parse := fun (_ : list byte) (_ : Net.error) =>
    (@None Net.Request, @nil byte) in
  let dial := fun _ : string => @None Net.error in
  let c := Net.mkConn [x05; x01; x00] (Net.ErrOther "i/o timeout") false [] in
  ProxyService.detectProtocol c = (("", Some (Net.ErrOther "i/o timeout")), c)
  /\ ProxyService.handleConnection parse dial c = (tt, c).
Proof.
  intros parse dial c.
  apply (handleConnection_short_stream parse dial c). cbn. lia.
Defined.

Lemma handleConnection_unknown_protocol_witness :
  let parse := fun (_ : list byte) (_ : Net.error) =>
    (@None Net.Request, @nil byte) in
  let dial := fun _ : string => @None Net.error in
  let c := Net.mkConn (bytes_of "HELO example.org") Net.EOF false [] in
  ProxyService.handleConnection parse dial c
  = (tt, Net.set_pending (bytes_of "LO example.org") c).
Proof.
  intros parse dial c.
  apply (handleConnection_unknown_protocol parse dial c "H" "E"
           (bytes_of "LO example.org"));
    [reflexivity|cbn; lia|reflexivity|discriminate].
Defined.

Lemma handleConnection_socks5_session_witness :
  let parse := fun (_ : list byte) (_ : Net.error) =>
    (@None Net.Request, @nil byte) in
  let dial := fun _ : string => @None Net.error in
  let c := Net.mkConn
             [x05; x01; x00; x05; x01; x00; x01; x5d; xb8; xd8; x22; x00; x50]
             Net.EOF false [] in
  Spec.since c (snd (ProxyService.handleConnection parse dial c))
  = [Net.Write [x05; x00]; Net.Dial "93.184.216.34:80";
     Net.Write (Spec.reply_frame x00); Net.Relay "93.184.216.34:80"]
  /\ Net.pending (snd (ProxyService.handleConnection parse dial c)) = [].
Proof.
  intros parse dial c.
  apply (handleConnection_socks5_session parse dial c x01 [x00]
           (Spec.mkConnectRequest x01 x00 (Spec.IPv4 x5d xb8 xd8 x22) (x00, x50))
           []); try reflexivity.
  cbn. lia.
Defined.

Lemma handleConnection_CONNECT_witness :
  let req := Net.mkRequest "CONNECT" "example.org:443" "example.org:443" in
  let parse := fun (_ : list byte) (_ : Net.error) => (Some req, @nil byte) in
  let dial := fun _ : string => Some (Net.ErrOther "connection refused") in
  let c := Net.mkConn (bytes_of "CONNECT example.org:443 HTTP/1.1")
             Net.EOF false [] in
  let bad_gateway :=
    [Net.Dial "example.org:443";
     Net.Write (bytes_of ("HTTP/1.1 502 Bad Gateway" +:+ CRLF +:+ CRLF))] in
  Spec.since c (snd (ProxyService.handleConnection parse dial c)) = bad_gateway
  /\ Spec.since c (snd (ProxyServiceHTTPOnly.handleConnection parse dial c))
     = bad_gateway.
Proof.
  intros req parse dial c bad_gateway.
  destruct (handleConnection_CONNECT parse dial c) as [H1 H2].
  split; [apply H1; [reflexivity|cbn; lia]|apply H2; reflexivity].
Defined.

Lemma http_only_reaches_network_only_for_CONNECT_witness :
  let req := Net.mkRequest "CONNECT" "example.org:443" "example.org:443" in
  let parse := fun (_ : list byte) (_ : Net.error) => (Some req, @nil byte) in
  let dial := fun _ : string => @None Net.error in
  let c := Net.mkConn (bytes_of "CONNECT example.org:443 HTTP/1.1")
             Net.EOF false [] in
  Spec.starts_with "CONNECT" (Net.pending c) = true
  /\ exists r, fst (parse (Net.pending c) (Net.ending c)) = Some r
               /\ "example.org:443" = Net.Host r.
Proof.
  intros req parse dial c.
  apply (http_only_reaches_network_only_for_CONNECT parse dial c
           "example.org:443").
  left. vm_compute. left.
Defined.

Lemma socks5Connect_malformed_request_witness :
  let dial := fun _ : string => @None Net.error in
  let c := Net.mkConn [x04; x01; x00; x50; x5d; xb8; xd8; x22; x00]
             Net.EOF false [] in
  fst (ProxyService.socks5Connect dial c) = false
  /\ Net.trace (snd (ProxyService.socks5Connect dial c)) = []
  /\ Net.pending (snd (ProxyService.socks5Connect dial c))
     = [x5d; xb8; xd8; x22; x00].
Proof.
  intros dial c.
  destruct (socks5Connect_malformed_request dial c) as (_ & Hv & _).
  destruct (Hv x04 x01 x00 x50 [x5d; xb8; xd8; x22; x00] eq_refl)
    as [[H1 H2] H3]; [discriminate|].
  split; [exact H1|]. split; [exact H2|exact H3].
Defined.

Lemma http_only_peek_error_witness :
  let parse := fun (_ : list byte) (_ : Net.error) =>
    (@None Net.Request, @nil byte) in
  let dial := fun _ : string => @None Net.error in
  let c := Net.mkConn (bytes_of "GE") (Net.ErrOther "i/o timeout") false [] in
  ProxyServiceHTTPOnly.handleConnection parse dial c = (tt, c).
Proof.
  intros parse dial c.
  destruct (http_only_peek_error parse dial c) as [H _]; [cbn; lia|].
  destruct H as [_ H]; [discriminate|exact H].
Defined.

(** * Properties of the state store *)

(** *** The base64 codec: decoding undoes encoding *)

Section Base64Facts.
Import Base64.
Local Open Scope Z_scope.

Lemma uint_range (b : byte) : 0 <= uint b < 256.
Proof.
  unfold uint. pose proof (Byte.to_N_bounded b). lia.
Qed.

Lemma byte_of_uint (b : byte) : byte_of (uint b) = b.
Proof.
  unfold byte_of. change 255 with (Z.ones 8).
  rewrite Z.land_ones by lia. pose proof (uint_range b).
  rewrite Z.mod_small by (change (2 ^ 8) with 256; lia).
  unfold uint. rewrite N2Z.id. now rewrite Byte.of_to_N.
Qed.

Lemma lor_add (x y k : Z) :
  0 <= k -> 0 <= y < 2 ^ k -> Z.lor (Z.shiftl x k) y = x * 2 ^ k + y.
Proof.
  intros Hk Hy. rewrite Z.shiftl_mul_pow2 by assumption.
  assert (H0 : Z.land (x * 2 ^ k) y = 0).
  { apply Z.bits_inj'. intros n Hn. rewrite Z.land_spec, Z.bits_0.
    destruct (Z.lt_ge_cases n k) as [Hlt|Hge].
    - rewrite Z.mul_pow2_bits_low by lia. reflexivity.
    - destruct (Z.eq_dec y 0) as [->|Hne]; [now rewrite Z.bits_0, andb_false_r|].
      rewrite (Z.bits_above_log2 y n), andb_false_r; [reflexivity|lia|].
      apply Z.log2_lt_pow2; [lia|]. 
      apply Z.lt_le_trans with (2 ^ k); [lia|]. apply Z.pow_le_mono_r; lia. }
  rewrite <- Z.lxor_lor by assumption.
  symmetry. now apply Z.add_nocarry_lxor.
Qed.

Lemma sextet (v k : Z) : 0 <= k -> Z.land (Z.shiftr v k) 63 = (v / 2 ^ k) mod 64.
Proof.
  intros Hk. rewrite Z.shiftr_div_pow2 by assumption.
  change 63 with (Z.ones 6). now rewrite Z.land_ones by lia.
Qed.

Lemma decodeMap_encode_at (i : Z) :
  0 <= i < 64 -> decodeMap (encode_at i) = Some i.
Proof.
  intros Hi.
  assert (H : forallb (fun n => match decodeMap (encode_at (Z.of_nat n)) with
                                | Some j => j =? Z.of_nat n
                                | None => false
                                end) (seq 0 64) = true) by (vm_compute; reflexivity).
  rewrite forallb_forall in H. specialize (H (Z.to_nat i)).
  rewrite Z2Nat.id in H by lia.
  destruct (decodeMap (encode_at i)) as [j|].
  - f_equal. apply Z.eqb_eq. apply H. apply in_seq. lia.
  - discriminate H. apply in_seq. lia.
Qed.


Lemma byte_of_mod (z : Z) (b : byte) : z mod 256 = uint b -> byte_of z = b.
Proof.
  intros H. rewrite <- (byte_of_uint b). unfold byte_of.
  change 255 with (Z.ones 8). rewrite !Z.land_ones by lia.
  change (2 ^ 8) with 256. rewrite H.
  pose proof (uint_range b). now rewrite Z.mod_small by lia.
Qed.

Lemma lor_multiple (q y k : Z) :
  0 <= k -> 0 <= y < 2 ^ k -> Z.lor (q * 2 ^ k) y = q * 2 ^ k + y.
Proof.
  intros Hk Hy. rewrite <- Z.shiftl_mul_pow2 by assumption.
  rewrite lor_add by assumption. now rewrite Z.shiftl_mul_pow2.
Qed.

Lemma quantum_val (s0 s1 s2 s3 : Z) :
  0 <= s0 < 64 -> 0 <= s1 < 64 -> 0 <= s2 < 64 -> 0 <= s3 < 64 ->
  Z.lor (Z.lor (Z.lor (Z.shiftl s0 18) (Z.shiftl s1 12)) (Z.shiftl s2 6)) s3
  = s0 * 262144 + s1 * 4096 + s2 * 64 + s3.
Proof.
  intros H0 H1 H2 H3.
  rewrite !Z.shiftl_mul_pow2 by lia.
  change (2 ^ 12) with 4096. change (2 ^ 18) with 262144. change (2 ^ 6) with 64.
  replace (s0 * 262144) with (s0 * 2 ^ 18) by reflexivity.
  rewrite (lor_multiple s0 (s1 * 4096) 18) by (change (2 ^ 18) with 262144; lia).
  replace (s0 * 2 ^ 18 + s1 * 4096) with ((s0 * 64 + s1) * 2 ^ 12)
    by (change (2 ^ 18) with 262144; change (2 ^ 12) with 4096; lia).
  rewrite (lor_multiple _ (s2 * 64) 12) by (change (2 ^ 12) with 4096; lia).
  replace ((s0 * 64 + s1) * 2 ^ 12 + s2 * 64) with ((s0 * 4096 + s1 * 64 + s2) * 2 ^ 6)
    by (change (2 ^ 6) with 64; change (2 ^ 12) with 4096; lia).
  rewrite (lor_multiple _ s3 6) by (change (2 ^ 6) with 64; lia).
  change (2 ^ 6) with 64. lia.
Qed.

Lemma val_3 (a b c : byte) :
  Z.lor (Z.lor (Z.shiftl (uint a) 16) (Z.shiftl (uint b) 8)) (uint c)
  = uint a * 65536 + uint b * 256 + uint c.
Proof.
  pose proof (uint_range a) as Ha. pose proof (uint_range b) as Hb.
  pose proof (uint_range c) as Hc.
  rewrite !Z.shiftl_mul_pow2 by lia.
  rewrite (lor_multiple (uint a) (uint b * 2 ^ 8) 16)
    by (change (2 ^ 16) with 65536; change (2 ^ 8) with 256; lia).
  replace (uint a * 2 ^ 16 + uint b * 2 ^ 8) with ((uint a * 256 + uint b) * 2 ^ 8)
    by (change (2 ^ 16) with 65536; change (2 ^ 8) with 256; lia).
  rewrite (lor_multiple _ (uint c) 8) by (change (2 ^ 8) with 256; lia).
  change (2 ^ 8) with 256. lia.
Qed.

Lemma quantum_3 (a b c : byte) :
  let val := Z.lor (Z.lor (Z.shiftl (uint a) 16) (Z.shiftl (uint b) 8)) (uint c) in
  quantum [Z.land (Z.shiftr val 18) 63; Z.land (Z.shiftr val 12) 63;
           Z.land (Z.shiftr val 6) 63; Z.land val 63]
  = [a; b; c].
Proof.
  intros val.
  pose proof (uint_range a) as Ha. pose proof (uint_range b) as Hb.
  pose proof (uint_range c) as Hc.
  assert (Hval : val = uint a * 65536 + uint b * 256 + uint c) by apply val_3.
  replace (Z.land val 63) with (Z.land (Z.shiftr val 0) 63) by now rewrite Z.shiftr_0_r.
  rewrite !sextet by lia.
  unfold quantum. cbn [nth length take Nat.sub].
  rewrite quantum_val by (apply Z.mod_pos_bound; lia).
  rewrite !Z.shiftr_div_pow2 by lia.
  change (2 ^ 18) with 262144. change (2 ^ 12) with 4096. change (2 ^ 6) with 64.
  change (2 ^ 0) with 1. change (2 ^ 16) with 65536. change (2 ^ 8) with 256.
  rewrite Hval. clear Hval val.
  f_equal; [|f_equal; [|f_equal]]; apply byte_of_mod.
  all: Z.div_mod_to_equations; lia.
Qed.


Lemma quantum_2 (a b : byte) :
  let val := Z.lor (Z.shiftl (uint a) 16) (Z.shiftl (uint b) 8) in
  quantum [Z.land (Z.shiftr val 18) 63; Z.land (Z.shiftr val 12) 63;
           Z.land (Z.shiftr val 6) 63]
  = [a; b].
Proof.
  intros val.
  pose proof (uint_range a) as Ha. pose proof (uint_range b) as Hb.
  assert (Hval : val = uint a * 65536 + uint b * 256).
  { unfold val. rewrite <- (Z.lor_0_r (Z.lor _ _)).
    change 0 with (uint x00) at 1. rewrite val_3. change (uint x00) with 0. lia. }
  rewrite !sextet by lia.
  unfold quantum. cbn [nth length take Nat.sub].
  rewrite quantum_val by (try apply Z.mod_pos_bound; lia).
  rewrite !Z.shiftr_div_pow2 by lia.
  change (2 ^ 18) with 262144. change (2 ^ 12) with 4096. change (2 ^ 6) with 64.
  change (2 ^ 16) with 65536. change (2 ^ 8) with 256.
  rewrite Hval. clear Hval val.
  f_equal; [|f_equal]; apply byte_of_mod.
  all: Z.div_mod_to_equations; lia.
Qed.

Lemma quantum_1 (a : byte) :
  let val := Z.shiftl (uint a) 16 in
  quantum [Z.land (Z.shiftr val 18) 63; Z.land (Z.shiftr val 12) 63] = [a].
Proof.
  intros val.
  pose proof (uint_range a) as Ha.
  assert (Hval : val = uint a * 65536).
  { unfold val. rewrite Z.shiftl_mul_pow2 by lia. reflexivity. }
  rewrite !sextet by lia.
  unfold quantum. cbn [nth length take Nat.sub].
  rewrite quantum_val by (try apply Z.mod_pos_bound; lia).
  rewrite !Z.shiftr_div_pow2 by lia.
  change (2 ^ 18) with 262144. change (2 ^ 12) with 4096.
  change (2 ^ 16) with 65536.
  rewrite Hval. clear Hval val.
  f_equal; apply byte_of_mod.
  Z.div_mod_to_equations; lia.
Qed.

Lemma Decode_sextet (v k : Z) (rest : list byte) (si : Z) (dbuf : list Z) :
  0 <= k ->
  Decode (encode_at (Z.land (Z.shiftr v k) 63) :: rest) si dbuf
  = if (length dbuf =? 3)%nat
    then let (dst, err) := Decode rest (si + 1) [] in
         (quantum (dbuf ++ [Z.land (Z.shiftr v k) 63]) ++ dst, err)
    else Decode rest (si + 1) (dbuf ++ [Z.land (Z.shiftr v k) 63]).
Proof.
  intros Hk. cbn [Decode]. rewrite decodeMap_encode_at; [reflexivity|].
  rewrite sextet by assumption. apply Z.mod_pos_bound. lia.
Qed.

Lemma Decode_Encode (src : list byte) (si : Z) :
  Decode (Encode src) si [] = (src, None).
Proof.
  remember (length src) as n eqn:Hn. revert src si Hn.
  induction n as [n IH] using lt_wf_ind. intros src si Hn.
  destruct src as [|a [|b [|c rest]]].
  - reflexivity.
  - cbn [Encode]. rewrite !Decode_sextet by lia. cbn [length Nat.eqb app Decode].
    now rewrite quantum_1.
  - cbn [Encode]. rewrite !Decode_sextet by lia. cbn [length Nat.eqb app Decode].
    now rewrite quantum_2.
  - cbn [Encode app].
    rewrite !Decode_sextet by lia. cbn [length Nat.eqb app].
    set (val := Z.lor (Z.lor (Z.shiftl (uint a) 16) (Z.shiftl (uint b) 8))
                      (uint c)).
    replace (Z.land val 63) with (Z.land (Z.shiftr val 0) 63)
      by now rewrite Z.shiftr_0_r.
    rewrite Decode_sextet by lia. cbn [length Nat.eqb app].
    rewrite (IH (length rest)) by (subst n; cbn; lia || reflexivity).
    rewrite Z.shiftr_0_r. unfold val. rewrite quantum_3. reflexivity.
Qed.

Lemma DecodeString_EncodeToString (src : list byte) :
  DecodeString (EncodeToString src) = (src, None).
Proof.
  unfold DecodeString, EncodeToString, bytes_of, string_of.
  rewrite list_byte_of_string_of_list_byte. apply Decode_Encode.
Qed.

Lemma EncodeToString_empty (src : list byte) :
  EncodeToString src = "" <-> src = [].
Proof.
  split; [|now intros ->].
  destruct src as [|a [|b [|c rest]]]; [reflexivity|discriminate..].
Qed.

(** A byte outside the alphabet, other than CR and LF, makes decoding
    fail wherever it stands. *)
Lemma Decode_corrupt (c : byte) (src : list byte) (si : Z) (dbuf : list Z) :
  c ∈ src -> decodeMap c = None -> c <> x0a -> c <> x0d ->
  exists off, snd (Decode src si dbuf) = Some (CorruptInputError off).
Proof.
  intros Hin Hc Hlf Hcr. revert si dbuf.
  induction src as [|c0 rest IH]; intros si dbuf.
  { now apply elem_of_nil in Hin. }
  cbn [Decode]. destruct (decodeMap c0) as [out|] eqn:E0.
  - assert (Hrest : c ∈ rest).
    { apply elem_of_cons in Hin as [->|Hin]; [congruence|exact Hin]. }
    destruct (length dbuf =? 3)%nat.
    + destruct (IH Hrest (si + 1) []) as [off Hoff].
      destruct (Decode rest (si + 1) []) as [dst err]. cbn in *. eauto.
    + apply (IH Hrest).
  - destruct (Byte.eqb c0 x0a || Byte.eqb c0 x0d) eqn:Enl.
    + assert (Hrest : c ∈ rest).
      { apply elem_of_cons in Hin as [->|Hin]; [|exact Hin].
        apply orb_true_iff in Enl as [E|E]; apply Byte.byte_dec_bl in E;
          congruence. }
      apply (IH Hrest).
    + cbn. eauto.
Qed.

End Base64Facts.

(** *** Values written are read back *)

#[global] Instance map_prefs_lawful : StateStore.LawfulPrefs (gmap string string).
Proof.
  split.
  - intros key value p p' [= <-]. cbn. now rewrite lookup_insert_eq.
  - intros key key' value p p' Hne [= <-]. cbn.
    now rewrite lookup_insert_ne.
Qed.

Section StoreFacts.
Import StateStore.
Context {P : Type} `{LawfulPrefs P}.

Lemma string_of_bytes_of (s : string) : string_of (bytes_of s) = s.
Proof. apply string_of_list_byte_of_string. Qed.

Lemma bytes_of_nil (s : string) : bytes_of s = [] <-> s = "".
Proof.
  split; [|now intros ->].
  intros E. rewrite <- (string_of_bytes_of s), E. reflexivity.
Qed.

Lemma read_write (key : string) (value : list byte) (p p' : P) :
  write key value p = (None, p') ->
  read key p' = (match value with [] => None | _ => Some value end, None).
Proof.
  unfold write, read. intros Hw.
  rewrite (decrypt_encrypt _ _ _ _ Hw).
  destruct (String.eqb_spec (Base64.EncodeToString value) "") as [E|E].
  - apply EncodeToString_empty in E. now subst value.
  - rewrite DecodeString_EncodeToString. cbn.
    destruct value; [|reflexivity]. now destruct E.
Qed.

Lemma read_write_other (key key' : string) (value : list byte) (p p' : P) :
  key <> key' ->
  write key value p = (None, p') ->
  read key' p' = read key' p.
Proof.
  unfold write, read. intros Hne Hw.
  now rewrite (decrypt_encrypt_other _ _ _ _ _ Hne Hw).
Qed.

Lemma prefKeyFor_inj (id id' : string) :
  prefKeyFor id = prefKeyFor id' -> id = id'.
Proof. unfold prefKeyFor. cbv [String.append]. now intros [= ->]. Qed.

(** What the typed reads return when there is no value to return, for
    every key and default.  When the Android side fails, they return
    the default (nil for ReadState) with its error.  When it returns the
    empty string, the key counts as missing: ReadString and ReadBool
    return the default with a nil error, ReadState returns
    ipn.ErrStateNotExist.  When the stored text holds a byte outside the
    base64 alphabet other than CR and LF (a padding character, say),
    they return the default with a base64.CorruptInputError. *)
Theorem reads_without_a_value (key def : string) (b : bool) (p : P) :
  let results (e : option error) (absent : option error) :=
    ReadString key def p = (def, e) /\ ReadBool key b p = (b, e)
    /\ forall id, prefKeyFor id = key -> ReadState id p = (None, absent) in
  (forall v e, DecryptFromPref key p = (v, Some e) ->
     results (Some e) (Some e))
  /\ (DecryptFromPref key p = ("", None) ->
      results None (Some ErrStateNotExist))
  /\ (forall v c, DecryptFromPref key p = (v, None) ->
        c ∈ bytes_of v -> Base64.decodeMap c = None ->
        c <> x0a -> c <> x0d ->
        exists off,
          results (Some (Base64Error (Base64.CorruptInputError off)))
                  (Some (Base64Error (Base64.CorruptInputError off)))).
Proof.
  intros results. subst results. cbv beta. split; [|split].
  - intros v e Hd. unfold ReadString, ReadBool, ReadState, read.
    rewrite Hd. repeat split. intros id <-. unfold read. now rewrite Hd.
  - intros Hd. unfold ReadString, ReadBool, ReadState, read.
    rewrite Hd. repeat split. intros id <-. unfold read. now rewrite Hd.
  - intros v c Hd Hin Hc Hlf Hcr.
    destruct (Decode_corrupt c (bytes_of v) 0 [] Hin Hc Hlf Hcr) as [off Hoff].
    exists off.
    assert (Hv : String.eqb v "" = false).
    { destruct v; [now apply elem_of_nil in Hin|reflexivity]. }
    assert (Hr : forall k, DecryptFromPref k p = (v, None) ->
                 exists data, read k p
                 = (Some data, Some (Base64Error (Base64.CorruptInputError off)))).
    { intros k Hk. unfold read. rewrite Hk, Hv. unfold Base64.DecodeString.
      destruct (Base64.Decode (bytes_of v) 0 []) as [data err].
      cbn in Hoff. subst err. eauto. }
    destruct (Hr key Hd) as [data Hread].
    unfold ReadString, ReadBool, ReadState. rewrite Hread.
    repeat split. intros id <-. now rewrite Hread.
Qed.

(** What stateStore.write has stored, stateStore.read returns: after a
    write that succeeded, read of the same key yields the bytes written,
    base64 decoding undoing the encoding.  An empty value is the one
    exception: it is stored as the empty string, which read takes for a
    missing key and answers with nil.  Other keys read as before. *)
Theorem read_after_write (key : string) (value : list byte) (p p' : P) :
  write key value p = (None, p') ->
  (value <> [] -> read key p' = (Some value, None))
  /\ (value = [] -> read key p' = (None, None))
  /\ (forall key', key' <> key -> read key' p' = read key' p).
Proof.
  intros Hw. repeat split.
  - intros Hne. rewrite (read_write _ _ _ _ Hw). destruct value; congruence.
  - intros ->. now rewrite (read_write _ _ _ _ Hw).
  - intros key' Hne.
    apply (read_write_other key key' value p p'); [congruence|assumption].
Qed.

(** After WriteString(key, val) has succeeded, ReadString(key, def)
    returns val with a nil error, whatever the default; except that an
    empty val reads back as the default. *)
Theorem ReadString_after_WriteString (key val def : string) (p p' : P) :
  WriteString key val p = (None, p') ->
  ReadString key def p' = (if String.eqb val "" then def else val, None).
Proof.
  unfold WriteString, ReadString. intros Hw.
  rewrite (read_write _ _ _ _ Hw).
  destruct (String.eqb_spec val "") as [->|Hne]; [reflexivity|].
  destruct (bytes_of val) eqn:E.
  - apply bytes_of_nil in E. contradiction.
  - now rewrite <- E, string_of_bytes_of.
Qed.

(** After WriteBool(key, val) has succeeded, ReadBool(key, def) returns
    val with a nil error, for both values and whatever the default. *)
Theorem ReadBool_after_WriteBool (key : string) (val def : bool) (p p' : P) :
  WriteBool key val p = (None, p') ->
  ReadBool key def p' = (val, None).
Proof.
  unfold WriteBool, ReadBool. intros Hw.
  rewrite (read_write _ _ _ _ Hw). now destruct val.
Qed.

(** After WriteState(id, bs) has succeeded, ReadState(id) returns bs
    with a nil error; except that after writing an empty state it
    returns nil and ipn.ErrStateNotExist, as for a state never written. *)
Theorem ReadState_after_WriteState (id : string) (bs : list byte) (p p' : P) :
  WriteState id bs p = (None, p') ->
  ReadState id p'
  = match bs with
    | [] => (None, Some ErrStateNotExist)
    | _ => (Some bs, None)
    end.
Proof.
  unfold WriteState, ReadState. intros Hw.
  rewrite (read_write _ _ _ _ Hw). now destruct bs.
Qed.

(** WriteState(id, bs) stores under the preference key "statestore-"
    followed by id and nowhere else: the states of all other ids and the
    strings and booleans under all other keys read as before, and the
    state itself can be read as a string under that key. *)
Theorem WriteState_keeps_other_states (id : string) (bs : list byte) (p p' : P) :
  WriteState id bs p = (None, p') ->
  (forall id', id' <> id -> ReadState id' p' = ReadState id' p)
  /\ (forall key def, key <> prefKeyFor id ->
        ReadString key def p' = ReadString key def p
        /\ forall b, ReadBool key b p' = ReadBool key b p)
  /\ (bs <> [] -> forall def,
        ReadString (prefKeyFor id) def p' = (string_of bs, None)).
Proof.
  unfold WriteState. intros Hw. repeat split.
  - intros id' Hne. unfold ReadState.
    assert (Hk : prefKeyFor id <> prefKeyFor id')
      by (intros E; apply prefKeyFor_inj in E; congruence).
    now rewrite (read_write_other _ _ _ _ _ Hk Hw).
  - unfold ReadString.
    assert (Hk : prefKeyFor id <> key) by congruence.
    now rewrite (read_write_other _ _ _ _ _ Hk Hw).
  - intros b. unfold ReadBool.
    assert (Hk : prefKeyFor id <> key) by congruence.
    now rewrite (read_write_other _ _ _ _ _ Hk Hw).
  - intros Hne def. unfold ReadString.
    rewrite (read_write _ _ _ _ Hw). destruct bs; congruence.
Qed.

End StoreFacts.

Lemma reads_without_a_value_witness :
  let p : gmap string string := {[ "loginmethod" := "Z29vZ2xl=" ]} in
  StateStore.ReadString "customloginserver" "none" p = ("none", None)
  /\ exists off,
       StateStore.ReadString "loginmethod" "none" p
       = ("none", Some (StateStore.Base64Error (Base64.CorruptInputError off))).
Proof.
  intros p. split.
  - destruct (reads_without_a_value "customloginserver" "none" false p)
      as (_ & Hmissing & _).
    apply Hmissing. reflexivity.
  - destruct (reads_without_a_value "loginmethod" "none" false p)
      as (_ & _ & Hcorrupt).
    destruct (Hcorrupt "Z29vZ2xl=" "="%byte) as (off & H & _);
      [reflexivity|vm_compute; do 8 right; left|reflexivity
      |discriminate|discriminate|].
    exists off. exact H.
Defined.

Lemma read_after_write_witness :
  let p := @snd (option StateStore.error) (gmap string string)
             (StateStore.write "privatelogid" (bytes_of "dead0000") ∅) in
  StateStore.read "privatelogid" p = (Some (bytes_of "dead0000"), None)
  /\ StateStore.read "loginmethod" p = StateStore.read "loginmethod" ∅.
Proof.
  intros p.
  assert (Hw : StateStore.write "privatelogid" (bytes_of "dead0000")
                 (∅ : gmap string string) = (None, p)) by reflexivity.
  destruct (read_after_write _ _ _ _ Hw) as (Hv & _ & Ho).
  split; [apply Hv; discriminate|apply Ho; discriminate].
Defined.

Lemma ReadString_after_WriteString_witness :
  let p := @snd (option StateStore.error) (gmap string string)
             (StateStore.WriteString "loginmethod" "google" ∅) in
  StateStore.ReadString "loginmethod" "" p = ("google", None).
Proof.
  intros p.
  assert (Hw : StateStore.WriteString "loginmethod" "google"
                 (∅ : gmap string string) = (None, p)) by reflexivity.
  exact (ReadString_after_WriteString _ _ "" _ _ Hw).
Defined.

Lemma ReadBool_after_WriteBool_witness :
  let p := @snd (option StateStore.error) (gmap string string)
             (StateStore.WriteBool "flag" true ∅) in
  StateStore.ReadBool "flag" false p = (true, None).
Proof.
  intros p.
  assert (Hw : StateStore.WriteBool "flag" true
                 (∅ : gmap string string) = (None, p)) by reflexivity.
  exact (ReadBool_after_WriteBool _ _ false _ _ Hw).
Defined.

Lemma ReadState_after_WriteState_witness :
  let p := @snd (option StateStore.error) (gmap string string)
             (StateStore.WriteState "_daemon" [x01; x02] ∅) in
  StateStore.ReadState "_daemon" p = (Some [x01; x02], None).
Proof.
  intros p.
  assert (Hw : StateStore.WriteState "_daemon" [x01; x02]
                 (∅ : gmap string string) = (None, p)) by reflexivity.
  exact (ReadState_after_WriteState _ _ _ _ Hw).
Defined.

Lemma WriteState_keeps_other_states_witness :
  let p0 := @snd (option StateStore.error) (gmap string string)
              (StateStore.WriteState "_daemon" [x01; x02] ∅) in
  let p := @snd (option StateStore.error) (gmap string string)
             (StateStore.WriteState "profile-0001" [x03] p0) in
  StateStore.ReadState "_daemon" p = (Some [x01; x02], None).
Proof.
  intros p0 p.
  assert (Hw : StateStore.WriteState "profile-0001" [x03] p0 = (None, p))
    by reflexivity.
  destruct (WriteState_keeps_other_states _ _ _ _ Hw) as (Hother & _).
  rewrite Hother by discriminate. vm_compute. reflexivity.
Defined.


(** * Properties of starting and stopping the proxy service *)

Section ProxyControlFacts.
Import ProxyControl.

Lemma control_inv_init : control_inv init.
Proof. split; [discriminate|]. intros i ps H. cbn in H. discriminate. Qed.

Lemma global_running_live (s : process) :
  control_inv s ->
  global_running s = bool_decide (globalProxyService s <> None).
Proof.
  intros [Hg _]. unfold global_running.
  destruct (globalProxyService s) as [g|]; [|reflexivity].
  destruct (Hg g eq_refl) as (ps & -> & _ & -> & _). reflexivity.
Qed.

Lemma net_Listen_stopped (addr0 : string) (taken : bool) (s : process) :
  (forall i ps, services s !! i = Some ps -> stopped ps) ->
  net_Listen addr0 taken s = negb taken.
Proof.
  intros Hall. unfold net_Listen.
  replace (existsb _ (services s)) with false; [now rewrite andb_true_r|].
  symmetry. apply not_true_is_false. intros (ps & Hin & Hopen)%existsb_exists.
  apply list_elem_of_In, list_elem_of_lookup in Hin as [i Hi].
  destruct (Hall i ps Hi) as (Hl & _). rewrite Hl in Hopen. discriminate.
Qed.

Lemma start_inv (addr0 : string) (taken : bool) (s : process) :
  control_inv s -> control_inv (snd (startProxyService addr0 taken s)).
Proof.
  intros Hinv. unfold startProxyService.
  rewrite (global_running_live s Hinv).
  destruct (globalProxyService s) as [g|] eqn:Hg; [exact Hinv|].
  cbn [bool_decide]. 
  destruct (negb (net_Listen addr0 taken s)); [exact Hinv|].
  destruct Hinv as [_ Hothers]. split; cbn.
  - intros g [= <-]. eexists. rewrite lookup_app_r by lia.
    rewrite Nat.sub_diag. split; [reflexivity|]. now split.
  - intros i ps Hi Hne.
    destruct (decide (i < length (services s))) as [Hlt|Hge].
    + rewrite lookup_app_l in Hi by assumption.
      apply (Hothers i ps Hi). congruence.
    + rewrite lookup_app_r in Hi by lia.
      destruct (i - length (services s)) as [|k] eqn:Hk; [|now destruct k].
      destruct Hne. f_equal. lia.
Qed.

Lemma stop_all_stopped (s : process) :
  control_inv s ->
  globalProxyService (stopProxyService s) = None
  /\ forall i ps, services (stopProxyService s) !! i = Some ps -> stopped ps.
Proof.
  intros [Hg Hothers]. unfold stopProxyService.
  destruct (globalProxyService s) as [g|] eqn:Eg.
  - destruct (Hg g eq_refl) as (ps & Hps & _). rewrite Hps. cbn.
    split; [reflexivity|]. intros i ps' Hi.
    destruct (decide (i = g)) as [->|Hne].
    + rewrite list_lookup_insert_eq in Hi by (now apply lookup_lt_Some in Hps).
      injection Hi as <-. now repeat split.
    + rewrite list_lookup_insert_ne in Hi by congruence.
      apply (Hothers i ps' Hi). congruence.
  - split; [assumption|]. intros i ps Hi. apply (Hothers i ps Hi).
    congruence.
Qed.

Lemma stop_inv (s : process) : control_inv s -> control_inv (stopProxyService s).
Proof.
  intros Hinv. destruct (stop_all_stopped s Hinv) as [Hn Hall].
  split.
  - intros g Hg. rewrite Hn in Hg. discriminate.
  - intros i ps Hi _. now apply (Hall i ps).
Qed.

Lemma serve_same (i : nat) (ev : serve_event) (s s' : process) (b : bool) :
  serve i ev s = Some (s', b) ->
  services s' = services s /\ globalProxyService s' = globalProxyService s.
Proof.
  unfold serve. destruct (negb _); [discriminate|].
  destruct (services s !! i) as [ps|]; [|discriminate]. cbn.
  destruct (ctx_done ps); [now intros [= <- <-]|].
  destruct ev; [destruct (listener_open ps)|]; intros [= <- <-]; auto.
Qed.

Lemma reachable_control_inv (s : process) : reachable s -> control_inv s.
Proof.
  induction 1 as [|s a s' _ IH Hact]; [apply control_inv_init|].
  destruct a as [addr0 taken| |i ev]; cbn in Hact.
  - injection Hact as <-. now apply start_inv.
  - injection Hact as <-. now apply stop_inv.
  - destruct (serve i ev s) as [[s1 b]|] eqn:Hs; [|discriminate].
    injection Hact as <-. apply serve_same in Hs as [Hsv Hgl].
    destruct IH as [Hg Ho]. split.
    + intros g. rewrite Hgl, Hsv. apply Hg.
    + intros j ps. rewrite Hgl, Hsv. apply Ho.
Qed.

(** However startProxyService and stopProxyService are called and
    whatever the serve goroutines do, the process never has two
    listeners: of all the services ever allocated, exactly the one
    globalProxyService points to has its listener open; it is running
    and its context is not cancelled, and every other service is closed,
    stopped and cancelled. *)
Theorem one_listener (s : process) :
  reachable s ->
  forall i ps, services s !! i = Some ps ->
    (listener_open ps = true <-> globalProxyService s = Some i)
    /\ running ps = listener_open ps
    /\ ctx_done ps = negb (listener_open ps).
Proof.
  intros Hreach i ps Hi.
  destruct (reachable_control_inv s Hreach) as [Hg Ho].
  destruct (decide (globalProxyService s = Some i)) as [E|E].
  - destruct (Hg i E) as (ps' & Hps' & Hl & Hr & Hc).
    rewrite Hi in Hps'. injection Hps' as <-.
    rewrite Hl, Hr, Hc. now repeat split.
  - destruct (Ho i ps Hi E) as (Hl & Hr & Hc).
    rewrite Hl, Hr, Hc. repeat split; [discriminate|contradiction].
Qed.

(** startProxyService while a service is installed does nothing: it
    returns nil and changes nothing, it does not even try to listen. *)
Theorem start_while_running (s : process) (addr0 : string) (taken : bool) :
  reachable s ->
  globalProxyService s <> None ->
  startProxyService addr0 taken s = (None, s).
Proof.
  intros Hreach Hg. unfold startProxyService.
  rewrite (global_running_live s (reachable_control_inv s Hreach)).
  now rewrite bool_decide_eq_true_2.
Qed.

(** After stopProxyService, globalProxyService is nil and no listener
    of the process is open; every serve goroutine returns at its next
    iteration without accepting a connection; and startProxyService
    listens again: it fails only when another process holds the port,
    and otherwise installs a fresh running service. *)
Theorem start_after_stop (s : process) (addr0 : string) (taken : bool) :
  reachable s ->
  let s1 := stopProxyService s in
  globalProxyService s1 = None
  /\ (forall i ps, services s1 !! i = Some ps -> listener_open ps = false)
  /\ (forall i ev r, serve i ev s1 = Some r ->
        snd r = true /\ handling (fst r) = handling s
        /\ i ∉ serving (fst r))
  /\ (taken = true ->
        startProxyService addr0 taken s1 = (Some (ListenError addr0), s1))
  /\ (taken = false ->
        exists s2, startProxyService addr0 taken s1 = (None, s2)
          /\ globalProxyService s2 = Some (length (services s))
          /\ services s2 !! length (services s)
             = Some (mkProxyService true false true addr0)).
Proof.
  intros Hreach s1.
  pose proof (reachable_control_inv s Hreach) as Hinv.
  destruct (stop_all_stopped s Hinv) as [Hn Hall]. fold s1 in Hn, Hall.
  assert (Hlen : length (services s1) = length (services s)).
  { unfold s1, stopProxyService.
    destruct (globalProxyService s) as [g|]; [|reflexivity].
    destruct (services s !! g); [|reflexivity]. cbn. apply length_insert. }
  assert (Hh : handling s1 = handling s).
  { unfold s1, stopProxyService.
    destruct (globalProxyService s) as [g|]; [|reflexivity].
    now destruct (services s !! g). }
  assert (Hrun : global_running s1 = false).
  { unfold global_running. now rewrite Hn. }
  split; [exact Hn|]. split; [intros i ps Hi; apply (Hall i ps Hi)|].
  split; [|split].
  - intros i ev [s2 b]. unfold serve.
    destruct (negb _); [discriminate|].
    destruct (services s1 !! i) as [ps|] eqn:Hi; [|discriminate]. cbn.
    destruct (Hall i ps Hi) as (_ & _ & ->).
    intros [= <- <-]. cbn. repeat split; [assumption|].
    intros Hin%list_elem_of_filter. now destruct Hin.
  - intros ->. unfold startProxyService. rewrite Hrun.
    now rewrite (net_Listen_stopped addr0 true s1 Hall).
  - intros ->. unfold startProxyService. rewrite Hrun.
    rewrite (net_Listen_stopped addr0 false s1 Hall). cbn [negb].
    eexists. split; [reflexivity|]. cbn. rewrite Hlen. split; [reflexivity|].
    rewrite lookup_app_r by lia. now rewrite Hlen, Nat.sub_diag.
Qed.

End ProxyControlFacts.

Lemma one_listener_witness :
  let s := ProxyControl.mkProcess
             [ProxyControl.mkProxyService false true false "0.0.0.0:8339";
              ProxyControl.mkProxyService true false true "0.0.0.0:8339"]
             (Some 1) [0; 1] [] in
  ProxyControl.act (ProxyControl.Start "0.0.0.0:8339" false)
    (ProxyControl.stopProxyService
       (snd (ProxyControl.startProxyService "0.0.0.0:8339" false
               ProxyControl.init)))
  = Some s
  /\ forall i ps, ProxyControl.services s !! i = Some ps ->
       (ProxyControl.listener_open ps = true
        <-> ProxyControl.globalProxyService s = Some i).
Proof.
  intros s. split; [reflexivity|].
  assert (Hreach : ProxyControl.reachable s).
  { apply (ProxyControl.reachable_act _ (ProxyControl.Start "0.0.0.0:8339" false)
             _ (ProxyControl.reachable_act _ ProxyControl.Stop
                  _ (ProxyControl.reachable_act _
                       (ProxyControl.Start "0.0.0.0:8339" false)
                       _ ProxyControl.reachable_init eq_refl) eq_refl)).
    reflexivity. }
  intros i ps Hi. apply (one_listener s Hreach i ps Hi).
Defined.

Lemma start_while_running_witness :
  let s := snd (ProxyControl.startProxyService "0.0.0.0:8339" false
                  ProxyControl.init) in
  ProxyControl.startProxyService "0.0.0.0:8339" false s = (None, s).
Proof.
  intros s. apply start_while_running; [|discriminate].
  apply (ProxyControl.reachable_act ProxyControl.init
           (ProxyControl.Start "0.0.0.0:8339" false));
    [apply ProxyControl.reachable_init|reflexivity].
Defined.

Lemma start_after_stop_witness :
  let s := snd (ProxyControl.startProxyService "0.0.0.0:8339" false
                  ProxyControl.init) in
  ProxyControl.globalProxyService (ProxyControl.stopProxyService s) = None
  /\ exists s2,
       ProxyControl.startProxyService "0.0.0.0:8339" false
         (ProxyControl.stopProxyService s) = (None, s2)
       /\ ProxyControl.globalProxyService s2 = Some 1.
Proof.
  intros s.
  assert (Hreach : ProxyControl.reachable s).
  { apply (ProxyControl.reachable_act ProxyControl.init
             (ProxyControl.Start "0.0.0.0:8339" false));
      [apply ProxyControl.reachable_init|reflexivity]. }
  destruct (start_after_stop s "0.0.0.0:8339" false Hreach)
    as (Hnil & _ & _ & _ & Hstart).
  split; [exact Hnil|].
  destruct (Hstart eq_refl) as (s2 & E & Hg & _).
  exists s2. split; [exact E|exact Hg].
Defined.


(** * Properties of relay *)

Section RelayFacts.
Import Relay.

Lemma relay_inv_start : relay_inv start.
Proof. repeat split; cbn; (lia || discriminate). Qed.

Lemma relay_inv_step ev s s' :
  relay_inv s -> step ev s = Some s' -> relay_inv s'.
Proof.
  intros (Hn & Ht & Hc) Hstep.
  destruct s as [g1 g2 n r cc tc]; cbn in Hn, Ht, Hc.
  unfold step in Hstep.
  destruct ev as [[|]|[|]|];
    cbn [goroutine to_target to_client done returned] in Hstep.
  - destruct g1; try discriminate. injection Hstep as <-.
    repeat split; cbn in *; auto.
  - destruct g2; try discriminate. injection Hstep as <-.
    repeat split; cbn in *; auto.
  - destruct g1; try discriminate.
    destruct (n <? 2)%nat; [|discriminate].
    injection Hstep as <-. repeat split; cbn in *; auto;
      destruct r, g2; cbn in *; lia.
  - destruct g2; try discriminate.
    destruct (n <? 2)%nat; [|discriminate].
    injection Hstep as <-. repeat split; cbn in *; auto;
      destruct r, g1; cbn in *; lia.
  - destruct r; [discriminate|]. destruct n; [discriminate|].
    injection Hstep as <-. repeat split; cbn in *; auto; lia.
Qed.

Lemma reachable_relay_inv s : reachable s -> relay_inv s.
Proof.
  induction 1 as [|s ev s' _ IH Hstep]; [apply relay_inv_start|].
  now apply (relay_inv_step ev s).
Qed.

(** However the two copies end, no goroutine of relay is ever blocked in
    its send on done: the channel, of capacity 2, has room whenever one
    is at the send.  relay returns only after a copy has ended and its
    goroutine has closed the connection it copied to, and it receives
    from done at most once. *)
Theorem relay_send_never_blocks (s : state) :
  reachable s ->
  (forall d, goroutine d s = Sending -> exists s', step (Send d) s = Some s')
  /\ done s <= 2
  /\ (returned s = true ->
      (to_target s = Finished /\ target_closed s = true)
      \/ (to_client s = Finished /\ client_closed s = true))
  /\ (returned s = true -> step Receive s = None).
Proof.
  intros Hreach. destruct (reachable_relay_inv s Hreach) as (Hn & Ht & Hc).
  destruct s as [g1 g2 n r cc tc]; cbn in Hn, Ht, Hc.
  cbn [done returned to_target to_client target_closed client_closed].
  split; [|split; [|split]].
  - intros d Hg. unfold step. rewrite Hg. cbn [done].
    assert (Hlt : (n <? 2)%nat = true).
    { assert (Hle : forall g, sent g <= 1) by (intros []; cbn; lia).
      pose proof (Hle g1). pose proof (Hle g2).
      apply Nat.ltb_lt. destruct d; cbn in Hg; rewrite Hg in Hn; cbn in Hn;
        destruct r; lia. }
    rewrite Hlt. eauto.
  - destruct r, g1, g2; cbn in *; lia.
  - intros ->. destruct g1, g2; cbn in *; try lia; auto.
  - intros ->. reflexivity.
Qed.

End RelayFacts.

Lemma relay_send_never_blocks_witness :
  exists s,
    Relay.step (Relay.CopyEnds Relay.ToTarget) Relay.start = Some s
    /\ exists s', Relay.step (Relay.Send Relay.ToTarget) s = Some s'.
Proof.
  eexists. split; [reflexivity|].
  apply (relay_send_never_blocks _
           (Relay.reachable_step _ (Relay.CopyEnds Relay.ToTarget) _
              Relay.reachable_start eq_refl)).
  reflexivity.
Defined.

(** * Properties of the device multiplexer *)

Section MultiTUNFacts.
Import MultiTUN Invariant.

Lemma heap_insert_lookup (h : list tunDevice) w td x w' :
  h !! w = Some td ->
  <[w := x]> h !! w' = if decide (w = w') then Some x else h !! w'.
Proof.
  intros H. destruct (decide (w = w')) as [<-|Hne].
  - apply list_lookup_insert_eq. eapply lookup_lt_Some; eauto.
  - now apply list_lookup_insert_ne.
Qed.

Lemma step_not_panicked l s s' o :
  step l s = Some (s', o) -> panicked s = false.
Proof. unfold step. now destruct (panicked s). Qed.

Lemma inv_new : inv newTUNDevices.
Proof.
  split; cbn.
  - intros w H. inversion H.
  - intros i w H. inversion H.
  - now left.
  - intros w H. inversion H.
  - intros w e H. inversion H.
  - intros w H. inversion H.
Qed.

Lemma inv_open_new : inv_open newTUNDevices.
Proof.
  split; cbn; auto.
  - now left.
  - intros w H. inversion H.
Qed.

(** *** Flags of the wrappers under heap updates *)

Lemma heap_set_close (h : list tunDevice) w td w' :
  h !! w = Some td ->
  close <$> <[w := set_close td]> h !! w'
    = (if decide (w = w') then Some true else close <$> h !! w')
  /\ readDone <$> <[w := set_close td]> h !! w' = readDone <$> h !! w'
  /\ dev_closed <$> <[w := set_close td]> h !! w' = dev_closed <$> h !! w'.
Proof.
  intros H. rewrite (heap_insert_lookup h w td _ w' H).
  destruct (decide (w = w')) as [<-|]; [rewrite H|]; auto.
Qed.

Lemma heap_set_readDone (h : list tunDevice) w td b w' :
  h !! w = Some td ->
  readDone <$> <[w := set_readDone b td]> h !! w'
    = (if decide (w = w') then Some b else readDone <$> h !! w')
  /\ close <$> <[w := set_readDone b td]> h !! w' = close <$> h !! w'
  /\ dev_closed <$> <[w := set_readDone b td]> h !! w' = dev_closed <$> h !! w'.
Proof.
  intros H. rewrite (heap_insert_lookup h w td _ w' H).
  destruct (decide (w = w')) as [<-|]; [rewrite H|]; auto.
Qed.

Lemma heap_set_dev_closed (h : list tunDevice) w td w' :
  h !! w = Some td ->
  dev_closed <$> <[w := set_dev_closed td]> h !! w'
    = (if decide (w = w') then Some true else dev_closed <$> h !! w')
  /\ close <$> <[w := set_dev_closed td]> h !! w' = close <$> h !! w'
  /\ readDone <$> <[w := set_dev_closed td]> h !! w' = readDone <$> h !! w'.
Proof.
  intros H. rewrite (heap_insert_lookup h w td _ w' H).
  destruct (decide (w = w')) as [<-|]; [rewrite H|]; auto.
Qed.

Lemma heap_snoc_old {A} (f : tunDevice -> A) (h : list tunDevice) x w v :
  f <$> h !! w = Some v -> f <$> (h ++ [x]) !! w = Some v.
Proof.
  destruct (h !! w) as [td|] eqn:E; [|discriminate].
  intros H. now rewrite (lookup_app_l_Some _ _ _ _ E).
Qed.

Lemma heap_snoc_inv {A} (f : tunDevice -> A) (h : list tunDevice) x w v :
  f <$> (h ++ [x]) !! w = Some v ->
  f <$> h !! w = Some v \/ (w = length h /\ f x = v).
Proof.
  destruct (decide (w < length h)) as [Hlt|Hge].
  - rewrite lookup_app_l by assumption. auto.
  - rewrite lookup_app_r by lia.
    destruct (w - length h) as [|k] eqn:E; cbn; [|discriminate].
    intros [= <-]. right. split; [lia|reflexivity].
Qed.

Lemma heap_snoc_new {A} (f : tunDevice -> A) (h : list tunDevice) x :
  f <$> (h ++ [x]) !! length h = Some (f x).
Proof.
  rewrite lookup_app_r by lia. now rewrite Nat.sub_diag.
Qed.

(** *** Goroutine pools *)

Lemma take_out_elem {A} `{EqDecision A} (g : A) gs r :
  take_out g gs = Some r -> g ∈ gs /\ forall x, x ∈ r -> x ∈ gs.
Proof.
  revert r. induction gs as [|g' gs IH]; cbn; [discriminate|].
  intros r. destruct (decide (g' = g)) as [->|Hne].
  - intros [= <-]. split; [left|]. intros x Hx. now right.
  - destruct (take_out g gs) as [r'|]; [|discriminate].
    intros [= <-]. destruct (IH r' eq_refl) as [Hin Hsub].
    split; [now right|]. intros x [->|Hx]%elem_of_cons; [left|right; auto].
Qed.

Lemma recv_closeDone_elem w gs e r :
  recv_closeDone w gs = Some (e, r) ->
  (w, SendCloseDone e) ∈ gs /\ forall x, x ∈ r -> x ∈ gs.
Proof.
  revert e r. induction gs as [|[w' pc] gs IH]; cbn; [discriminate|].
  intros e r. destruct pc as [|e'].
  - destruct (recv_closeDone w gs) as [[e1 r1]|]; [|discriminate].
    intros [= <- <-]. destruct (IH e1 r1 eq_refl) as [Hin Hsub].
    split; [now right|]. intros x [->|Hx]%elem_of_cons; [left|right; auto].
  - destruct (decide (w' = w)) as [->|Hne].
    + intros [= <- <-]. split; [left|]. intros x Hx. now right.
    + destruct (recv_closeDone w gs) as [[e1 r1]|]; [|discriminate].
      intros [= <- <-]. destruct (IH e1 r1 eq_refl) as [Hin Hsub].
      split; [now right|]. intros x [->|Hx]%elem_of_cons; [left|right; auto].
Qed.

(** *** Each step keeps the invariants *)

Ltac unfold_inv :=
  unfold shutdown_shape in *;
  unfold older_closed, reader_at_head, signal_at_head, parked_closed,
    newest_open, no_signal, writer_shape, signal_closed,
    shutdown_writers in *;
  unfold signalled, device_closed, chan_closed, chan_open in *.

Lemma singleton_elem {A} (x y : A) : x ∈ [y] -> x = y.
Proof. intros H. apply list_elem_of_singleton in H. exact H. Qed.

Lemma readFrom_return_inv w s s' :
  inv s -> readFrom_return w s = Some s' ->
  inv s' /\ closed s' = closed s /\ panicked s' = panicked s
  /\ (inv_open s -> chan_closed s w -> inv_open s').
Proof.
  intros [Hptr Hold Hrd Hsig Hpk Hsh] Hret.
  unfold readFrom_return in Hret.
  destruct (take_out (w, AtReads) (readFroms s)) as [gs|] eqn:Hout;
    [|discriminate]. cbn in Hret.
  destruct (heap s !! w) as [td|] eqn:Htd; [|discriminate]. cbn in Hret.
  destruct Hrd as [Hrd|(w0 & Hrd & Hhead & Hvar)];
    rewrite Hrd in Hout; cbn in Hout; [discriminate|].
  destruct (decide ((w0, AtReads) = (w, AtReads))) as [[= ->]|]; [|discriminate].
  injection Hout as <-.
  destruct (readDone td) eqn:Hsigw.
  { destruct (Hsig w) as (_ & Hno & _).
    - unfold signalled. now rewrite Htd; cbn; rewrite Hsigw.
    - rewrite Hrd in Hno. discriminate. }
  injection Hret as <-.
  assert (Hnosig : forall w', ~ signalled s w').
  { intros w' H'. destruct (Hsig w' H') as (_ & Hno & _).
    rewrite Hrd in Hno. discriminate. }
  pose proof (fun w' => heap_set_readDone (heap s) w td true w' Htd) as Hflags.
  destruct s as [h ds rv wv pc rs ws cl pn]; cbn in *.
  split; [|split; [reflexivity|split; [reflexivity|]]].
  - split; cbn.
    + intros w' Hin. rewrite length_insert. auto.
    + intros i w' Hi Hlt. unfold chan_closed; cbn.
      destruct (Hflags w') as (_ & -> & _). now apply (Hold i w').
    + now left.
    + intros w' Hs. unfold signalled in Hs; cbn in Hs.
      destruct (Hflags w') as (Hf & _). rewrite Hf in Hs.
      destruct (decide (w = w')) as [<-|]; [auto|].
      now destruct (Hnosig w').
    + intros w' e Hin. unfold device_closed; cbn.
      destruct (Hflags w') as (_ & _ & ->). now apply (Hpk w' e).
    + unfold shutdown_shape, newest_open, chan_open, chan_closed,
        device_closed, no_signal, signalled in *; cbn in *.
      destruct pc as [|rest spc|rest derr|];
        try (intros w' Hl; destruct (Hflags w') as (_ & -> & _); now apply Hsh).
      destruct Hsh as [(-> & -> & Hno)|[(w1 & -> & -> & Hc & Hpc)|(w1 & -> & -> & Hr & _)]].
      * left. repeat split; auto.
        intros w' Hl. destruct (Hflags w') as (_ & -> & _). now apply Hno.
      * right; left. exists w1. repeat split; auto.
        -- now destruct (Hflags w1) as (_ & -> & _).
        -- destruct Hpc as [->|[-> Hd]]; [now left|right; split; auto].
           now destruct (Hflags w1) as (_ & _ & ->).
      * congruence.
  - intros [Hw Hnw Hsc Hsw] Hclosed.
    split; cbn.
    + unfold writer_shape, chan_closed in *; cbn in *.
      destruct Hw as [->|(w1 & wpc & -> & -> & Hpc)]; [now left|right].
      exists w1, wpc. repeat split; auto.
      destruct (Hflags w1) as (_ & -> & _). exact Hpc.
    + exact Hnw.
    + intros w' Hs. unfold signalled, chan_closed in *; cbn in *.
      destruct (Hflags w') as (Hf & -> & _). rewrite Hf in Hs.
      destruct (decide (w = w')) as [<-|]; [exact Hclosed|].
      now destruct (Hnosig w').
    + exact Hsw.
Qed.

Lemma runDevice_return_inv w cerr s s' :
  inv s -> runDevice_return w cerr s = Some s' ->
  inv s' /\ closed s' = closed s /\ panicked s' = panicked s
  /\ (closed s = false -> inv_open s -> inv_open s').
Proof.
  intros [Hptr Hold Hrd Hsig Hpk Hsh] Hret.
  unfold runDevice_return in Hret.
  destruct (take_out (w, AtWrites) (runDevices s)) as [gs|] eqn:Hout;
    [|discriminate]. cbn in Hret.
  destruct (heap s !! w) as [td|] eqn:Htd; [|discriminate]. cbn in Hret.
  destruct (close td || closed s) eqn:Hcond; [|discriminate].
  injection Hret as <-.
  pose proof (fun w' => heap_set_dev_closed (heap s) w td w' Htd) as Hflags.
  assert (Hkeep : forall w', dev_closed <$> heap s !! w' = Some true ->
            dev_closed <$> <[w := set_dev_closed td]> (heap s) !! w' = Some true).
  { intros w' H'. destruct (Hflags w') as (-> & _). now destruct (decide _). }
  destruct (take_out_elem _ _ _ Hout) as [Hin Hsub].
  destruct s as [h ds rv wv pc rs ws cl pn]; cbn in *.
  split; [|split; [reflexivity|split; [reflexivity|]]].
  - split; cbn.
    + intros w' Hw'. rewrite length_insert. auto.
    + intros i w' Hi Hlt. unfold chan_closed; cbn.
      destruct (Hflags w') as (_ & -> & _). now apply (Hold i w').
    + exact Hrd.
    + intros w' Hs. unfold signalled in Hs; cbn in Hs.
      destruct (Hflags w') as (_ & _ & Hf). rewrite Hf in Hs. now apply Hsig.
    + intros w' e [Hg|Hg%singleton_elem]%elem_of_app; unfold device_closed; cbn.
      * apply Hkeep. apply (Hpk w' e). auto.
      * injection Hg as -> ->. destruct (Hflags w) as (-> & _).
        now destruct (decide _).
    + unfold shutdown_shape, newest_open, chan_open, chan_closed,
        device_closed, no_signal, signalled in *; cbn in *.
      destruct pc as [|rest spc|rest derr|];
        try (intros w' Hl; destruct (Hflags w') as (_ & -> & _); now apply Hsh).
      destruct Hsh as [(-> & -> & Hno)|[(w1 & -> & -> & Hc & Hpc)|(w1 & -> & -> & Hr & Hns & Hd)]].
      * left. repeat split; auto.
        intros w' Hl. destruct (Hflags w') as (_ & -> & _). now apply Hno.
      * right; left. exists w1. repeat split; auto.
        -- now destruct (Hflags w1) as (_ & -> & _).
        -- destruct Hpc as [->|[-> Hd]]; [now left|right; split; auto].
      * right; right. exists w1. repeat split; auto.
        intros w'. destruct (Hflags w') as (_ & _ & ->). apply Hns.
  - intros -> [Hw Hnw Hsc Hsw]. rewrite orb_false_r in Hcond.
    unfold writer_shape in Hw. cbn in Hw, Hnw.
    destruct Hw as [Hw|(w1 & wpc & Hw & Hvar & Hpc)]; subst ws;
      [now apply elem_of_nil in Hin|].
    apply singleton_elem in Hin. injection Hin as <- <-.
    cbn in Hout. destruct (decide _) as [_|Hne]; [|now destruct Hne].
    injection Hout as <-.
    split; cbn.
    + right. exists w, (SendCloseDone cerr). repeat split; auto.
      unfold chan_closed; cbn. destruct (Hflags w) as (_ & -> & _).
      now rewrite Htd; cbn; rewrite Hcond.
    + intros ->. now specialize (Hnw eq_refl).
    + intros w' Hs. unfold signalled, chan_closed in *; cbn in *.
      destruct (Hflags w') as (_ & -> & Hf). rewrite Hf in Hs. now apply Hsc.
    + unfold shutdown_writers in *; cbn in *.
      destruct pc; auto. intros H. now specialize (Hsw H).
Qed.

Lemma head_snoc_Some {A} (l k : list A) x :
  head l = Some x -> head (l ++ k) = Some x.
Proof. now destruct l. Qed.

Lemma run_devices_snoc dv s prev td :
  panicked s = false -> last (devices s) = Some prev ->
  heap s !! prev = Some td -> close td = false ->
  run_devices dv s
  = Some (set_devices (devices s ++ [length (heap s)])
            (set_heap (<[prev := set_close td]> (heap s)
                       ++ [mkTunDevice dv false false false]) s)).
Proof.
  intros Hpn Hlast Htd Hc. destruct s as [h ds rv wv pc rs ws cl pn].
  cbn in *. subst pn. unfold run_devices, chan_close; cbn.
  rewrite Hlast; cbn. rewrite Htd; cbn. rewrite Hc; cbn.
  destruct ds; [discriminate|]. cbn. now rewrite length_insert.
Qed.

Lemma run_devices_panic dv s prev td :
  last (devices s) = Some prev ->
  heap s !! prev = Some td -> close td = true ->
  run_devices dv s = Some (panic s).
Proof.
  intros Hlast Htd Hc. destruct s as [h ds rv wv pc rs ws cl pn].
  cbn in *. unfold run_devices, chan_close; cbn.
  rewrite Hlast; cbn. rewrite Htd; cbn. now rewrite Hc.
Qed.

Lemma run_devices_inv dv s s' :
  run s = Select -> inv s -> run_devices dv s = Some s' ->
  panicked s = false -> panicked s' = false ->
  inv s' /\ closed s' = closed s
  /\ (closed s = false -> inv_open s -> inv_open s').
Proof.
  intros Hrun [Hptr Hold Hrd Hsig Hpk Hsh] Hadd Hpn Hpn'.
  unfold shutdown_shape in Hsh. rewrite Hrun in Hsh.
  destruct (last (devices s)) as [prev|] eqn:Hlast.
  - destruct (heap s !! prev) as [td|] eqn:Htd.
    2:{ unfold run_devices, chan_close in Hadd. rewrite Hlast in Hadd.
        cbn in Hadd. rewrite Htd in Hadd. discriminate. }
    destruct (close td) eqn:Hc.
    { rewrite (run_devices_panic dv s prev td) in Hadd by assumption.
      injection Hadd as <-. destruct s; discriminate. }
    rewrite (run_devices_snoc dv s prev td) in Hadd by assumption.
    injection Hadd as <-. clear Hpn'.
    destruct s as [h ds rv wv pc rs ws cl pn]; unfold_inv; cbn in *.
    subst pc pn.
    pose proof (fun w' => heap_set_close h prev td w' Htd) as Hflags.
    set (h1 := <[prev := set_close td]> h) in *.
    assert (Hlen : length h1 = length h) by apply length_insert.
    set (new := mkTunDevice dv false false false).
    assert (Hkeep : forall w', close <$> h !! w' = Some true ->
              close <$> (h1 ++ [new]) !! w' = Some true).
    { intros w' H'. apply heap_snoc_old. destruct (Hflags w') as (-> & _).
      now destruct (decide _). }
    assert (Hsigs : forall w', readDone <$> (h1 ++ [new]) !! w' = Some true ->
              readDone <$> h !! w' = Some true).
    { intros w' [H'|[_ H']]%heap_snoc_inv; [|discriminate].
      now destruct (Hflags w') as (_ & <- & _). }
    split; [|split; [reflexivity|]].
    + split; unfold_inv; cbn.
      * intros w' [Hw'|Hw'%singleton_elem]%elem_of_app;
          rewrite length_app, Hlen; cbn; [|lia].
        specialize (Hptr w' Hw'). lia.
      * intros i w' Hi Hlt. cbn in Hi, Hlt. rewrite length_app in Hlt; cbn in Hlt.
        unfold chan_closed; cbn.
        rewrite lookup_app_l in Hi by lia.
        destruct (decide (S i < length ds)) as [Hlt'|Hge].
        -- apply Hkeep. now apply (Hold i w').
        -- rewrite last_lookup in Hlast.
           replace (pred (length ds)) with i in Hlast by lia.
           rewrite Hi in Hlast. injection Hlast as ->.
           apply heap_snoc_old. destruct (Hflags prev) as (-> & _).
           now destruct (decide _).
      * destruct Hrd as [->|(w0 & -> & Hh & Hv)]; [now left|right].
        exists w0. repeat split; auto. now apply head_snoc_Some.
      * intros w' Hs%Hsigs. destruct (Hsig w' Hs) as (Hh & Hr & Hv).
        repeat split; auto. now apply head_snoc_Some.
      * intros w' e Hin. unfold device_closed; cbn. apply heap_snoc_old.
        destruct (Hflags w') as (_ & _ & ->). now apply (Hpk w' e).
      * intros w' Hl. cbn in Hl.
        rewrite last_snoc in Hl. injection Hl as <-.
        rewrite <- Hlen. apply (heap_snoc_new close).
    + intros -> [Hw Hnw Hsc Hsw].
      unfold writer_shape, signal_closed, signalled, chan_closed in *; cbn in *.
      split; unfold_inv; cbn.
      * unfold writer_shape; cbn.
        destruct Hw as [->|(w1 & wpc & -> & -> & Hpc)]; [now left|right].
        exists w1, wpc. repeat split; auto.
        unfold chan_closed; cbn.
        destruct wpc as [|e].
        -- right. destruct Hpc as [Hl|Hcl]; [|now apply Hkeep].
           rewrite Hlast in Hl. injection Hl as <-.
           apply heap_snoc_old. destruct (Hflags prev) as (-> & _).
           now destruct (decide _).
        -- now apply Hkeep.
      * intros [_ H]%app_eq_nil. discriminate.
      * intros w' Hs%Hsigs. unfold chan_closed; cbn. apply Hkeep. auto.
      * exact I.
  - destruct s as [h ds rv wv pc rs ws cl pn]; unfold_inv; cbn in *.
    subst pc pn. apply last_None in Hlast. subst ds.
    unfold run_devices in Hadd. cbn in Hadd.
    injection Hadd as <-. clear Hpn'.
    set (new := mkTunDevice dv false false false).
    assert (Hrs : rs = []).
    { destruct Hrd as [->|(w0 & _ & Hh & _)]; [reflexivity|discriminate]. }
    subst rs.
    assert (Hnosig : forall w', readDone <$> (h ++ [new]) !! w' <> Some true).
    { intros w' [H'|[_ H']]%heap_snoc_inv; [|discriminate].
      destruct (Hsig w' H') as (Hh & _). discriminate. }
    split; [|split; [reflexivity|]].
    + split; unfold_inv; cbn.
      * intros w' Hw'%singleton_elem. subst. rewrite length_app; cbn. lia.
      * intros [|i] w' Hi Hlt; cbn in *; lia.
      * right. exists (length h). repeat split; auto.
      * intros w' Hs. now destruct (Hnosig w').
      * intros w' e [Hin|Hin%singleton_elem]%elem_of_app; [|discriminate].
        unfold device_closed; cbn. apply heap_snoc_old. now apply (Hpk w' e).
      * intros w' [= <-]. apply (heap_snoc_new close).
    + intros -> [Hw Hnw Hsc Hsw]. cbn in *. rewrite (Hnw eq_refl).
      split; unfold_inv; cbn.
      * right. exists (length h), AtWrites. repeat split; auto.
      * discriminate.
      * intros w' Hs. now destruct (Hnosig w').
      * exact I.
Qed.

Lemma run_readDone_inv s s' :
  run s = Select -> inv s -> run_readDone s = Some s' ->
  panicked s = false -> panicked s' = false ->
  inv s' /\ closed s' = closed s
  /\ (closed s = false -> inv_open s -> inv_open s').
Proof.
  intros Hrun [Hptr Hold Hrd Hsig Hpk Hsh] Hstep Hpn Hpn'.
  unfold shutdown_shape in Hsh. rewrite Hrun in Hsh.
  unfold run_readDone in Hstep.
  destruct (readDone_var s) as [w|] eqn:Hvar; [|discriminate]. cbn in Hstep.
  destruct (heap s !! w) as [td|] eqn:Htd; [|discriminate]. cbn in Hstep.
  destruct (readDone td) eqn:Hrdn; [|discriminate]. cbn in Hstep.
  assert (Hsw : signalled s w).
  { unfold signalled. now rewrite Htd; cbn; rewrite Hrdn. }
  destruct (Hsig w Hsw) as (Hhead & Hrs & _).
  pose proof (fun w' => heap_set_readDone (heap s) w td false w' Htd) as Hflags.
  assert (Hnosig : forall w',
    readDone <$> <[w := set_readDone false td]> (heap s) !! w' <> Some true).
  { intros w' H'. destruct (Hflags w') as (Hf & _). rewrite Hf in H'.
    destruct (decide (w = w')) as [<-|Hne]; [discriminate|].
    destruct (Hsig w' H') as (Hh' & _). congruence. }
  destruct s as [h ds rv wv pc rs ws cl pn]; unfold_inv; cbn in *.
  subst pc pn rs. destruct ds as [|w0 ds']; [discriminate|].
  injection Hhead as ->. cbn in Hstep.
  assert (Hold' : forall i w', ds' !! i = Some w' -> S i < length ds' ->
            close <$> <[w := set_readDone false td]> h !! w' = Some true).
  { intros i w' Hi Hlt. destruct (Hflags w') as (_ & -> & _).
    apply (Hold (S i) w'); cbn; [assumption|lia]. }
  assert (Hpk' : forall w' e, (w', SendCloseDone e) ∈ ws ->
            dev_closed <$> <[w := set_readDone false td]> h !! w' = Some true).
  { intros w' e Hin. destruct (Hflags w') as (_ & _ & ->). eauto. }
  destruct ds' as [|dev ds''].
  - injection Hstep as <-.
    split; [|split; [reflexivity|]].
    + split; unfold_inv; cbn.
      * intros w' Hin. inversion Hin.
      * intros i w' Hi. inversion Hi.
      * now left.
      * intros w' Hs. now destruct (Hnosig w').
      * exact Hpk'.
      * intros w' Hl. discriminate.
    + intros -> [Hw Hnw Hsc Hsw']. exfalso. unfold_inv; cbn in *.
      specialize (Hsc w Hsw). specialize (Hsh w eq_refl). congruence.
  - injection Hstep as <-.
    split; [|split; [reflexivity|]].
    + split; unfold_inv; cbn.
      * intros w' Hin. rewrite length_insert. apply Hptr. now right.
      * exact Hold'.
      * right. exists dev. auto.
      * intros w' Hs. now destruct (Hnosig w').
      * exact Hpk'.
      * intros w' Hl. destruct (Hflags w') as (_ & -> & _). now apply Hsh.
    + intros -> [Hw Hnw Hsc Hsw']. unfold_inv; cbn in *.
      split; unfold_inv; cbn.
      * destruct Hw as [->|(w1 & wpc & -> & -> & Hpc)]; [now left|right].
        exists w1, wpc. repeat split; auto.
        destruct (Hflags w1) as (_ & -> & _). exact Hpc.
      * discriminate.
      * intros w' Hs. now destruct (Hnosig w').
      * exact I.
Qed.

Lemma run_runDone_inv s s' :
  run s = Select -> inv s -> run_runDone s = Some s' ->
  inv s' /\ closed s' = closed s /\ panicked s' = panicked s
  /\ (closed s = false -> inv_open s -> inv_open s').
Proof.
  intros Hrun [Hptr Hold Hrd Hsig Hpk Hsh] Hstep.
  unfold shutdown_shape in Hsh. rewrite Hrun in Hsh.
  unfold run_runDone in Hstep.
  destruct (runDone_var s) as [w|] eqn:Hvar; [|discriminate]. cbn in Hstep.
  destruct (recv_closeDone w (runDevices s)) as [[e gs]|] eqn:Hrecv;
    [|discriminate]. cbn in Hstep.
  destruct (recv_closeDone_elem _ _ _ _ Hrecv) as [Hin Hsub].
  destruct s as [h ds rv wv pc rs ws cl pn]; unfold_inv; cbn in *.
  subst pc.
  assert (Hopen : cl = false -> inv_open (mkMultiTUN h ds rv wv Select rs ws cl pn) ->
                  gs = []).
  { intros -> [Hw _ _ _]. unfold_inv; cbn in *.
    destruct Hw as [->|(w1 & wpc & -> & _)]; [discriminate|].
    cbn in Hrecv. destruct wpc; [discriminate|].
    destruct (decide (w1 = w)); [|discriminate]. now injection Hrecv as _ <-. }
  destruct (last ds) as [dev|] eqn:Hlast; injection Hstep as <-.
  - split; [|split; [reflexivity|split; [reflexivity|]]].
    + split; unfold_inv; cbn; auto.
      * intros w' e' [Hg|Hg%singleton_elem]%elem_of_app; [|discriminate].
        apply (Hpk w' e'). auto.
      * intros w0 Hl. apply Hsh. congruence.
    + intros Hcl Hop. rewrite (Hopen Hcl Hop). destruct Hop as [Hw Hnw Hsc Hsw].
      split; unfold_inv; cbn in *; auto.
      * right. exists dev, AtWrites. auto.
      * intros ->. discriminate.
  - split; [|split; [reflexivity|split; [reflexivity|]]].
    + split; unfold_inv; cbn; auto.
      * intros w' e' Hg. apply (Hpk w' e'). auto.
      * intros w0 Hl. apply Hsh. congruence.
    + intros Hcl Hop. rewrite (Hopen Hcl Hop). destruct Hop as [Hw Hnw Hsc Hsw].
      split; unfold_inv; cbn in *; auto.
Qed.

Lemma run_shutdowns_inv rest pc s s' o :
  run s = InShutdown rest pc -> inv s ->
  run_shutdowns rest pc s = Some (s', o) ->
  panicked s = false -> panicked s' = false ->
  inv s' /\ closed s' = closed s
  /\ (closed s = false -> inv_open s -> inv_open s').
Proof.
  intros Hrun [Hptr Hold Hrd Hsig Hpk Hsh] Hstep Hpn Hpn'.
  unfold shutdown_shape in Hsh. rewrite Hrun in Hsh.
  destruct s as [h ds rv wv rpc rs ws cl pn]; unfold_inv; cbn in *.
  subst rpc pn.
  destruct rest as [|w rest']; cbn in Hstep.
  - (* after the loop *)
    injection Hstep as <- <-.
    assert (Hrs : rs = [] /\ forall w', readDone <$> h !! w' <> Some true).
    { destruct Hsh as [(<- & _ & _)|[(w & _ & [=] & _)|(w & -> & _ & Hr & Hns & _)]].
      - split.
        + destruct Hrd as [->|(w0 & _ & Hh & _)]; [reflexivity|discriminate].
        + intros w' Hs. destruct (Hsig w' Hs) as [Hh _]. discriminate.
      - auto. }
    destruct Hrs as [-> Hnosig].
    split; [|split; [reflexivity|]].
    + split; unfold_inv; cbn.
      * intros w' Hin. inversion Hin.
      * intros i w' Hi. inversion Hi.
      * now left.
      * intros w' Hs. now destruct (Hnosig w').
      * exact Hpk.
      * intros w' Hl. discriminate.
    + intros -> [Hw Hnw Hsc Hsw]. unfold_inv; cbn in *.
      assert (Hws : ws = []).
      { destruct Hsh as [(<- & _ & _)|[(w & _ & [=] & _)|(w & -> & _)]]; auto. }
      subst ws. split; unfold_inv; cbn; auto.
  - destruct pc.
    + (* close(dev.close) *)
      destruct Hsh as [(<- & _ & Hno)|[(w1 & _ & _ & _ & [[=]|[[=] _]])|(w1 & _ & [=] & _)]].
      unfold chan_close in Hstep; cbn in Hstep.
      destruct (h !! w) as [td|] eqn:Htd; [|discriminate]. cbn in Hstep.
      destruct (close td) eqn:Hc; cbn in Hstep.
      { injection Hstep as <- <-. discriminate. }
      injection Hstep as <- <-.
      assert (rest' = []) as ->.
      { destruct rest' as [|w2 rest'']; [reflexivity|].
        specialize (Hold 0 w eq_refl). cbn in Hold.
        rewrite Htd in Hold. cbn in Hold. rewrite Hc in Hold.
        specialize (Hold ltac:(lia)). discriminate. }
      pose proof (fun w' => heap_set_close h w td w' Htd) as Hflags.
      assert (Hkeep : forall w', close <$> h !! w' = Some true ->
                close <$> <[w := set_close td]> h !! w' = Some true).
      { intros w' H'. destruct (Hflags w') as (-> & _). now destruct (decide _). }
      split; [|split; [reflexivity|]].
      * split; unfold_inv; cbn.
        -- intros w' Hin. rewrite length_insert. auto.
        -- intros [|i] w' Hi Hlt; cbn in *; lia.
        -- exact Hrd.
        -- intros w' Hs. destruct (Hflags w') as (_ & Hf & _).
           rewrite Hf in Hs. auto.
        -- intros w' e Hin. destruct (Hflags w') as (_ & _ & ->). eauto.
        -- right; left. exists w. repeat split; auto.
           destruct (Hflags w) as (-> & _). now destruct (decide _).
      * intros -> [Hw Hnw Hsc Hsw]. unfold_inv; cbn in *.
        split; unfold_inv; cbn.
        -- destruct Hw as [->|(w1 & wpc & -> & -> & Hpc)]; [now left|right].
           exists w1, wpc. repeat split; auto.
           destruct wpc; [destruct Hpc; auto|auto].
        -- discriminate.
        -- intros w' Hs. destruct (Hflags w') as (_ & Hf & _).
           rewrite Hf in Hs. auto.
        -- intros [H|H]; [now destruct H|discriminate].
    + (* <-dev.closeDone *)
      destruct (recv_closeDone w ws) as [[e gs]|] eqn:Hrecv; [|discriminate].
      cbn in Hstep. injection Hstep as <- <-.
      destruct (recv_closeDone_elem _ _ _ _ Hrecv) as [Hin Hsub].
      destruct Hsh as [(_ & [=] & _)|[(w1 & -> & [= <- ->] & Hc & _)|(w1 & _ & [=] & _)]].
      split; [|split; [reflexivity|]].
      * split; unfold_inv; cbn; auto.
        -- intros w' e' Hg. apply (Hpk w' e'). auto.
        -- right; left. exists w. repeat split; auto. right. split; eauto.
      * intros -> [Hw Hnw Hsc Hsw]. unfold_inv; cbn in *.
        assert (gs = []) as ->.
        { destruct Hw as [->|(w1 & wpc & -> & _)]; [discriminate|].
          cbn in Hrecv. destruct wpc; [discriminate|].
          destruct (decide (w1 = w)); [|discriminate].
          now injection Hrecv as _ <-. }
        split; unfold_inv; cbn; auto.
    + (* <-dev.readDone *)
      destruct (h !! w) as [td|] eqn:Htd; [|discriminate]. cbn in Hstep.
      destruct (readDone td) eqn:Hrdn; [|discriminate].
      injection Hstep as <- <-.
      destruct Hsh as [(_ & [=] & _)|[(w1 & -> & [= <- ->] & Hc & [[=]|[_ Hd]])|(w1 & _ & [=] & _)]].
      assert (Hsw : readDone <$> h !! w = Some true).
      { now rewrite Htd; cbn; rewrite Hrdn. }
      destruct (Hsig w Hsw) as (_ & -> & _).
      pose proof (fun w' => heap_set_readDone h w td false w' Htd) as Hflags.
      assert (Hnosig : forall w',
        readDone <$> <[w := set_readDone false td]> h !! w' <> Some true).
      { intros w' H'. destruct (Hflags w') as (Hf & _). rewrite Hf in H'.
        destruct (decide (w = w')) as [<-|Hne]; [discriminate|].
        destruct (Hsig w' H') as (Hh' & _). cbn in Hh'. congruence. }
      split; [|split; [reflexivity|]].
      * split; unfold_inv; cbn.
        -- intros w' Hin. rewrite length_insert. auto.
        -- intros [|i] w' Hi Hlt; cbn in *; lia.
        -- now left.
        -- intros w' Hs. now destruct (Hnosig w').
        -- intros w' e Hin. destruct (Hflags w') as (_ & _ & ->). eauto.
        -- right; right. exists w. repeat split; auto.
           now destruct (Hflags w) as (_ & _ & ->).
      * intros -> [Hw Hnw Hsc Hsw']. unfold_inv; cbn in *.
        assert (ws = []) as -> by (apply Hsw'; now right).
        split; unfold_inv; cbn; auto; try discriminate.
        intros w' Hs. now destruct (Hnosig w').
Qed.

Lemma run_close_inv rest derr s s' o :
  run s = InClose rest derr -> inv s ->
  run_close rest derr s = Some (s', o) ->
  inv s' /\ closed s' = closed s /\ panicked s' = panicked s
  /\ (closed s = false -> inv_open s -> inv_open s').
Proof.
  intros Hrun [Hptr Hold Hrd Hsig Hpk Hsh] Hstep.
  unfold shutdown_shape in Hsh. rewrite Hrun in Hsh.
  destruct s as [h ds rv wv rpc rs ws cl pn]; unfold_inv; cbn in *.
  subst rpc.
  destruct rest as [|w rest']; cbn in Hstep.
  - injection Hstep as <- <-.
    split; [|split; [reflexivity|split; [reflexivity|]]].
    + split; unfold_inv; cbn; auto.
    + intros -> [Hw Hnw Hsc Hsw]. split; unfold_inv; cbn in *; auto.
  - destruct (recv_closeDone w ws) as [[e gs]|] eqn:Hrecv; [|discriminate].
    cbn in Hstep. injection Hstep as <- <-.
    destruct (recv_closeDone_elem _ _ _ _ Hrecv) as [Hin Hsub].
    split; [|split; [reflexivity|split; [reflexivity|]]].
    + split; unfold_inv; cbn; auto.
      intros w' e' Hg. apply (Hpk w' e'). auto.
    + intros -> [Hw Hnw Hsc Hsw]. unfold_inv; cbn in *.
      assert (gs = []) as ->.
      { destruct Hw as [->|(w1 & wpc & -> & _)]; [discriminate|].
        cbn in Hrecv. destruct wpc; [discriminate|].
        destruct (decide (w1 = w)); [|discriminate].
        now injection Hrecv as _ <-. }
      split; unfold_inv; cbn; auto.
Qed.

Lemma readFrom_send_inv w s : inv s -> readFrom_send w s = None.
Proof.
  intros [_ _ Hrd _ _ _]. unfold readFrom_send.
  destruct Hrd as [->|(w0 & -> & _)]; cbn; [reflexivity|].
  now destruct (decide _).
Qed.

(** Every step keeps the invariants. *)
Lemma step_good l s s' o : good s -> step l s = Some (s', o) -> good s'.
Proof.
  intros Hg Hstep Hpn'.
  pose proof (step_not_panicked _ _ _ _ Hstep) as Hpn.
  destruct (Hg Hpn) as [Hinv Hop]. clear Hg.
  unfold step in Hstep. rewrite Hpn in Hstep.
  assert (Hsame : inv s /\ (closed s = false -> inv_open s)) by auto.
  destruct l.
  - (* Add *)
    destruct (run s) eqn:Hrun; try discriminate.
    destruct (run_devices dv s) as [s1|] eqn:Hadd; [|discriminate].
    cbn in Hstep. injection Hstep as <- <-.
    destruct (run_devices_inv dv s s1 Hrun Hinv Hadd Hpn Hpn') as (Hi & Hc & Ho).
    split; [exact Hi|]. rewrite Hc. auto.
  - (* MTU *)
    destruct (run s) eqn:Hrun; try discriminate.
    destruct (run_mtus s); [|discriminate]. cbn in Hstep.
    now injection Hstep as <- <-.
  - (* Name *)
    destruct (run s) eqn:Hrun; try discriminate.
    destruct (run_names s); [|discriminate]. cbn in Hstep.
    now injection Hstep as <- <-.
  - (* Shutdown *)
    destruct (run s) eqn:Hrun; try discriminate.
    injection Hstep as <- <-.
    destruct Hinv as [Hptr Hold Hrd Hsig Hpk Hsh].
    unfold shutdown_shape in Hsh. rewrite Hrun in Hsh.
    destruct s as [h ds rv wv rpc rs ws cl pn]; cbn in *.
    split.
    + split; unfold_inv; cbn; auto.
    + intros Hcl. destruct (Hop Hcl) as [Hw Hnw Hsc Hsw].
      split; unfold_inv; cbn; auto.
      intros [H|H]; [now destruct H|discriminate].
  - (* ShutdownStep *)
    destruct (run s) eqn:Hrun; try discriminate.
    destruct (run_shutdowns_inv _ _ _ _ _ Hrun Hinv Hstep Hpn Hpn') as (Hi & Hc & Ho).
    split; [exact Hi|]. rewrite Hc. auto.
  - (* Close *)
    assert (Hs' : s' = Close_call s) by (destruct (run s); congruence).
    subst s'. unfold Close_call in *.
    destruct (closed s) eqn:Hcl; [destruct s; discriminate|].
    destruct Hinv as [Hptr Hold Hrd Hsig Hpk Hsh].
    destruct s as [h ds rv wv rpc rs ws cl pn]; cbn in *.
    split; [|discriminate]. split; unfold_inv; cbn; auto.
  - (* RunClose *)
    destruct (run s) eqn:Hrun; try discriminate.
    destruct (closed s) eqn:Hcl; [|discriminate].
    injection Hstep as <- <-.
    destruct Hinv as [Hptr Hold Hrd Hsig Hpk Hsh].
    unfold shutdown_shape in Hsh. rewrite Hrun in Hsh.
    destruct s as [h ds rv wv rpc rs ws cl pn]; cbn in *. subst cl.
    split; [|discriminate]. split; unfold_inv; cbn; auto.
  - (* RunCloseStep *)
    destruct (run s) eqn:Hrun; try discriminate.
    destruct (run_close_inv _ _ _ _ _ Hrun Hinv Hstep) as (Hi & Hc & _ & Ho).
    split; [exact Hi|]. rewrite Hc. auto.
  - (* RunReadDone *)
    destruct (run s) eqn:Hrun; try discriminate.
    destruct (run_readDone s) as [s1|] eqn:Hrd; [|discriminate].
    cbn in Hstep. injection Hstep as <- <-.
    destruct (run_readDone_inv s s1 Hrun Hinv Hrd Hpn Hpn') as (Hi & Hc & Ho).
    split; [exact Hi|]. rewrite Hc. auto.
  - (* RunRunDone *)
    destruct (run s) eqn:Hrun; try discriminate.
    destruct (run_runDone s) as [s1|] eqn:Hrd; [|discriminate].
    cbn in Hstep. injection Hstep as <- <-.
    destruct (run_runDone_inv s s1 Hrun Hinv Hrd) as (Hi & Hc & _ & Ho).
    split; [exact Hi|]. rewrite Hc. auto.
  - (* Read *)
    assert (Hr : readFrom_reads w count err s = Some (s', o))
      by (destruct (run s); exact Hstep).
    clear Hstep. unfold readFrom_reads in Hr.
    destruct (decide _) as [Hin|]; [|discriminate].
    destruct (heap s !! w) as [td|] eqn:Htd; [|discriminate]. cbn in Hr.
    destruct err as [e|]; [|now injection Hr as <- <-].
    destruct (close td) eqn:Hc; [|now injection Hr as <- <-].
    destruct (readFrom_return w s) as [s1|] eqn:Hret; [|discriminate].
    cbn in Hr. injection Hr as <- <-.
    destruct (readFrom_return_inv w s s1 Hinv Hret) as (Hi & Hcl & _ & Ho).
    split; [exact Hi|]. rewrite Hcl. intros H. apply Ho; auto.
    unfold chan_closed. now rewrite Htd; cbn; rewrite Hc.
  - (* ReadFromClose *)
    assert (Hr : readFrom_close w s = Some s').
    { destruct (run s); destruct (readFrom_close w s); cbn in Hstep; congruence. }
    clear Hstep. unfold readFrom_close in Hr.
    destruct (closed s) eqn:Hcl; [|discriminate].
    destruct (readFrom_return_inv w s s' Hinv Hr) as (Hi & Hcl' & _ & Ho).
    split; [exact Hi|]. rewrite Hcl', Hcl. discriminate.
  - (* ReadFromSend *)
    rewrite (readFrom_send_inv w s Hinv) in Hstep.
    destruct (run s); discriminate.
  - (* Write *)
    assert (Hr : runDevice_writes w count err s = Some (s', o))
      by (destruct (run s); exact Hstep).
    clear Hstep. unfold runDevice_writes in Hr.
    destruct (decide _) as [Hin|]; [|discriminate].
    destruct (heap s !! w) as [td|] eqn:Htd; [|discriminate]. cbn in Hr.
    now injection Hr as <- <-.
  - (* RunDeviceReturn *)
    assert (Hr : runDevice_return w cerr s = Some s').
    { destruct (run s); destruct (runDevice_return w cerr s); cbn in Hstep;
        congruence. }
    clear Hstep.
    destruct (runDevice_return_inv w cerr s s' Hinv Hr) as (Hi & Hcl & _ & Ho).
    split; [exact Hi|]. rewrite Hcl. auto.
Qed.

Lemma reachable_good s : reachable s -> good s.
Proof.
  induction 1 as [|s l s' o Hreach IH Hstep].
  - intros _. split; [apply inv_new|intros _; apply inv_open_new].
  - eapply step_good; eauto.
Qed.

Lemma exec_reachable ls s s' o :
  reachable s -> exec ls s = Some (s', o) -> reachable s'.
Proof.
  revert s o. induction ls as [|l ls IH]; cbn; intros s o Hreach Hexec.
  - now injection Hexec as <- <-.
  - destruct (step l s) as [[s1 o1]|] eqn:Hstep; [|discriminate].
    cbn in Hexec.
    destruct (exec ls s1) as [[s2 o2]|] eqn:Hrest; [|discriminate].
    cbn in Hexec. injection Hexec as <- <-.
    eapply IH; [|exact Hrest]. eapply reachable_step; eauto.
Qed.

(** *** Without a device and without a runDevice goroutine *)


Lemma no_writer_Write s w count err :
  no_writer s -> step (Write w count err) s = None.
Proof.
  intros [_ Hnw]. unfold step, runDevice_writes.
  destruct (panicked s); [reflexivity|].
  destruct (decide _) as [Hin|]; [now destruct (Hnw w)|].
  now destruct (run s).
Qed.

Lemma no_writer_step l s s' o :
  is_Add l = false -> no_writer s -> step l s = Some (s', o) ->
  no_writer s' /\ Forall (fun r => is_WriteReply r = false) o.
Proof.
  intros Hadd [Hdev Hnw] Hstep.
  destruct l; try discriminate Hadd;
    try (rewrite no_writer_Write in Hstep by (split; assumption); discriminate).
  all: unfold step in Hstep; destruct (panicked s) eqn:Hpn; [discriminate|].
  all: destruct s as [h ds rv wv rpc rs ws cl pn]; cbn in *; subst ds pn.
  - (* MTU *) destruct rpc; try discriminate. injection Hstep as <- <-.
    split; [split; auto|]. repeat constructor.
  - (* Name *) destruct rpc; try discriminate. injection Hstep as <- <-.
    split; [split; auto|]. repeat constructor.
  - (* Shutdown *) destruct rpc; try discriminate. injection Hstep as <- <-.
    split; [split; auto|]. constructor.
  - (* ShutdownStep *)
    destruct rpc as [|rest pc| |]; try discriminate.
    destruct rest as [|w rest']; cbn in Hstep.
    { injection Hstep as <- <-. split; [split; auto|]. repeat constructor. }
    destruct pc; cbn in Hstep.
    + unfold chan_close in Hstep; cbn in Hstep.
      destruct (h !! w) as [td|]; [|discriminate]. cbn in Hstep.
      destruct (close td); injection Hstep as <- <-;
        (split; [split; auto|constructor]).
    + destruct (recv_closeDone w ws) as [[e gs]|] eqn:Hrecv; [|discriminate].
      cbn in Hstep. injection Hstep as <- <-.
      destruct (recv_closeDone_elem _ _ _ _ Hrecv) as [_ Hsub].
      split; [split; cbn; auto|constructor].
      intros w' Hin. apply (Hnw w'). auto.
    + destruct (h !! w) as [td|]; [|discriminate]. cbn in Hstep.
      destruct (readDone td); [|discriminate]. injection Hstep as <- <-.
      split; [split; auto|constructor].
  - (* Close *)
    assert (Hs : s' = Close_call (mkMultiTUN h [] rv wv rpc rs ws cl false)
                 /\ o = []) by (destruct rpc; now injection Hstep as <- <-).
    destruct Hs as [-> ->]. unfold Close_call; cbn.
    destruct cl; (split; [split; auto|constructor]).
  - (* RunClose *)
    destruct rpc; try discriminate. destruct cl; [|discriminate].
    injection Hstep as <- <-. split; [split; auto|constructor].
  - (* RunCloseStep *)
    destruct rpc as [| |rest derr|]; try discriminate.
    destruct rest as [|w rest']; cbn in Hstep.
    { injection Hstep as <- <-. split; [split; auto|]. repeat constructor. }
    destruct (recv_closeDone w ws) as [[e gs]|] eqn:Hrecv; [|discriminate].
    cbn in Hstep. injection Hstep as <- <-.
    destruct (recv_closeDone_elem _ _ _ _ Hrecv) as [_ Hsub].
    split; [split; cbn; auto|constructor].
    intros w' Hin. apply (Hnw w'). auto.
  - (* RunReadDone *)
    destruct rpc; try discriminate. unfold run_readDone in Hstep; cbn in Hstep.
    destruct rv as [w|]; [|discriminate]. cbn in Hstep.
    destruct (h !! w) as [td|]; [|discriminate]. cbn in Hstep.
    destruct (readDone td); [|discriminate]. cbn in Hstep.
    injection Hstep as <- <-. split; [split; auto|constructor].
  - (* RunRunDone *)
    destruct rpc; try discriminate. unfold run_runDone in Hstep; cbn in Hstep.
    destruct wv as [w|]; [|discriminate]. cbn in Hstep.
    destruct (recv_closeDone w ws) as [[e gs]|] eqn:Hrecv; [|discriminate].
    cbn in Hstep. injection Hstep as <- <-.
    destruct (recv_closeDone_elem _ _ _ _ Hrecv) as [_ Hsub].
    split; [split; cbn; auto|constructor].
    intros w' Hin. apply (Hnw w'). auto.
  - (* Read *)
    assert (Hr : readFrom_reads w count err
                   (mkMultiTUN h [] rv wv rpc rs ws cl false) = Some (s', o))
      by (destruct rpc; exact Hstep).
    clear Hstep. unfold readFrom_reads, readFrom_return in Hr; cbn in Hr.
    destruct (decide _); [|discriminate].
    destruct (h !! w) as [td|]; [|discriminate]. cbn in Hr.
    destruct (match err with Some _ => close td | None => false end).
    + destruct (take_out (w, AtReads) rs); [|discriminate]. cbn in Hr.
      destruct (readDone td); cbn in Hr; injection Hr as <- <-;
        (split; [split; auto|repeat constructor]).
    + injection Hr as <- <-. split; [split; auto|repeat constructor].
  - (* ReadFromClose *)
    assert (Hr : readFrom_close w (mkMultiTUN h [] rv wv rpc rs ws cl false)
                 = Some s' /\ o = []).
    { destruct rpc; destruct (readFrom_close _ _); cbn in Hstep;
        try discriminate; now injection Hstep as <- <-. }
    destruct Hr as [Hr ->]. unfold readFrom_close, readFrom_return in Hr.
    cbn in Hr. destruct cl; [|discriminate].
    destruct (take_out (w, AtReads) rs); [|discriminate]. cbn in Hr.
    destruct (h !! w) as [td|]; [|discriminate]. cbn in Hr.
    destruct (readDone td); injection Hr as <-;
      (split; [split; auto|constructor]).
  - (* ReadFromSend *)
    assert (Hr : (readFrom_send w (mkMultiTUN h [] rv wv rpc rs ws cl false)
                  ≫= fun s1 => Some (s1, @nil reply)) = Some (s', o))
      by (destruct rpc; exact Hstep).
    clear Hstep. unfold readFrom_send in Hr. cbn in Hr.
    destruct (take_out (w, SendReadDone) rs); [|discriminate]. cbn in Hr.
    destruct (h !! w) as [td|]; [|discriminate]. cbn in Hr.
    destruct (readDone td); [discriminate|]. injection Hr as <- <-.
    split; [split; auto|constructor].
  - (* RunDeviceReturn *)
    assert (Hr : (runDevice_return w cerr (mkMultiTUN h [] rv wv rpc rs ws cl false)
                  ≫= fun s1 => Some (s1, @nil reply)) = Some (s', o))
      by (destruct rpc; exact Hstep).
    clear Hstep. unfold runDevice_return in Hr. cbn in Hr.
    destruct (take_out (w, AtWrites) ws) as [gs|] eqn:Hout; [|discriminate].
    destruct (take_out_elem _ _ _ Hout) as [Hin _]. now destruct (Hnw w).
Qed.

Lemma no_writer_exec ls s s' o :
  forallb (fun l => negb (is_Add l)) ls = true ->
  no_writer s -> exec ls s = Some (s', o) ->
  no_writer s' /\ Forall (fun r => is_WriteReply r = false) o.
Proof.
  revert s o. induction ls as [|l ls IH]; cbn; intros s o Hls Hnw Hexec.
  - injection Hexec as <- <-. split; [assumption|constructor].
  - apply andb_prop in Hls as [Hl Hls]. apply negb_true_iff in Hl.
    destruct (step l s) as [[s1 o1]|] eqn:Hstep; [|discriminate].
    cbn in Hexec.
    destruct (exec ls s1) as [[s2 o2]|] eqn:Hrest; [|discriminate].
    cbn in Hexec. injection Hexec as <- <-.
    destruct (no_writer_step l s s1 o1 Hl Hnw Hstep) as [Hnw1 Ho1].
    destruct (IH s1 o2 Hls Hnw1 Hrest) as [Hnw2 Ho2].
    split; [assumption|]. now apply Forall_app.
Qed.

Lemma step_panicked l s : panicked s = true -> step l s = None.
Proof. intros H. unfold step. now rewrite H. Qed.

(** *** After run has returned *)

Lemma returned_step l s s' o :
  run s = Returned -> step l s = Some (s', o) ->
  run s' = Returned /\ run_request l = false /\ forallb io_reply o = true
  /\ (forall w, (w, AtReads) ∈ readFroms s' -> (w, AtReads) ∈ readFroms s)
  /\ (forall w, (w, AtWrites) ∈ runDevices s' -> (w, AtWrites) ∈ runDevices s).
Proof.
  intros Hrun Hstep. unfold step in Hstep.
  destruct (panicked s) eqn:Hpn; [discriminate|].
  rewrite Hrun in Hstep.
  destruct s as [h ds rv wv rpc rs ws cl pn]; cbn in *; subst rpc pn.
  destruct l; try discriminate.
  - (* Close *)
    injection Hstep as <- <-. unfold Close_call; cbn.
    destruct cl; cbn; auto.
  - (* Read *)
    unfold readFrom_reads, readFrom_return in Hstep; cbn in Hstep.
    destruct (decide _); [|discriminate].
    destruct (h !! w) as [td|]; [|discriminate]. cbn in Hstep.
    destruct (match err with Some _ => close td | None => false end).
    + destruct (take_out (w, AtReads) rs) as [gs|] eqn:Hout; [|discriminate].
      destruct (take_out_elem _ _ _ Hout) as [_ Hsub]. cbn in Hstep.
      destruct (readDone td); cbn in Hstep; injection Hstep as <- <-; cbn;
        repeat split; auto.
      intros w' [Hg|Hg%singleton_elem]%elem_of_app; [auto|discriminate].
    + injection Hstep as <- <-. cbn. auto.
  - (* ReadFromClose *)
    unfold readFrom_close, readFrom_return in Hstep; cbn in Hstep.
    destruct cl; [|discriminate].
    destruct (take_out (w, AtReads) rs) as [gs|] eqn:Hout; [|discriminate].
    destruct (take_out_elem _ _ _ Hout) as [_ Hsub]. cbn in Hstep.
    destruct (h !! w) as [td|]; [|discriminate]. cbn in Hstep.
    destruct (readDone td); cbn in Hstep; injection Hstep as <- <-; cbn;
      repeat split; auto.
    intros w' [Hg|Hg%singleton_elem]%elem_of_app; [auto|discriminate].
  - (* ReadFromSend *)
    unfold readFrom_send in Hstep; cbn in Hstep.
    destruct (take_out (w, SendReadDone) rs) as [gs|] eqn:Hout; [|discriminate].
    destruct (take_out_elem _ _ _ Hout) as [_ Hsub]. cbn in Hstep.
    destruct (h !! w) as [td|]; [|discriminate]. cbn in Hstep.
    destruct (readDone td); [discriminate|]. injection Hstep as <- <-; cbn.
    repeat split; auto.
  - (* Write *)
    unfold runDevice_writes in Hstep; cbn in Hstep.
    destruct (decide _); [|discriminate].
    destruct (h !! w) as [td|]; [|discriminate]. cbn in Hstep.
    injection Hstep as <- <-. cbn. auto.
  - (* RunDeviceReturn *)
    unfold runDevice_return in Hstep; cbn in Hstep.
    destruct (take_out (w, AtWrites) ws) as [gs|] eqn:Hout; [|discriminate].
    destruct (take_out_elem _ _ _ Hout) as [_ Hsub]. cbn in Hstep.
    destruct (h !! w) as [td|]; [|discriminate]. cbn in Hstep.
    destruct (close td || cl); [|discriminate]. injection Hstep as <- <-; cbn.
    repeat split; auto.
    intros w' [Hg|Hg%singleton_elem]%elem_of_app; [auto|discriminate].
Qed.

(** *** The claims about the multiplexer *)

(** C8.  Whenever run is at its select (and so answers), MTU() and
    Name() return what the newest device in the list returns, and the
    default MTU 1280 with an empty name and no error when the list is
    empty; neither changes the multiplexer. *)
Theorem MTU_Name_replies (s : multiTUN) :
  reachable s -> panicked s = false -> run s = Select ->
  (devices s = [] ->
     step MTU s = Some (s, [MTUReply 1280 None])
     /\ step Name s = Some (s, [NameReply "" None]))
  /\ (forall w, last (devices s) = Some w ->
       exists td, heap s !! w = Some td
         /\ step MTU s
            = Some (s, [MTUReply (fst (dev_MTU (dev td))) (snd (dev_MTU (dev td)))])
         /\ step Name s
            = Some (s, [NameReply (fst (dev_Name (dev td))) (snd (dev_Name (dev td)))])).
Proof.
  intros Hreach Hpn Hrun.
  destruct (reachable_good s Hreach Hpn) as [[Hptr _ _ _ _ _] _].
  unfold step, run_mtus, run_names. rewrite Hpn, Hrun. split.
  - intros ->. split; reflexivity.
  - intros w Hl. rewrite Hl.
    assert (Hlt : w < length (heap s)).
    { apply Hptr. apply last_Some in Hl as [l' ->]. apply elem_of_app. right. left. }
    destruct (lookup_lt_is_Some_2 _ _ Hlt) as [td Htd].
    exists td. rewrite Htd. repeat split; reflexivity.
Qed.

Lemma MTU_Name_replies_witness :
  exists s, exec [Add tun1; Add tun2] newTUNDevices = Some (s, [])
    /\ step MTU s = Some (s, [MTUReply 1400 None])
    /\ step Name s = Some (s, [NameReply "tun2" None])
    /\ step MTU newTUNDevices = Some (newTUNDevices, [MTUReply 1280 None])
    /\ step Name newTUNDevices = Some (newTUNDevices, [NameReply "" None]).
Proof.
  exists two_added. split; [reflexivity|].
  assert (Hreach : reachable two_added).
  { apply (exec_reachable [Add tun1; Add tun2] newTUNDevices _ []);
      [apply reachable_new|reflexivity]. }
  destruct (MTU_Name_replies _ Hreach eq_refl eq_refl) as [_ H].
  destruct (H 1 eq_refl) as (td & Htd & Hm & Hn).
  injection Htd as <-.
  destruct (MTU_Name_replies _ reachable_new eq_refl eq_refl) as [H0 _].
  destruct (H0 eq_refl) as [Hm0 Hn0].
  repeat split; assumption.
Defined.

(** C3 (as amended).  In every reachable state a read is serviced by the
    oldest device in the list.  When that device's Read fails after its
    close has been signalled, the caller gets the count with a nil error,
    the readFrom goroutine returns, and run, at its next select, removes
    the device and starts readFrom for the next oldest one, if any.
    While Close has not been called, a write is serviced by the device
    whose runDevice goroutine is running: the newest device, or an older
    one whose close has been signalled (by a later add or by shutdown)
    and whose goroutine has not yet taken that case; only after it has
    returned does run start the goroutine of the newest device. *)
Theorem multiplexer_dispatch (s : multiTUN) :
  reachable s ->
  (forall w count err s' o,
     step (Read w count err) s = Some (s', o) -> head (devices s) = Some w)
  /\ (forall w count e s' o,
       step (Read w count (Some e)) s = Some (s', o) -> chan_closed s w ->
       (exists td, heap s !! w = Some td
                   /\ o = [ReadReply (dev_id (dev td)) count None])
       /\ readFroms s' = []
       /\ (run s' = Select ->
           exists s'', step RunReadDone s' = Some (s'', [])
             /\ devices s'' = tail (devices s)
             /\ readFroms s'' = match tail (devices s) with
                                | [] => []
                                | w' :: _ => [(w', AtReads)]
                                end))
  /\ (closed s = false ->
      forall w count err s' o,
        step (Write w count err) s = Some (s', o) ->
        last (devices s) = Some w \/ chan_closed s w).
Proof.
  intros Hreach.
  assert (Hread : forall w count err s' o,
    step (Read w count err) s = Some (s', o) ->
    inv s /\ readFroms s = [(w, AtReads)] /\ head (devices s) = Some w
    /\ readDone_var s = Some w
    /\ readFrom_reads w count err s = Some (s', o)).
  { intros w count err s' o Hstep.
    pose proof (step_not_panicked _ _ _ _ Hstep) as Hpn.
    destruct (reachable_good s Hreach Hpn) as [Hinv _].
    unfold step in Hstep. rewrite Hpn in Hstep.
    assert (Hr : readFrom_reads w count err s = Some (s', o))
      by (destruct (run s); exact Hstep).
    split; [exact Hinv|]. destruct Hinv as [_ _ Hrd _ _ _].
    unfold readFrom_reads in Hr.
    destruct (decide _) as [Hin|]; [|discriminate].
    destruct Hrd as [Hrd|(w0 & Hrd & Hh & Hv)]; rewrite Hrd in Hin.
    - now apply elem_of_nil in Hin.
    - apply singleton_elem in Hin. injection Hin as ->.
      unfold readFrom_reads. rewrite Hrd.
      destruct (decide _) as [_|Hne]; [auto|destruct Hne; left]. }
  split; [|split].
  - intros w count err s' o Hstep. now destruct (Hread _ _ _ _ _ Hstep) as (_ & _ & H & _).
  - intros w count e s' o Hstep Hcw.
    destruct (Hread _ _ _ _ _ Hstep) as (Hinv & Hrs & Hhead & Hvar & Hr).
    pose proof (step_not_panicked _ _ _ _ Hstep) as Hpn. clear Hstep Hread.
    destruct Hinv as [_ _ _ Hsig _ _].
    unfold readFrom_reads, readFrom_return in Hr.
    unfold chan_closed in Hcw.
    destruct s as [h ds rv wv rpc rs ws cl pn]; unfold_inv; cbn in *.
    subst rs rv pn.
    destruct (decide _) as [_|Hne]; [|destruct Hne; left].
    destruct (h !! w) as [td|] eqn:Htd; [|discriminate]. cbn in Hr, Hcw.
    injection Hcw as Hcw. rewrite Hcw in Hr. cbn in Hr.
    destruct (decide _) as [_|Hne]; [|now destruct Hne]. cbn in Hr.
    destruct (readDone td) eqn:Hrdn.
    { destruct (Hsig w) as (_ & [=] & _). now rewrite Htd; cbn; rewrite Hrdn. }
    injection Hr as <- <-. cbn.
    split; [eauto|]. split; [reflexivity|].
    intros ->. unfold step, run_readDone; cbn.
    rewrite list_lookup_insert_eq by (eapply lookup_lt_Some; eauto). cbn.
    destruct ds as [|w0 ds']; [discriminate|]. cbn in Hhead.
    destruct ds' as [|w1 ds'']; cbn; eauto.
  - intros Hcl w count err s' o Hstep.
    pose proof (step_not_panicked _ _ _ _ Hstep) as Hpn.
    destruct (reachable_good s Hreach Hpn) as [_ Hop].
    destruct (Hop Hcl) as [Hw _ _ _].
    unfold step in Hstep. rewrite Hpn in Hstep.
    assert (Hr : runDevice_writes w count err s = Some (s', o))
      by (destruct (run s); exact Hstep).
    unfold runDevice_writes in Hr.
    destruct (decide _) as [Hin|]; [|discriminate].
    destruct Hw as [Hw|(w0 & pc & Hw & _ & Hpc)]; rewrite Hw in Hin.
    + now apply elem_of_nil in Hin.
    + apply singleton_elem in Hin. injection Hin as E1 E2. subst w0 pc.
      exact Hpc.
Qed.

Lemma multiplexer_dispatch_witness :
  head (devices two_added) = Some 0
  /\ (last (devices two_added) = Some 0 \/ chan_closed two_added 0)
  /\ exists s'',
       step RunReadDone
         (set_readFroms []
            (set_heap (<[0 := mkTunDevice tun1 true true false]>
                         (heap two_added)) two_added))
       = Some (s'', [])
       /\ devices s'' = [1] /\ readFroms s'' = [(1, AtReads)].
Proof.
  assert (Hreach : reachable two_added).
  { apply (exec_reachable [Add tun1; Add tun2] newTUNDevices _ []);
      [apply reachable_new|reflexivity]. }
  destruct (multiplexer_dispatch two_added Hreach) as (Hrd & Heof & Hwr).
  split; [apply (Hrd 0 3%Z None two_added [ReadReply 1 3%Z None]); reflexivity|].
  split; [apply (Hwr eq_refl 0 7%Z None two_added [WriteReply 1 7%Z None]);
          reflexivity|].
  destruct (Heof 0 0%Z "closed" _ _ eq_refl eq_refl) as (_ & _ & Hsw).
  exact (Hsw eq_refl).
Defined.

(** C3 as stated fails for writes: after add(tun1) then add(tun2) the
    newest device is tun2, yet the runDevice goroutine still running is
    that of tun1 and a write is serviced by tun1; none can be serviced
    by tun2 until run has started its goroutine. *)
Lemma write_after_add_serviced_by_older_device :
  exec [Add tun1; Add tun2] newTUNDevices = Some (two_added, [])
  /\ last (devices two_added) = Some 1
  /\ dev <$> heap two_added !! 1 = Some tun2
  /\ step (Write 0 7%Z None) two_added
     = Some (two_added, [WriteReply (dev_id tun1) 7%Z None])
  /\ (forall count err, step (Write 1 count err) two_added = None).
Proof. repeat split; reflexivity. Qed.

(** C4 (as amended).  Once Close has returned, that is once run has
    returned, no multiplexer-closed error is ever produced: run stays
    returned, so no add, MTU, Name or shutdown request is received any
    more and their callers block without a reply; no goroutine is
    started; the only replies still possible are those of readFrom and
    runDevice goroutines that were running before and have not yet taken
    the close case, and they carry the device's own result. *)
Theorem no_reply_after_Close (s : multiTUN) :
  run s = Returned ->
  forall ls s' o, exec ls s = Some (s', o) ->
    run s' = Returned
    /\ forallb (fun l => negb (run_request l)) ls = true
    /\ forallb io_reply o = true
    /\ (forall w, (w, AtReads) ∈ readFroms s' -> (w, AtReads) ∈ readFroms s)
    /\ (forall w, (w, AtWrites) ∈ runDevices s' -> (w, AtWrites) ∈ runDevices s).
Proof.
  intros Hrun ls. revert s Hrun.
  induction ls as [|l ls IH]; cbn; intros s Hrun s' o Hexec.
  - injection Hexec as <- <-. auto.
  - destruct (step l s) as [[s1 o1]|] eqn:Hstep; [|discriminate].
    cbn in Hexec.
    destruct (exec ls s1) as [[s2 o2]|] eqn:Hrest; [|discriminate].
    cbn in Hexec. injection Hexec as <- <-.
    destruct (returned_step l s s1 o1 Hrun Hstep) as (Hr1 & Hl & Ho1 & Hrd1 & Hwr1).
    destruct (IH s1 Hr1 s2 o2 Hrest) as (Hr2 & Hls & Ho2 & Hrd2 & Hwr2).
    repeat split; auto.
    + now rewrite Hl.
    + rewrite forallb_app. now rewrite Ho1, Ho2.
Qed.

Lemma no_reply_after_Close_witness :
  exec [Add tun1; Close; RunClose; RunDeviceReturn 0 None; RunCloseStep;
        RunCloseStep] newTUNDevices = Some (Close_returned, [CloseReply None])
  /\ forall s' o,
       exec [Read 0 5%Z None; ReadFromClose 0] Close_returned = Some (s', o) ->
       run s' = Returned /\ forallb io_reply o = true.
Proof.
  split; [reflexivity|].
  intros s' o Hexec.
  destruct (no_reply_after_Close Close_returned eq_refl _ _ _ Hexec)
    as (Hr & _ & Ho & _).
  split; assumption.
Defined.

(** C4 as stated fails: after add(tun1) and a Close that has returned
    (every goroutine having taken its close case), an MTU, Name, add or
    shutdown request is never received and a Read or Write finds no
    goroutine to serve it: the caller blocks and gets no error. *)
Lemma operations_after_Close_block :
  exec [Add tun1; Close; ReadFromClose 0; RunClose; RunDeviceReturn 0 None;
        RunCloseStep; RunCloseStep] newTUNDevices
  = Some (all_returned, [CloseReply None])
  /\ step MTU all_returned = None /\ step Name all_returned = None
  /\ step Shutdown all_returned = None
  /\ (forall dv, step (Add dv) all_returned = None)
  /\ (forall w count err, step (Read w count err) all_returned = None)
  /\ (forall w count err, step (Write w count err) all_returned = None).
Proof.
  split; [reflexivity|].
  repeat split; reflexivity.
Qed.

(** C10.  On a multiplexer on which Close has not been called, a Write
    issued while the device list is empty is not serviced: no goroutine
    receives it, so the caller gets neither a value nor an error.  It
    stays that way along every run in which no device is added, and no
    write reply is produced meanwhile; once add(dev) has been received,
    the runDevice goroutine of dev services writes. *)
Theorem Write_blocks_without_device (s : multiTUN) :
  reachable s -> closed s = false -> devices s = [] ->
  (forall w count err, step (Write w count err) s = None)
  /\ (forall ls s' o,
       forallb (fun l => negb (is_Add l)) ls = true ->
       exec ls s = Some (s', o) ->
       (forall w count err, step (Write w count err) s' = None)
       /\ Forall (fun r => is_WriteReply r = false) o)
  /\ (forall dv s' o, step (Add dv) s = Some (s', o) ->
       exists w, devices s' = [w]
         /\ forall count err,
              step (Write w count err) s'
              = Some (s', [WriteReply (dev_id dv) count err])).
Proof.
  intros Hreach Hcl Hdev.
  destruct (panicked s) eqn:Hpn.
  { split; [intros; now apply step_panicked|split].
    - intros [|l ls] s' o _ Hexec; cbn in Hexec.
      + injection Hexec as <- <-. split; [|constructor].
        intros. now apply step_panicked.
      + now rewrite step_panicked in Hexec.
    - intros dv s' o Hstep. now rewrite step_panicked in Hstep. }
  destruct (reachable_good s Hreach Hpn) as [Hinv Hop].
  destruct (Hop Hcl) as [_ Hnw _ _]. specialize (Hnw Hdev).
  assert (Hno : no_writer s).
  { split; [assumption|]. rewrite Hnw. intros w Hin. inversion Hin. }
  split; [intros; now apply no_writer_Write|split].
  - intros ls s' o Hls Hexec.
    destruct (no_writer_exec ls s s' o Hls Hno Hexec) as [Hno' Ho].
    split; [intros; now apply no_writer_Write|assumption].
  - intros dv s' o Hstep. unfold step in Hstep. rewrite Hpn in Hstep.
    destruct s as [h ds rv wv rpc rs ws cl pn]; cbn in *. subst ds ws pn.
    destruct rpc; try discriminate. unfold run_devices in Hstep.
    cbn in Hstep. injection Hstep as <- <-.
    exists (length h). split; [reflexivity|]. intros count err.
    unfold step, runDevice_writes; cbn.
    destruct (decide _) as [_|Hne]; [|destruct Hne; left].
    rewrite lookup_app_r by lia. now rewrite Nat.sub_diag.
Qed.

Lemma Write_blocks_without_device_witness :
  (forall w count err, step (Write w count err) newTUNDevices = None)
  /\ exists s, step (Add tun1) newTUNDevices = Some (s, [])
       /\ step (Write 0 9%Z None) s = Some (s, [WriteReply 1 9%Z None]).
Proof.
  destruct (Write_blocks_without_device newTUNDevices reachable_new
              eq_refl eq_refl) as (Hblock & _ & Hadd).
  split; [exact Hblock|].
  eexists. split; [reflexivity|].
  destruct (Hadd tun1 _ _ eq_refl) as (w & Hw & Hserve).
  injection Hw as <-. apply Hserve.
Defined.

(** C7.  On a multiplexer on which Close has not been called, when the
    shutdown case of run completes (it sends on shutdownDone), the device
    list is empty, every device that was in it has had Close() called and
    its readFrom has returned, no readFrom or runDevice goroutine is
    left, and run is back at its select; a following add(d3) is
    received, after which reads and writes are serviced, and serviced
    only, by d3, with what d3 returns. *)
Theorem shutdown_leaves_reusable (s s' : multiTUN) :
  reachable s -> closed s = false ->
  step ShutdownStep s = Some (s', [ShutdownDone]) ->
  devices s' = [] /\ run s' = Select
  /\ readFroms s' = [] /\ runDevices s' = []
  /\ (forall w, w ∈ devices s -> device_closed s' w)
  /\ forall d3, exists s3 w3,
       step (Add d3) s' = Some (s3, [])
       /\ devices s3 = [w3] /\ dev <$> heap s3 !! w3 = Some d3
       /\ (forall count err,
             step (Read w3 count err) s3
             = Some (s3, [ReadReply (dev_id d3) count err]))
       /\ (forall count err,
             step (Write w3 count err) s3
             = Some (s3, [WriteReply (dev_id d3) count err]))
       /\ (forall w count err r, step (Read w count err) s3 = Some r -> w = w3)
       /\ (forall w count err r, step (Write w count err) s3 = Some r -> w = w3).
Proof.
  intros Hreach Hcl Hstep.
  pose proof (step_not_panicked _ _ _ _ Hstep) as Hpn.
  destruct (reachable_good s Hreach Hpn) as [Hinv Hop].
  destruct (Hop Hcl) as [Hw Hnw Hsc Hsw].
  destruct Hinv as [Hptr Hold Hrd Hsig Hpk Hsh].
  unfold step in Hstep. rewrite Hpn in Hstep.
  destruct s as [h ds rv wv rpc rs ws cl pn]; unfold_inv; cbn in *.
  subst cl pn. destruct rpc as [|rest pc| |]; try discriminate.
  destruct rest as [|w rest'].
  2:{ cbn in Hstep. destruct pc; cbn in Hstep.
      - destruct (chan_close _ _); cbn in Hstep; discriminate.
      - destruct (recv_closeDone _ _) as [[? ?]|]; cbn in Hstep; discriminate.
      - destruct (h !! w) as [td|]; cbn in Hstep; [|discriminate].
        destruct (readDone td); discriminate. }
  cbn in Hstep. injection Hstep as <-.
  assert (Hfacts : rs = [] /\ ws = []
                   /\ forall w, w ∈ ds -> dev_closed <$> h !! w = Some true).
  { destruct Hsh as [(<- & _ & _)|[(w & _ & [=] & _)|(w & -> & _ & Hr & _ & Hd)]].
    - repeat split; auto.
      + destruct Hrd as [->|(w0 & _ & Hh & _)]; [reflexivity|discriminate].
      + intros w Hin. inversion Hin.
    - repeat split; auto.
      intros w' ->%singleton_elem. exact Hd. }
  destruct Hfacts as (-> & -> & Hclosed).
  cbn. repeat split; auto.
  intros d3. eexists. exists (length h).
  unfold step at 1; cbn. unfold run_devices; cbn.
  split; [reflexivity|]. split; [reflexivity|].
  split; [cbn; rewrite lookup_app_r by lia; now rewrite Nat.sub_diag|].
  assert (Hnew : (h ++ [mkTunDevice d3 false false false]) !! length h
                 = Some (mkTunDevice d3 false false false)).
  { rewrite lookup_app_r by lia. now rewrite Nat.sub_diag. }
  repeat split.
  - intros count err. unfold step, readFrom_reads; cbn.
    destruct (decide _) as [_|Hne]; [|destruct Hne; left].
    rewrite Hnew. cbn. now destruct err.
  - intros count err. unfold step, runDevice_writes; cbn.
    destruct (decide _) as [_|Hne]; [|destruct Hne; left].
    now rewrite Hnew.
  - intros w count err r. unfold step, readFrom_reads; cbn.
    destruct (decide _) as [Hin|]; [|discriminate].
    apply singleton_elem in Hin. now injection Hin.
  - intros w count err r. unfold step, runDevice_writes; cbn.
    destruct (decide _) as [Hin|]; [|discriminate].
    apply singleton_elem in Hin. now injection Hin.
Qed.

Lemma shutdown_leaves_reusable_witness :
  exists s',
    step ShutdownStep shutdown_ending = Some (s', [ShutdownDone])
    /\ devices s' = [] /\ device_closed s' 0
    /\ exists s3,
         step (Add tun3) s' = Some (s3, [])
         /\ step (Read 1 4%Z None) s3 = Some (s3, [ReadReply 3 4%Z None])
         /\ step (Write 1 6%Z None) s3 = Some (s3, [WriteReply 3 6%Z None]).
Proof.
  eexists. split; [reflexivity|].
  assert (Hreach : reachable shutdown_ending).
  { apply (exec_reachable
             [Add tun1; Shutdown; ShutdownStep; RunDeviceReturn 0 None;
              ShutdownStep; Read 0 0%Z (Some "closed"); ShutdownStep]
             newTUNDevices _ [ReadReply 1 0%Z None]);
      [apply reachable_new|reflexivity]. }
  destruct (shutdown_leaves_reusable shutdown_ending _ Hreach eq_refl eq_refl)
    as (Hd & _ & _ & _ & Hc & Hadd).
  split; [exact Hd|]. split; [apply Hc; left|].
  destruct (Hadd tun3) as (s3 & w3 & Hstep & Hw3 & _ & Hr & Hw & _).
  exists s3. split; [exact Hstep|].
  injection Hstep as <-. injection Hw3 as <-. split; [apply Hr|apply Hw].
Defined.

(** The shutdown case closes the channel [close] of every device in the
    list, and add has already closed that of every device but the newest:
    with two devices in the list the first close of the loop panics, so
    a shutdown that completes had at most one device to close. *)
Lemma shutdown_of_two_devices_panics :
  exists s,
    exec [Add tun1; Add tun2; Shutdown; ShutdownStep] newTUNDevices = Some (s, [])
    /\ devices s = [0; 1] /\ panicked s = true.
Proof. eexists. split; [vm_compute; reflexivity|]. split; reflexivity. Qed.


(** *** What makes the multiplexer panic *)

Lemma chan_close_panicked w s s1 :
  chan_close w s = Some s1 ->
  panicked s1 = true ->
  panicked s = true \/ chan_closed s w.
Proof.
  unfold chan_close, chan_closed. intros Hc Hp.
  destruct (heap s !! w) as [td|]; [|discriminate]. cbn in Hc.
  destruct (close td) eqn:E; injection Hc as <-.
  - right. cbn. now rewrite E.
  - left. exact Hp.
Qed.

Lemma readFrom_return_panicked w s s' :
  readFrom_return w s = Some s' -> panicked s' = panicked s.
Proof.
  unfold readFrom_return. intros H.
  destruct (take_out _ _); [|discriminate]. cbn in H.
  destruct (heap s !! w) as [td|]; [|discriminate]. cbn in H.
  destruct (readDone td); now injection H as <-.
Qed.

(** A step that ends in a panic is a second Close, or the first close of
    a shutdown loop over two or more devices. *)
Lemma step_panics l s s' o :
  good s -> step l s = Some (s', o) -> panicked s' = true ->
  (l = Close /\ closed s = true)
  \/ (l = ShutdownStep /\ run s = InShutdown (devices s) DoClose
      /\ 2 <= length (devices s)).
Proof.
  intros Hgood Hstep Hp.
  pose proof (step_not_panicked _ _ _ _ Hstep) as Hpn.
  destruct (Hgood Hpn) as [[Hptr Hold Hrd Hsig Hpk Hsh] _].
  unfold step in Hstep. rewrite Hpn in Hstep.
  destruct l.
  - (* Add *)
    destruct (run s) eqn:Hrun; try discriminate.
    destruct (run_devices dv s) as [s1|] eqn:Hd; [|discriminate].
    injection Hstep as <- <-. exfalso.
    unfold shutdown_shape in Hsh. rewrite Hrun in Hsh.
    destruct (last (devices s)) as [prev|] eqn:Hlast.
    + specialize (Hsh prev Hlast). unfold chan_open in Hsh.
      destruct (heap s !! prev) as [td|] eqn:Htd; [|discriminate].
      injection Hsh as Hc.
      rewrite (run_devices_snoc dv s prev td Hpn Hlast Htd Hc) in Hd.
      injection Hd as <-. cbn in Hp. congruence.
    + apply last_None in Hlast. unfold run_devices in Hd.
      destruct s as [h ds rv wv rpc rs ws cl pn]; cbn in *. subst ds pn.
      cbn in Hd. injection Hd as <-. cbn in Hp. congruence.
  - destruct (run s); try discriminate.
    destruct (run_mtus s); [|discriminate]. injection Hstep as <- <-. congruence.
  - destruct (run s); try discriminate.
    destruct (run_names s); [|discriminate]. injection Hstep as <- <-. congruence.
  - destruct (run s); try discriminate. injection Hstep as <- <-.
    cbn in Hp. congruence.
  - (* ShutdownStep *)
    destruct (run s) as [|rest pc| |] eqn:Hrun; try discriminate.
    unfold run_shutdowns in Hstep.
    destruct rest as [|w rest']; [injection Hstep as <- <-; cbn in Hp; congruence|].
    destruct pc.
    + destruct (chan_close w s) as [s1|] eqn:Hc; [|discriminate].
      injection Hstep as <- <-. cbn in Hp.
      destruct (chan_close_panicked _ _ _ Hc Hp) as [?|Hcl]; [congruence|].
      right. split; [reflexivity|].
      unfold shutdown_shape in Hsh. rewrite Hrun in Hsh.
      destruct Hsh as [(Hrest & _ & Hnew)|[(w0 & _ & _ & _ & [[=]|[[=] _]])
                                          |(w0 & _ & [=] & _)]].
      rewrite <- Hrest. split; [reflexivity|].
      destruct rest' as [|w1 rest'']; [|cbn; lia]. exfalso.
      specialize (Hnew w). rewrite <- Hrest in Hnew. specialize (Hnew eq_refl).
      unfold chan_open, chan_closed in *. congruence.
    + destruct (recv_closeDone w (runDevices s)) as [[e gs]|]; [|discriminate].
      injection Hstep as <- <-. cbn in Hp. congruence.
    + destruct (heap s !! w) as [td|]; [|discriminate]. cbn in Hstep.
      destruct (readDone td); [|discriminate].
      injection Hstep as <- <-. cbn in Hp. congruence.
  - (* Close *)
    injection Hstep as <- <-. unfold Close_call in Hp.
    destruct (closed s) eqn:Hc; [now left|]. cbn in Hp. congruence.
  - destruct (run s); try discriminate.
    destruct (closed s); [|discriminate]. injection Hstep as <- <-.
    cbn in Hp. congruence.
  - destruct (run s) as [| |rest derr|]; try discriminate.
    unfold run_close in Hstep. destruct rest as [|w rest'].
    + injection Hstep as <- <-. cbn in Hp. congruence.
    + destruct (recv_closeDone w (runDevices s)) as [[e gs]|]; [|discriminate].
      injection Hstep as <- <-. cbn in Hp. congruence.
  - (* RunReadDone *)
    destruct (run s); try discriminate.
    destruct (run_readDone s) as [s1|] eqn:Hr; [|discriminate].
    injection Hstep as <- <-. exfalso.
    unfold run_readDone in Hr.
    destruct (readDone_var s) as [w|]; [|discriminate]. cbn in Hr.
    destruct (heap s !! w) as [td|] eqn:Htd; [|discriminate]. cbn in Hr.
    destruct (readDone td) eqn:Hrdy; [|discriminate]. cbn in Hr.
    assert (Hs : signalled s w) by (unfold signalled; now rewrite Htd; cbn; f_equal).
    destruct (Hsig w Hs) as (Hhead & _).
    destruct (devices s) as [|d0 ds]; [discriminate|].
    destruct ds; injection Hr as <-; cbn in Hp; congruence.
  - (* RunRunDone *)
    destruct (run s); try discriminate.
    destruct (run_runDone s) as [s1|] eqn:Hr; [|discriminate].
    injection Hstep as <- <-. unfold run_runDone in Hr.
    destruct (runDone_var s) as [w|]; [|discriminate]. cbn in Hr.
    destruct (recv_closeDone w (runDevices s)) as [[e gs]|]; [|discriminate].
    cbn in Hr. destruct (last (devices s)); injection Hr as <-; cbn in Hp;
      congruence.
  - (* Read *)
    unfold readFrom_reads in Hstep.
    destruct (decide _); [|discriminate].
    destruct (heap s !! w) as [td|]; [|discriminate]. cbn in Hstep.
    destruct (match err with Some _ => close td | None => false end).
    + destruct (readFrom_return w s) as [s1|] eqn:Hr; [|discriminate].
      injection Hstep as <- <-. rewrite (readFrom_return_panicked _ _ _ Hr) in Hp.
      congruence.
    + injection Hstep as <- <-. congruence.
  - unfold readFrom_close in Hstep. destruct (closed s); [|discriminate].
    destruct (readFrom_return w s) as [s1|] eqn:Hr; [|discriminate].
    injection Hstep as <- <-. rewrite (readFrom_return_panicked _ _ _ Hr) in Hp.
    congruence.
  - unfold readFrom_send in Hstep.
    destruct (take_out _ _); [|discriminate]. cbn in Hstep.
    destruct (heap s !! w) as [td|]; [|discriminate]. cbn in Hstep.
    destruct (readDone td); [discriminate|]. injection Hstep as <- <-.
    cbn in Hp. congruence.
  - unfold runDevice_writes in Hstep.
    destruct (decide _); [|discriminate].
    destruct (heap s !! w) as [td|]; [|discriminate]. cbn in Hstep.
    injection Hstep as <- <-. congruence.
  - unfold runDevice_return in Hstep.
    destruct (take_out _ _); [|discriminate]. cbn in Hstep.
    destruct (heap s !! w) as [td|]; [|discriminate]. cbn in Hstep.
    destruct (close td || closed s); [|discriminate].
    injection Hstep as <- <-. cbn in Hp. congruence.
Qed.

(** In every reachable state, the only steps that make the multiplexer
    panic are a second Close (close of the closed channel d.close) and
    the first close of a shutdown loop over two or more devices.  So
    add never panics on close(prev.close), the readDone case never
    slices an empty list, and no read or write panics. *)
Theorem panic_only_by_second_Close_or_shutdown (s : multiTUN) (l : label)
    (s' : multiTUN) (o : list reply) :
  reachable s -> step l s = Some (s', o) -> panicked s' = true ->
  (l = Close /\ closed s = true)
  \/ (l = ShutdownStep /\ run s = InShutdown (devices s) DoClose
      /\ 2 <= length (devices s)).
Proof.
  intros Hreach. apply step_panics. now apply reachable_good.
Qed.

Lemma panic_only_by_second_Close_or_shutdown_witness :
  let s := state_after [Add tun1; Close] in
  step Close s = Some (Close_call s, []) /\ panicked (Close_call s) = true
  /\ closed s = true.
Proof.
  intros s.
  assert (Hreach : reachable s).
  { apply (exec_reachable [Add tun1; Close] newTUNDevices _ []);
      [apply reachable_new|reflexivity]. }
  split; [reflexivity|]. split; [reflexivity|].
  destruct (panic_only_by_second_Close_or_shutdown s Close (Close_call s) []
              Hreach eq_refl eq_refl) as [[_ Hc]|(Hl & _)];
    [exact Hc|discriminate Hl].
Defined.

(** Shutdown while two or more devices are in the list panics: add has
    already closed the channel [close] of every device but the newest,
    and the first statement of the shutdown loop closes that of the
    oldest again.  After the panic nothing happens any more. *)
Theorem Shutdown_panics_with_two_devices (s : multiTUN) :
  reachable s -> panicked s = false -> run s = Select ->
  2 <= length (devices s) ->
  exists s1 s2,
    step Shutdown s = Some (s1, [])
    /\ step ShutdownStep s1 = Some (s2, [])
    /\ panicked s2 = true
    /\ forall l, step l s2 = None.
Proof.
  intros Hreach Hpn Hrun Hlen.
  destruct (reachable_good s Hreach Hpn) as [[Hptr Hold _ _ _ _] _].
  destruct (devices s) as [|w [|w1 ds]] eqn:Hds; cbn in Hlen; try lia.
  assert (Hcl : chan_closed s w).
  { apply (Hold 0 w); rewrite Hds; cbn; [reflexivity|lia]. }
  unfold chan_closed in Hcl.
  destruct (heap s !! w) as [td|] eqn:Htd; [|discriminate].
  injection Hcl as Hc.
  eexists _, _.
  split; [|split; [|split]].
  - unfold step. rewrite Hpn, Hrun, Hds. reflexivity.
  - unfold step. cbn. rewrite Hpn. unfold chan_close. cbn.
    rewrite Htd. cbn. rewrite Hc. reflexivity.
  - reflexivity.
  - intros l. now apply step_panicked.
Qed.

Lemma Shutdown_panics_with_two_devices_witness :
  exists s1 s2,
    step Shutdown two_added = Some (s1, [])
    /\ step ShutdownStep s1 = Some (s2, [])
    /\ panicked s2 = true
    /\ forall l, step l s2 = None.
Proof.
  apply Shutdown_panics_with_two_devices; [|reflexivity|reflexivity|cbn; lia].
  apply (exec_reachable [Add tun1; Add tun2] newTUNDevices _ []);
    [apply reachable_new|reflexivity].
Defined.

(** A Read issued while the device list is empty is not serviced: no
    readFrom goroutine exists, so nothing receives from d.reads and the
    caller blocks, in every reachable state, also after Close.  Once
    add(dev) has been received, the readFrom goroutine of dev services
    reads with what dev.Read returns. *)
Theorem Read_blocks_without_device (s : multiTUN) :
  reachable s -> devices s = [] ->
  (forall w count err, step (Read w count err) s = None)
  /\ forall dv s' o,
       step (Add dv) s = Some (s', o) ->
       exists w, devices s' = [w]
         /\ forall count err,
              step (Read w count err) s'
              = Some (s', [ReadReply (dev_id dv) count err]).
Proof.
  intros Hreach Hdev.
  destruct (panicked s) eqn:Hpn.
  { split; intros; [now apply step_panicked|].
    now rewrite step_panicked in H. }
  destruct (reachable_good s Hreach Hpn) as [[_ _ Hrd _ _ _] _].
  assert (Hno : readFroms s = []).
  { destruct Hrd as [E|(w & _ & Hh & _)]; [exact E|].
    rewrite Hdev in Hh. discriminate. }
  split.
  - intros w count err. unfold step. rewrite Hpn. unfold readFrom_reads.
    rewrite Hno. destruct (decide _) as [Hin|]; [|reflexivity].
    now apply elem_of_nil in Hin.
  - intros dv s' o Hstep. unfold step in Hstep. rewrite Hpn in Hstep.
    destruct s as [h ds rv wv rpc rs ws cl pn]; cbn in *. subst ds rs pn.
    destruct rpc; try discriminate. unfold run_devices in Hstep.
    cbn in Hstep. injection Hstep as <- <-.
    exists (length h). split; [reflexivity|]. intros count err.
    unfold step, readFrom_reads; cbn.
    destruct (decide _) as [_|Hne]; [|destruct Hne; left].
    rewrite lookup_app_r by lia. rewrite Nat.sub_diag. cbn. now destruct err.
Qed.

Lemma Read_blocks_without_device_witness :
  (forall w count err, step (Read w count err) newTUNDevices = None)
  /\ exists s, step (Add tun1) newTUNDevices = Some (s, [])
       /\ step (Read 0 9%Z None) s = Some (s, [ReadReply 1 9%Z None]).
Proof.
  destruct (Read_blocks_without_device newTUNDevices reachable_new eq_refl)
    as (Hblock & Hadd).
  split; [exact Hblock|].
  eexists. split; [reflexivity|].
  destruct (Hadd tun1 _ _ eq_refl) as (w & Hw & Hserve).
  injection Hw as <-. apply Hserve.
Defined.

(** *** The multiplexer as the backend drives it *)

Lemma step_devices l s s' o :
  step l s = Some (s', o) ->
  panicked s' = false ->
  (existsb Backend.is_ShutdownDone o = true /\ devices s' = [])
  \/ (existsb Backend.is_ShutdownDone o = false
      /\ ((exists dv, l = Add dv /\ exists w, devices s' = devices s ++ [w])
          \/ (Backend.is_Add l = false
              /\ (devices s' = devices s \/ devices s' = tail (devices s))))).
Proof.
  intros Hstep Hp'.
  pose proof (step_not_panicked _ _ _ _ Hstep) as Hpn.
  unfold step in Hstep. rewrite Hpn in Hstep.
  destruct l.
  - destruct (run s) eqn:Hrun; try discriminate.
    destruct (run_devices dv s) as [s1|] eqn:Hd; [|discriminate].
    injection Hstep as <- <-. right. split; [reflexivity|]. left.
    exists dv. split; [reflexivity|].
    unfold run_devices in Hd.
    destruct (match last (devices s) with
              | Some prev => chan_close prev s
              | None => Some s
              end) as [s2|] eqn:Hc; [|discriminate]. cbn in Hd.
    assert (Hds : devices s2 = devices s).
    { destruct (last (devices s)); [|now injection Hc as <-].
      unfold chan_close in Hc. destruct (heap s !! n); [|discriminate].
      cbn in Hc. destruct (close t); now injection Hc as <-. }
    destruct (panicked s2) eqn:Hp2; [injection Hd as <-; congruence|].
    injection Hd as <-. cbn. exists (length (heap s2)).
    rewrite <- Hds. destruct (devices s2) eqn:E; cbn; now rewrite E.
  - destruct (run s); try discriminate. unfold run_mtus in Hstep.
    destruct (last (devices s)); [destruct (heap s !! _)|]; cbn in Hstep;
      try discriminate; injection Hstep as <- <-;
      (right; split; [reflexivity|]; right; auto).
  - destruct (run s); try discriminate. unfold run_names in Hstep.
    destruct (last (devices s)); [destruct (heap s !! _)|]; cbn in Hstep;
      try discriminate; injection Hstep as <- <-;
      (right; split; [reflexivity|]; right; auto).
  - destruct (run s); try discriminate. injection Hstep as <- <-.
    right. split; [reflexivity|]. right. auto.
  - destruct (run s) as [|rest pc| |]; try discriminate.
    unfold run_shutdowns in Hstep.
    destruct rest as [|w rest']; [injection Hstep as <- <-; left; auto|].
    right. destruct pc.
    + destruct (chan_close w s) as [s1|] eqn:Hc; [|discriminate].
      injection Hstep as <- <-. split; [reflexivity|]. right.
      split; [reflexivity|]. left. unfold chan_close in Hc.
      destruct (heap s !! w); [|discriminate]. cbn in Hc.
      destruct (close t); now injection Hc as <-.
    + destruct (recv_closeDone w (runDevices s)) as [[e gs]|]; [|discriminate].
      injection Hstep as <- <-. split; [reflexivity|]. right. auto.
    + destruct (heap s !! w) as [td|]; [|discriminate]. cbn in Hstep.
      destruct (readDone td); [|discriminate].
      injection Hstep as <- <-. split; [reflexivity|]. right. auto.
  - injection Hstep as <- <-. right. split; [reflexivity|]. right.
    split; [reflexivity|]. left. unfold Close_call. now destruct (closed s).
  - destruct (run s); try discriminate.
    destruct (closed s); [|discriminate]. injection Hstep as <- <-.
    right. split; [reflexivity|]. right. auto.
  - destruct (run s) as [| |rest derr|]; try discriminate.
    unfold run_close in Hstep. destruct rest as [|w rest'].
    + injection Hstep as <- <-. right. split; [reflexivity|]. right. auto.
    + destruct (recv_closeDone w (runDevices s)) as [[e gs]|]; [|discriminate].
      injection Hstep as <- <-. right. split; [reflexivity|]. right. auto.
  - destruct (run s); try discriminate.
    destruct (run_readDone s) as [s1|] eqn:Hr; [|discriminate].
    injection Hstep as <- <-. right. split; [reflexivity|]. right.
    split; [reflexivity|]. right.
    unfold run_readDone in Hr.
    destruct (readDone_var s) as [w|]; [|discriminate]. cbn in Hr.
    destruct (heap s !! w) as [td|]; [|discriminate]. cbn in Hr.
    destruct (readDone td); [|discriminate]. cbn in Hr.
    destruct (devices s) as [|d0 ds]; [injection Hr as <-; discriminate|].
    destruct ds; now injection Hr as <-.
  - destruct (run s); try discriminate.
    destruct (run_runDone s) as [s1|] eqn:Hr; [|discriminate].
    injection Hstep as <- <-. right. split; [reflexivity|]. right.
    split; [reflexivity|]. left.
    unfold run_runDone in Hr.
    destruct (runDone_var s) as [w|]; [|discriminate]. cbn in Hr.
    destruct (recv_closeDone w (runDevices s)) as [[e gs]|]; [|discriminate].
    cbn in Hr. destruct (last (devices s)); now injection Hr as <-.
  - unfold readFrom_reads in Hstep.
    destruct (decide _); [|discriminate].
    destruct (heap s !! w) as [td|]; [|discriminate]. cbn in Hstep.
    right. destruct (match err with Some _ => close td | None => false end).
    + destruct (readFrom_return w s) as [s1|] eqn:Hr; [|discriminate].
      injection Hstep as <- <-. split; [reflexivity|]. right.
      split; [reflexivity|]. left. unfold readFrom_return in Hr.
      destruct (take_out _ _); [|discriminate]. cbn in Hr.
      destruct (heap s !! w); [|discriminate]. cbn in Hr.
      destruct (readDone t); now injection Hr as <-.
    + injection Hstep as <- <-. split; [reflexivity|]. right. auto.
  - unfold readFrom_close in Hstep. destruct (closed s); [|discriminate].
    destruct (readFrom_return w s) as [s1|] eqn:Hr; [|discriminate].
    injection Hstep as <- <-. right. split; [reflexivity|]. right.
    split; [reflexivity|]. left. unfold readFrom_return in Hr.
    destruct (take_out _ _); [|discriminate]. cbn in Hr.
    destruct (heap s !! w); [|discriminate]. cbn in Hr.
    destruct (readDone t); now injection Hr as <-.
  - unfold readFrom_send in Hstep.
    destruct (take_out _ _); [|discriminate]. cbn in Hstep.
    destruct (heap s !! w) as [td|]; [|discriminate]. cbn in Hstep.
    destruct (readDone td); [discriminate|]. injection Hstep as <- <-.
    right. split; [reflexivity|]. right. auto.
  - unfold runDevice_writes in Hstep.
    destruct (decide _); [|discriminate].
    destruct (heap s !! w) as [td|]; [|discriminate]. cbn in Hstep.
    injection Hstep as <- <-. right. split; [reflexivity|]. right. auto.
  - unfold runDevice_return in Hstep.
    destruct (take_out _ _); [|discriminate]. cbn in Hstep.
    destruct (heap s !! w) as [td|]; [|discriminate]. cbn in Hstep.
    destruct (close td || closed s); [|discriminate].
    injection Hstep as <- <-. right. split; [reflexivity|]. right. auto.
Qed.

Lemma backend_run_inv idle s :
  Backend.backend_run idle s ->
  reachable s
  /\ length (devices s) <= 1
  /\ (idle = true -> devices s = [])
  /\ (panicked s = true -> closed s = true).
Proof.
  induction 1 as [|idle s l s' o _ (Hreach & Hlen & Hidle & Hpc) Hstep Hadd].
  { repeat split; [apply reachable_new|cbn; lia|discriminate]. }
  assert (Hreach' : reachable s') by (eapply reachable_step; eauto).
  pose proof (step_not_panicked _ _ _ _ Hstep) as Hpn.
  split; [assumption|].
  destruct (panicked s') eqn:Hp'.
  - destruct (step_panics l s s' o (reachable_good s Hreach) Hstep Hp')
      as [[-> Hcl]|(_ & _ & H2)]; [|lia].
    unfold step in Hstep. rewrite Hpn in Hstep. cbn in Hstep.
    injection Hstep as <- <-. unfold Close_call. rewrite Hcl. cbn.
    repeat split; auto.
  - destruct (step_devices l s s' o Hstep Hp')
      as [[-> ->]|[-> [(dv & -> & w & ->)|(Hl & [->| ->])]]].
    + repeat split; [cbn; lia|discriminate].
    + cbn. rewrite (Hidle (Hadd eq_refl)). repeat split; try discriminate.
      cbn. lia.
    + rewrite Hl. repeat split; [assumption..|discriminate].
    + rewrite Hl. repeat split; try discriminate.
      * destruct (devices s); cbn in *; lia.
      * intros Hi. now rewrite (Hidle Hi).
Qed.

(** The multiplexer as the backend drives it, every add following a
    Shutdown that has returned: the device list never holds more than
    one device and is empty between the return of Shutdown and the next
    add, so the shutdown loop never closes a channel twice; the only
    panic left is that of a second Close. *)
Theorem backend_keeps_one_device (idle : bool) (s : multiTUN) :
  Backend.backend_run idle s ->
  length (devices s) <= 1
  /\ (idle = true -> devices s = [])
  /\ (panicked s = true -> closed s = true)
  /\ forall l s' o,
       step l s = Some (s', o) -> panicked s' = true ->
       l = Close /\ closed s = true.
Proof.
  intros Hrun.
  destruct (backend_run_inv idle s Hrun) as (Hreach & Hlen & Hidle & Hpc).
  split; [assumption|]. split; [assumption|]. split; [assumption|].
  intros l s' o Hstep Hp.
  destruct (step_panics l s s' o (reachable_good s Hreach) Hstep Hp)
    as [[-> Hcl]|(_ & _ & H2)]; [auto|lia].
Qed.

Lemma backend_keeps_one_device_witness :
  let s := state_after [Shutdown; ShutdownStep; Add tun1] in
  devices s = [0] /\ length (devices s) <= 1.
Proof.
  intros s. split; [reflexivity|].
  assert (H1 : Backend.backend_run false
                 (state_after [Shutdown])).
  { apply (Backend.backend_step false newTUNDevices Shutdown _ []);
      [apply Backend.backend_new|reflexivity|discriminate]. }
  assert (H2 : Backend.backend_run true
                 (state_after [Shutdown; ShutdownStep])).
  { apply (Backend.backend_step false _ ShutdownStep _ [ShutdownDone] H1);
      [reflexivity|discriminate]. }
  assert (H3 : Backend.backend_run false s).
  { apply (Backend.backend_step true _ (Add tun1) _ [] H2);
      [reflexivity|reflexivity]. }
  apply (backend_keeps_one_device false s H3).
Defined.

(** *** One goroutine for reads, one for writes *)

(** At most one readFrom goroutine exists at any time, it is in its
    select and serves the oldest device.  While Close has not been
    called, at most one runDevice goroutine exists; and when run, in its
    runDone case, starts runDevice for the newest device, the goroutine
    it replaces has returned and Close() has been called on its device:
    two devices are never open for writing at once. *)
Theorem one_goroutine_per_direction (s : multiTUN) :
  reachable s -> panicked s = false ->
  length (readFroms s) <= 1
  /\ (forall w pc, (w, pc) ∈ readFroms s ->
        pc = AtReads /\ head (devices s) = Some w)
  /\ (closed s = false ->
      length (runDevices s) <= 1
      /\ forall s' o,
           step RunRunDone s = Some (s', o) ->
           exists w, runDone_var s = Some w /\ device_closed s w
             /\ runDevices s' = match last (devices s) with
                                | Some d => [(d, AtWrites)]
                                | None => []
                                end).
Proof.
  intros Hreach Hpn.
  destruct (reachable_good s Hreach Hpn) as [[_ _ Hrd _ Hpk _] Hopen].
  split; [|split].
  - destruct Hrd as [->|(w & -> & _)]; cbn; lia.
  - intros w pc Hin. destruct Hrd as [E|(w0 & E & Hh & _)]; rewrite E in Hin.
    + now apply elem_of_nil in Hin.
    + apply singleton_elem in Hin. injection Hin as -> ->. now split.
  - intros Hcl. destruct (Hopen Hcl) as [Hw _ _ _].
    split.
    + destruct Hw as [->|(w & pc & -> & _)]; cbn; lia.
    + intros s' o Hstep. unfold step in Hstep. rewrite Hpn in Hstep.
      destruct (run s); try discriminate.
      destruct (run_runDone s) as [s1|] eqn:Hr; [|discriminate].
      injection Hstep as <- <-. unfold run_runDone in Hr.
      destruct (runDone_var s) as [w|]; [|discriminate]. cbn in Hr.
      destruct (recv_closeDone w (runDevices s)) as [[e gs]|] eqn:Hrecv;
        [|discriminate].
      cbn in Hr. exists w. split; [reflexivity|].
      destruct (recv_closeDone_elem _ _ _ _ Hrecv) as [Hin Hsub].
      split; [apply (Hpk w e Hin)|].
      assert (Hgs : gs = []).
      { destruct Hw as [E|(w0 & pc & E & _)]; rewrite E in Hrecv.
        - discriminate.
        - cbn in Hrecv. destruct pc; [discriminate|].
          destruct (decide (w0 = w)); [|discriminate].
          now injection Hrecv as _ <-. }
      subst gs. destruct (last (devices s)); now injection Hr as <-.
Qed.

Lemma one_goroutine_per_direction_witness :
  length (readFroms two_added) <= 1 /\ length (runDevices two_added) <= 1.
Proof.
  assert (Hreach : reachable two_added).
  { apply (exec_reachable [Add tun1; Add tun2] newTUNDevices _ []);
      [apply reachable_new|reflexivity]. }
  destruct (one_goroutine_per_direction two_added Hreach eq_refl)
    as (Hr & _ & Hw).
  split; [exact Hr|]. apply (Hw eq_refl).
Defined.

End MultiTUNFacts.
